(** * visgeom: semi-global matching along epipolar curves

    A shallow embedding of [reconstruction/eucm_stereo.cpp] (class
    [EnhancedStereo]) and of the header that defines [EnhancedEpipolar],
    with the properties its specification states about them.

    Conventions of the embedding.
    - A [cv::Mat_] is its flat row-major buffer, a [list Z]; a pointer into
      it is an offset.  A read or a write outside the buffer has no defined
      result in C++, and is [None] here.
    - [int] is a [Z] kept within 32 bits: an operation whose result leaves
      the range has no defined result in C++, and is [None] here.
    - [uint8_t] is a [Z] in [0, 256); storing an [int] into it reduces
      modulo 256, as the conversion does.
    - [double] is any type with the operations of the class [Scalar];
      the instance [Scalar_float] is IEEE binary64. *)

From Stdlib Require Import ZArith List Lia Bool Reals Lra Floats.
From stdpp Require Import base tactics option list list_numbers.

Open Scope Z_scope.

(** ** Machine integers *)

Definition INT_MIN : Z := - 2 ^ 31.
Definition INT_MAX : Z := 2 ^ 31 - 1.

Definition in_int (z : Z) : bool := (INT_MIN <=? z) && (z <=? INT_MAX).

(** The result of an [int] operation, when it is representable. *)
Definition int_result (z : Z) : option Z := if in_int z then Some z else None.

Definition iadd (a b : Z) : option Z := int_result (a + b).
Definition isub (a b : Z) : option Z := int_result (a - b).
Definition imul (a b : Z) : option Z := int_result (a * b).

(** Conversion of an [int] to [uint8_t] and to [int16_t]. *)
Definition to_uint8 (z : Z) : Z := z mod 256.
Definition to_int16 (z : Z) : Z := (z + 2 ^ 15) mod 2 ^ 16 - 2 ^ 15.

(** ** Buffers and loops *)

Definition load (m : list Z) (p : Z) : option Z :=
  if 0 <=? p then m !! Z.to_nat p else None.

Definition store (m : list Z) (p : Z) (x : Z) : option (list Z) :=
  if (0 <=? p) && (p <? Z.of_nat (length m))
  then Some (<[Z.to_nat p := x]> m) else None.

(** [forM body idxs s] runs [body i] for every [i] of [idxs], in order,
    threading the state and stopping at the first failure. *)
Fixpoint forM {St : Type} (body : Z → St → option St) (idxs : list Z)
    (s : St) : option St :=
  match idxs with
  | [] => Some s
  | i :: rest => match body i s with
                 | Some s' => forM body rest s'
                 | None => None
                 end
  end.

(** [for (int i = lo; i < hi; i++) body] *)
Definition for_up {St : Type} (lo hi : Z) (body : Z → St → option St)
    (s : St) : option St :=
  forM body (seqZ lo (hi - lo)) s.

(** [for (int i = hi; i >= lo; i--) body] *)
Definition for_down {St : Type} (hi lo : Z) (body : Z → St → option St)
    (s : St) : option St :=
  forM body (reverse (seqZ lo (hi - lo + 1))) s.

(** [std::copy(src + from, src + from + n, dst + to)] *)
Definition copy (src : list Z) (from n : Z) (dst : list Z) (to : Z)
  : option (list Z) :=
  for_up 0 n (λ k dst, x ← load src (from + k); store dst (to + k) x) dst.

(** ** Parameters *)

(** The fields of [StereoParameters] that the matching code reads. *)
Record StereoParameters := {
  dispWidth : Z;
  dispHeight : Z;
  dispMax : Z;
  lambdaStep : Z;
  lambdaJump : Z;
  scale : Z;
  maxBias : Z
}.

(** Width of a row of the cost volume and of the tableaux:
    [bufferWidth] of [createBuffer]. *)
Definition bufferWidth (P : StereoParameters) : Z := dispWidth P * dispMax P.

(** ** Dynamic programming *)

(** [val = min(val, p[0] + lam)] where [val] is a reference to [tab[out]]
    and [p] points into the same tableau. *)
Definition min_assign (tab : list Z) (out p lam : Z) : option (list Z) :=
  v ← load tab out;
  x ← load tab p;
  y ← iadd x lam;
  store tab out (Z.min v y).

(** [val += error[e]] *)
Definition add_assign (err tab : list Z) (out e : Z) : option (list Z) :=
  v ← load tab out;
  c ← load err e;
  y ← iadd v c;
  store tab out y.

(** [val = min(val, bestCost + lambdaJump)] *)
Definition min_assign_best (tab : list Z) (out bestCost lam : Z)
  : option (list Z) :=
  v ← load tab out;
  y ← iadd bestCost lam;
  store tab out (Z.min v y).

(** The three blocks of [computeDynamicStep] that fill [outCost[0]],
    [outCost[i]] for [0 < i < dispMax - 1], and [outCost[dispMax - 1]]. *)
Definition stepFirst (P : StereoParameters) (err tab : list Z)
    (inCost error outCost bestCost : Z) : option (list Z) :=
  x ← load tab inCost;
  tab ← store tab outCost x;
  tab ← min_assign tab outCost (inCost + 1) (lambdaStep P);
  tab ← min_assign_best tab outCost bestCost (lambdaJump P);
  add_assign err tab outCost error.

Definition stepMiddle (P : StereoParameters) (err : list Z)
    (inCost error outCost bestCost : Z) (i : Z) (tab : list Z)
  : option (list Z) :=
  x ← load tab (inCost + i);
  tab ← store tab (outCost + i) x;
  tab ← min_assign tab (outCost + i) (inCost + (i + 1)) (lambdaStep P);
  tab ← min_assign tab (outCost + i) (inCost + (i - 1)) (lambdaStep P);
  tab ← min_assign_best tab (outCost + i) bestCost (lambdaJump P);
  add_assign err tab (outCost + i) (error + i).

Definition stepLast (P : StereoParameters) (err tab : list Z)
    (inCost error outCost bestCost : Z) : option (list Z) :=
  x ← load tab (inCost + (dispMax P - 1));
  tab ← store tab (outCost + (dispMax P - 1)) x;
  tab ← min_assign tab (outCost + (dispMax P - 1))
                       (inCost + (dispMax P - 2)) (lambdaStep P);
  tab ← min_assign_best tab (outCost + (dispMax P - 1)) bestCost
                            (lambdaJump P);
  add_assign err tab (outCost + (dispMax P - 1)) (error + (dispMax P - 1)).

(** [EnhancedStereo::computeDynamicStep].  Every call passes [inCost] and
    [outCost] pointing into one tableau, [tab]; [error] points into the
    cost volume [err]. *)
Definition computeDynamicStep (P : StereoParameters) (err tab : list Z)
    (inCost error outCost : Z) : option (list Z) :=
  b0 ← load tab inCost;
  bestCost ← for_up 1 (dispMax P)
     (λ i best, x ← load tab (inCost + i); Some (Z.min best x)) b0;
  tab ← stepFirst P err tab inCost error outCost bestCost;
  tab ← for_up 1 (dispMax P - 1)
              (stepMiddle P err inCost error outCost bestCost) tab;
  stepLast P err tab inCost error outCost bestCost.

(** The four sweeps of [EnhancedStereo::computeDynamicProgramming], each
    filling its own tableau from the cost volume [err]. *)
Definition sweepLeft (P : StereoParameters) (err tab : list Z)
  : option (list Z) :=
  for_up 0 (dispHeight P) (λ v tab,
    let row := v * bufferWidth P in
    tab ← copy err row (dispMax P) tab row;
    for_up 1 (dispWidth P) (λ u tab,
      computeDynamicStep P err tab
        (row + (u - 1) * dispMax P)
        (row + u * dispMax P)
        (row + u * dispMax P)) tab) tab.

Definition sweepRight (P : StereoParameters) (err tab : list Z)
  : option (list Z) :=
  for_up 0 (dispHeight P) (λ v tab,
    let row := v * bufferWidth P in
    let base := (dispWidth P - 1) * dispMax P in
    tab ← copy err (row + base) (dispMax P) tab (row + base);
    for_down (dispWidth P - 2) 0 (λ u tab,
      computeDynamicStep P err tab
        (row + (u + 1) * dispMax P)
        (row + u * dispMax P)
        (row + u * dispMax P)) tab) tab.

Definition sweepTop (P : StereoParameters) (err tab : list Z)
  : option (list Z) :=
  for_up 0 (dispWidth P) (λ u tab,
    let col := u * dispMax P in
    tab ← copy err col (dispMax P) tab col;
    for_up 1 (dispHeight P) (λ v tab,
      computeDynamicStep P err tab
        (col + (v - 1) * bufferWidth P)
        (col + v * bufferWidth P)
        (col + v * bufferWidth P)) tab) tab.

Definition sweepBottom (P : StereoParameters) (err tab : list Z)
  : option (list Z) :=
  for_up 0 (dispWidth P) (λ u tab,
    let col := u * dispMax P in
    let vLast := dispHeight P - 1 in
    tab ← copy err (col + vLast * bufferWidth P) (dispMax P)
               tab (col + vLast * bufferWidth P);
    for_down (dispHeight P - 2) 0 (λ v tab,
      computeDynamicStep P err tab
        (col + (v + 1) * bufferWidth P)
        (col + v * bufferWidth P)
        (col + v * bufferWidth P)) tab) tab.

(** The buffers of an [EnhancedStereo] that matching reads and writes. *)
Record Buffers := {
  errorBuffer : list Z;
  tableauLeft : list Z;
  tableauRight : list Z;
  tableauTop : list Z;
  tableauBottom : list Z;
  smallDisparity : list Z
}.

Definition computeDynamicProgramming (P : StereoParameters) (B : Buffers)
  : option Buffers :=
  tl ← sweepLeft P (errorBuffer B) (tableauLeft B);
  tr ← sweepRight P (errorBuffer B) (tableauRight B);
  tt ← sweepTop P (errorBuffer B) (tableauTop B);
  tb ← sweepBottom P (errorBuffer B) (tableauBottom B);
  Some {| errorBuffer := errorBuffer B;
          tableauLeft := tl; tableauRight := tr;
          tableauTop := tt; tableauBottom := tb;
          smallDisparity := smallDisparity B |}.

(** ** Fusion of the four tableaux *)

(** The fused score of [reconstructDisparity] for the entry at offset [p]:
    [dynRow1[p] + dynRow2[p] + dynRow3[p] + dynRow4[p] - 2*errRow[p]]. *)
Definition fusedScore (B : Buffers) (p : Z) : option Z :=
  a ← load (tableauLeft B) p;
  b ← load (tableauRight B) p;
  c ← load (tableauTop B) p;
  d ← load (tableauBottom B) p;
  e ← load (errorBuffer B) p;
  ab ← iadd a b;
  abc ← iadd ab c;
  abcd ← iadd abc d;
  e2 ← imul 2 e;
  isub abcd e2.

(** The state of the search over one pixel's disparities: [bestCost], and
    the two matrices that [bestDisp] and [bestErr] refer into. *)
Record Search := {
  bestCost : Z;
  dispMat : list Z;
  errFinalMat : list Z
}.

(** The body of the loop over [d] for the pixel stored at offset [px] of
    [smallDisparity], whose tableau entries start at offset [row + base]. *)
Definition reconstructStep (B : Buffers) (px row base : Z) (d : Z)
    (s : Search) : option Search :=
  acc ← fusedScore B (row + (base + d));
  if acc <? bestCost s then
    dm ← store (dispMat s) px (to_uint8 d);
    em ← store (errFinalMat s) px (to_int16 acc);
    Some {| bestCost := acc; dispMat := dm; errFinalMat := em |}
  else Some s.

(** The body of the loop over [u]. *)
Definition reconstructPixel (P : StereoParameters) (B : Buffers) (v u : Z)
    (m : list Z * list Z) : option (list Z * list Z) :=
  let px := v * dispWidth P + u in
  dm ← store m.1 px 0;
  s ← for_up 0 (dispMax P)
        (reconstructStep B px (v * bufferWidth P) (u * dispMax P))
        {| bestCost := 100000; dispMat := dm; errFinalMat := m.2 |};
  Some (dispMat s, errFinalMat s).

(** [EnhancedStereo::reconstructDisparity]: the new [smallDisparity] and the
    local [errFinalMat], which the function allocates (its initial content
    is never read) and drops on return. *)
Definition reconstructDisparity (P : StereoParameters) (B : Buffers)
  : option (list Z * list Z) :=
  for_up 0 (dispHeight P) (λ v m,
    for_up 0 (dispWidth P) (reconstructPixel P B v) m)
    (smallDisparity B, replicate (length (smallDisparity B)) 0).

(** What the search over the disparities of one pixel leaves in
    [smallDisparity], for the fused scores [f 0 .. f (D - 1)]: the first
    disparity of least score when some score is below the starting value of
    [bestCost], and 0 otherwise. *)
Definition selected (f : Z → Z) (D d0 : Z) : Prop :=
  ((∀ d, 0 ≤ d < D → 100000 ≤ f d) ∧ d0 = 0)
  ∨ (0 ≤ d0 < D ∧ f d0 < 100000
     ∧ (∀ d, 0 ≤ d < D → f d0 ≤ f d)
     ∧ (∀ d, 0 ≤ d < d0 → f d0 < f d)).

(** A cost volume whose every pixel has cost [255] at disparity 0 and [254]
    at disparity 1, on a working grid of one row of 400 pixels. *)
Definition wideParams : StereoParameters :=
  {| dispWidth := 400; dispHeight := 1; dispMax := 2;
     lambdaStep := 5; lambdaJump := 32; scale := 3; maxBias := 10 |}.

Definition wideCosts : list Z :=
  mjoin (replicate 400 [255; 254]).

Definition wideBuffers : Buffers :=
  {| errorBuffer := wideCosts;
     tableauLeft := replicate 800 0; tableauRight := replicate 800 0;
     tableauTop := replicate 800 0; tableauBottom := replicate 800 0;
     smallDisparity := replicate 400 0 |}.

(** The tableaux that the sweeps leave on [wideBuffers], and the disparity
    map that the fusion leaves on them, computed once. *)
Definition wideTableaux : Buffers :=
  Eval vm_compute in
    default wideBuffers (computeDynamicProgramming wideParams wideBuffers).

Definition wideDisparity : list Z * list Z :=
  Eval vm_compute in
    default ([], []) (reconstructDisparity wideParams wideTableaux).

(** ** The recurrence of a sweep, as the specification writes it *)

(** Reading a buffer as a function of the offset. *)
Definition get (m : list Z) (p : Z) : Z := default 0 (load m p).

(** Minimum of [f] over [0, n), for [1 <= n]. *)
Definition minOver (f : Z → Z) (n : Z) : Z :=
  foldl Z.min (f 0) (f <$> seqZ 1 (n - 1)).

(** The step penalties of the neighbours of [d] that exist. *)
Definition neighbours (D lamStep : Z) (prev : Z → Z) (d : Z) : list Z :=
  (if 0 <? d then [prev (d - 1) + lamStep] else []) ++
  (if d + 1 <? D then [prev (d + 1) + lamStep] else []).

(** [T[d] = cost[d] + min(T_prev[d], T_prev[d-1] + lambdaStep,
    T_prev[d+1] + lambdaStep, min_d' T_prev[d'] + lambdaJump)], a missing
    neighbour omitted. *)
Definition dpRecurrence (D lamStep lamJump : Z) (prev cost : Z → Z) (d : Z)
  : Z :=
  cost d + foldr Z.min (minOver prev D + lamJump)
                 (prev d :: neighbours D lamStep prev d).

(** ** The sweeps, line by line *)

(** Every sweep treats the tableau as [m] lines of [n] elements, element
    [k] of line [j] starting at offset [base j + k * stride]: it copies the
    costs of element 0 and steps from element [k - 1] to element [k]. *)
Definition scanLine (P : StereoParameters) (err : list Z) (base stride n : Z)
    (tab : list Z) : option (list Z) :=
  for_up 1 n (λ k tab,
    computeDynamicStep P err tab
      (base + (k - 1) * stride) (base + k * stride) (base + k * stride)) tab.

Definition sweepLines (P : StereoParameters) (err : list Z) (base : Z → Z)
    (stride m n : Z) (tab : list Z) : option (list Z) :=
  for_up 0 m (λ j tab,
    tab ← copy err (base j) (dispMax P) tab (base j);
    scanLine P err (base j) stride n tab) tab.

(** Offset of element [k] of line [j]. *)
Definition linePos (base : Z → Z) (stride : Z) (j k : Z) : Z :=
  base j + k * stride.

(** The largest change of a tableau entry from one element to the next. *)
Definition stepBound (P : StereoParameters) : Z :=
  255 + Z.abs (lambdaStep P) + Z.abs (lambdaJump P).

(** Element [k] of line [j] of the tableau [t] holds what a sweep leaves
    there: the costs for [k = 0], the recurrence over element [k - 1]
    otherwise; its entries are bounded by [(k + 1) * stepBound]. *)
Definition elemOK (P : StereoParameters) (err : list Z) (pos : Z → Z → Z)
    (t : list Z) (j k : Z) : Prop :=
  (∀ d, 0 ≤ d < dispMax P →
     - ((k + 1) * stepBound P) ≤ get t (pos j k + d) ≤ (k + 1) * stepBound P)
  ∧ (k = 0 → ∀ d, 0 ≤ d < dispMax P →
       get t (pos j 0 + d) = get err (pos j 0 + d))
  ∧ (1 ≤ k → ∀ d, 0 ≤ d < dispMax P →
       get t (pos j k + d)
       = dpRecurrence (dispMax P) (lambdaStep P) (lambdaJump P)
           (λ d', get t (pos j (k - 1) + d'))
           (λ d', get err (pos j k + d')) d).

(** [t'] agrees with [t] on the element at offset [a]. *)
Definition sameElem (D : Z) (t t' : list Z) (a : Z) : Prop :=
  ∀ d, 0 ≤ d < D → get t' (a + d) = get t (a + d).

(** The entry of a tableau, or of the cost volume, for row [v], column [u]
    and disparity [d]. *)
Definition entry (P : StereoParameters) (buf : list Z) (v u d : Z) : Z :=
  get buf (v * bufferWidth P + u * dispMax P + d).

(** What [createBuffer] and the cost kernels establish before the sweeps
    run: at least two disparities, a working grid that is not empty, a
    cost volume of bytes of the size of the grid, and penalties small
    enough for the tableaux to stay within [int]. *)
Definition wellFormed (P : StereoParameters) (err : list Z) : Prop :=
  2 ≤ dispMax P ∧ 1 ≤ dispWidth P ∧ 1 ≤ dispHeight P
  ∧ Z.of_nat (length err) = dispHeight P * bufferWidth P
  ∧ Forall (λ c, 0 ≤ c ≤ 255) err
  ∧ Z.max (dispWidth P) (dispHeight P) * stepBound P ≤ INT_MAX.

(** What a sweep leaves at pixel [(v, u)] when its scan reaches that pixel
    from pixel [(v', u')]; [first] tells the first pixel of a scan. *)
Definition sweptFrom (P : StereoParameters) (err t : list Z)
    (first : Prop) (v u v' u' : Z) : Prop :=
  ∀ d, 0 ≤ d < dispMax P →
    (first → entry P t v u d = entry P err v u d)
    ∧ (¬ first →
       entry P t v u d
       = dpRecurrence (dispMax P) (lambdaStep P) (lambdaJump P)
           (entry P t v' u') (entry P err v u) d).

(** The buffers as [createBuffer] leaves them: the four tableaux have the
    size of the cost volume (their content is left over from earlier
    calls). *)
Definition buffersReady (P : StereoParameters) (B : Buffers) : Prop :=
  wellFormed P (errorBuffer B)
  ∧ length (tableauLeft B) = length (errorBuffer B)
  ∧ length (tableauRight B) = length (errorBuffer B)
  ∧ length (tableauTop B) = length (errorBuffer B)
  ∧ length (tableauBottom B) = length (errorBuffer B).

(** The parameters [P] with another jump penalty. *)
Definition setLambdaJump (P : StereoParameters) (j : Z) : StereoParameters :=
  {| dispWidth := dispWidth P; dispHeight := dispHeight P;
     dispMax := dispMax P; lambdaStep := lambdaStep P; lambdaJump := j;
     scale := scale P; maxBias := maxBias P |}.

(** A working grid of two rows of three pixels with three disparities. *)
Definition smallParams : StereoParameters :=
  {| dispWidth := 3; dispHeight := 2; dispMax := 3;
     lambdaStep := 5; lambdaJump := 32; scale := 3; maxBias := 10 |}.

Definition smallBuffers : Buffers :=
  {| errorBuffer := [10; 200; 30;  90; 20; 70;  15; 60; 255;
                     0; 40; 80;  120; 5; 33;  250; 250; 1];
     tableauLeft := replicate 18 0; tableauRight := replicate 18 7;
     tableauTop := replicate 18 (-1); tableauBottom := replicate 18 0;
     smallDisparity := replicate 6 0 |}.

(** ** Floating-point data *)

(** The operations the code applies to a [double]. *)
Class Scalar (R : Type) := {
  sadd : R → R → R;
  ssub : R → R → R;
  smul : R → R → R;
  sdiv : R → R → R;
  sneg : R → R;
  sabs : R → R;
  ssqrt : R → R;
  (** [x < y] and [x == y] *)
  sltb : R → R → bool;
  seqb : R → R → bool;
  (** conversion of an [int] *)
  sofZ : Z → R;
  (** [round], half away from zero *)
  sround : R → R;
  (** conversion to [int]: truncation, undefined outside the range *)
  strunc : R → option Z
}.

Declare Scope scalar_scope.
Delimit Scope scalar_scope with sc.
Infix "+" := sadd : scalar_scope.
Infix "-" := ssub : scalar_scope.
Infix "*" := smul : scalar_scope.
Infix "/" := sdiv : scalar_scope.
Notation "- x" := (sneg x) : scalar_scope.

(** The decimal literal [m * 10 ^ e]. *)
Definition dec {R} `{Scalar R} (m e : Z) : R :=
  if e <? 0 then (sofZ m / sofZ (10 ^ (- e)))%sc else sofZ (m * 10 ^ e).

(** *** IEEE binary64 *)

Definition float_ofZ (z : Z) : float :=
  if z <? 0 then PrimFloat.opp (PrimFloat.of_uint63 (Uint63.of_Z (- z)))
  else PrimFloat.of_uint63 (Uint63.of_Z z).

(** The integer nearest to [m * 2 ^ e], halves up, and its integer part. *)
Definition nearest (m : positive) (e : Z) : Z :=
  if 0 <=? e then Zpos m * 2 ^ e
  else (2 * Zpos m + 2 ^ (- e)) / 2 ^ (- e + 1).

Definition integerPart (m : positive) (e : Z) : Z :=
  if 0 <=? e then Zpos m * 2 ^ e else Zpos m / 2 ^ (- e).

Definition float_round (x : float) : float :=
  match Prim2SF x with
  | S754_finite s m e =>
      if 0 <=? e then x
      else if s then PrimFloat.opp (float_ofZ (nearest m e))
           else float_ofZ (nearest m e)
  | _ => x
  end.

Definition float_trunc (x : float) : option Z :=
  match Prim2SF x with
  | S754_zero _ => Some 0
  | S754_finite s m e =>
      int_result (if s then - integerPart m e else integerPart m e)
  | _ => None
  end.

#[export] Instance Scalar_float : Scalar float := {|
  sadd := PrimFloat.add;
  ssub := PrimFloat.sub;
  smul := PrimFloat.mul;
  sdiv := PrimFloat.div;
  sneg := PrimFloat.opp;
  sabs := PrimFloat.abs;
  ssqrt := PrimFloat.sqrt;
  sltb := PrimFloat.ltb;
  seqb := PrimFloat.eqb;
  sofZ := float_ofZ;
  sround := float_round;
  strunc := float_trunc
|}.

(** A [double] that is neither infinite nor NaN. *)
Definition finite (x : float) : bool :=
  match Prim2SF x with
  | S754_zero _ | S754_finite _ _ _ => true
  | _ => false
  end.

(** A [double] that is not a NaN. *)
Definition number (x : float) : bool :=
  match Prim2SF x with
  | S754_nan => false
  | _ => true
  end.

(** ** Vectors and matrices *)

Section Geometry.
Context {R : Type} `{Scalar R}.
Local Open Scope scalar_scope.

Record Vector2d := V2 { v2x : R; v2y : R }.
Record Vector3d := V3 { v3x : R; v3y : R; v3z : R }.
Record Matrix3d := M3 { row0 : Vector3d; row1 : Vector3d; row2 : Vector3d }.

Definition zero3 : Vector3d := V3 (sofZ 0) (sofZ 0) (sofZ 0).

Definition add2 (a b : Vector2d) : Vector2d :=
  V2 (v2x a + v2x b) (v2y a + v2y b).
Definition scale2 (k : R) (a : Vector2d) : Vector2d :=
  V2 (k * v2x a) (k * v2y a).

(** [a != b] on vectors: some component differs. *)
Definition ne2 (a b : Vector2d) : bool :=
  negb (seqb (v2x a) (v2x b) && seqb (v2y a) (v2y b)).

Definition add3 (a b : Vector3d) : Vector3d :=
  V3 (v3x a + v3x b) (v3y a + v3y b) (v3z a + v3z b).
Definition sub3 (a b : Vector3d) : Vector3d :=
  V3 (v3x a - v3x b) (v3y a - v3y b) (v3z a - v3z b).
Definition neg3 (a : Vector3d) : Vector3d :=
  V3 (- v3x a) (- v3y a) (- v3z a).
(** [a * k] and [k * a] *)
Definition scale3 (a : Vector3d) (k : R) : Vector3d :=
  V3 (v3x a * k) (v3y a * k) (v3z a * k).
Definition lscale3 (k : R) (a : Vector3d) : Vector3d :=
  V3 (k * v3x a) (k * v3y a) (k * v3z a).
Definition div3 (a : Vector3d) (k : R) : Vector3d :=
  V3 (v3x a / k) (v3y a / k) (v3z a / k).

Definition dot (a b : Vector3d) : R :=
  v3x a * v3x b + v3y a * v3y b + v3z a * v3z b.
Definition cross (a b : Vector3d) : Vector3d :=
  V3 (v3y a * v3z b - v3z a * v3y b)
     (v3z a * v3x b - v3x a * v3z b)
     (v3x a * v3y b - v3y a * v3x b).
Definition norm (a : Vector3d) : R := ssqrt (dot a a).
Definition normalized (a : Vector3d) : Vector3d := div3 a (norm a).

Definition mulMV (m : Matrix3d) (a : Vector3d) : Vector3d :=
  V3 (dot (row0 m) a) (dot (row1 m) a) (dot (row2 m) a).
Definition identity3 : Matrix3d :=
  M3 (V3 (sofZ 1) (sofZ 0) (sofZ 0))
     (V3 (sofZ 0) (sofZ 1) (sofZ 0))
     (V3 (sofZ 0) (sofZ 0) (sofZ 1)).
(** [a * b.transpose()] *)
Definition outer (a b : Vector3d) : Matrix3d :=
  M3 (lscale3 (v3x a) b) (lscale3 (v3y a) b) (lscale3 (v3z a) b).
Definition subM (m n : Matrix3d) : Matrix3d :=
  M3 (sub3 (row0 m) (row0 n)) (sub3 (row1 m) (row1 n))
     (sub3 (row2 m) (row2 n)).

(** ** Cameras, poses and curves *)

(** [ICamera]: the two maps every camera model implements, each with its
    success flag and the value it leaves in [dst], and its parameters. *)
Record ICamera := {
  camParams : list R;
  reconstructPoint : Vector2d → bool * Vector3d;
  projectPoint : Vector3d → bool * Vector2d
}.

(** [Pinhole], with parameters [u0], [v0] and [f]. *)
Definition Pinhole (u0 v0 f : R) : ICamera :=
  {| camParams := [u0; v0; f];
     reconstructPoint := λ src,
       (true, V3 ((v2x src - u0) / f) ((v2y src - v0) / f) (sofZ 1));
     projectPoint := λ src,
       if sltb (v3z src) (dec 1 (-2))
       then (false, V2 (- sofZ 1) (- sofZ 1))
       else (true, V2 (v3x src * f / v3z src + u0)
                      (v3y src * f / v3z src + v0)) |}.

(** What the accessors of a [Transformation<double>] return. *)
Record Transformation := {
  trans : Vector3d;
  rotMat : Matrix3d;
  rotMatInv : Matrix3d
}.

(** [Polynomial2]: the curve
    [kuu*u*u + kuv*u*v + kvv*v*v + ku*u + kv*v + k1 = 0]. *)
Record Polynomial2 := {
  kuu : R; kuv : R; kvv : R; ku : R; kv : R; k1 : R
}.

(** The terms of a curve without [k1], at a point, summed as the
    constructor of [EnhancedEpipolar] sums them at the epipole. *)
Definition quadraticPart (surf : Polynomial2) (p : Vector2d) : R :=
  kuu surf * v2x p * v2x p + kuv surf * v2x p * v2y p
  + kvv surf * v2y p * v2y p + ku surf * v2x p + kv surf * v2y p.

(** Modelled from the spec: the value of a curve at a point,
    [kuu·u² + kuv·uv + kvv·v² + ku·u + kv·v + k1]; the header that defines
    [Polynomial2] is not among the sources. *)
Definition evalCurve (surf : Polynomial2) (p : Vector2d) : R :=
  quadraticPart surf p + k1 surf.

(** ** EnhancedEpipolar *)

Record EnhancedEpipolar := {
  nSteps : Z;
  step : R;
  epipole : Vector2d;
  xBase : Vector3d;
  yBase : Vector3d;
  zBase : Vector3d;
  epipolarVec : list Polynomial2
}.

(** The direction of bin [idx]: the tangent part, then the cotangent
    part. *)
Definition binDirection (step : R) (numberSteps : Z) (xBase yBase : Vector3d)
    (idx : Z) : Vector3d :=
  if idx <? numberSteps ÷ 2 then
    let s := step * sofZ idx - sofZ 1 in
    add3 xBase (lscale3 s yBase)
  else
    let c := step * sofZ (- idx + numberSteps ÷ 2) + sofZ 1 in
    add3 (lscale3 c xBase) yBase.

(** The curve of the epipolar plane with normal [plane], for the camera
    with intrinsics [alpha], [beta], [fu], [fv], [u0], [v0]: the body of the
    constructor's loop from [plane] on. *)
Definition planeCurve (alpha beta fu fv u0 v0 : R) (epipole : Vector2d)
    (plane : Vector3d) : Polynomial2 :=
  let gamma := sofZ 1 - alpha in
  let ag := alpha - gamma in
  let a2b := alpha * alpha * beta in
  let fufv := fu * fv in
  let fufu := fu * fu in
  let fvfv := fv * fv in
  let A := v3x plane in
  let B := v3y plane in
  let C := v3z plane in
  let AA := A * A in
  let BB := B * B in
  let CC := C * C in
  let CCfufv := CC * fufv in
  if sltb (CCfufv / (AA + BB)) (dec 5 (-1)) then
    {| kuu := sofZ 0; kuv := sofZ 0; kvv := sofZ 0;
       ku := A / fu;
       kv := B / fv;
       k1 := - u0 * A / fu - v0 * B / fv |}
  else
    let kuu := (AA * ag + CC * a2b) / (CC * fufu) in
    let kuv := sofZ 2 * A * B * ag / CCfufv in
    let kvv := (BB * ag + CC * a2b) / (CC * fvfv) in
    let ku := sofZ 2 * (- (AA * fv * u0 + A * B * fu * v0) * ag
                        - A * C * fufv * gamma - CC * a2b * fv * u0)
              / (CCfufv * fu) in
    let kv := sofZ 2 * (- (BB * fu * v0 + A * B * fv * u0) * ag
                        - B * C * fufv * gamma - CC * a2b * fu * v0)
              / (CCfufv * fv) in
    {| kuu := kuu; kuv := kuv; kvv := kvv; ku := ku; kv := kv;
       k1 := - (kuu * v2x epipole * v2x epipole
                + kuv * v2x epipole * v2y epipole
                + kvv * v2y epipole * v2y epipole
                + ku * v2x epipole + kv * v2y epipole) |}.

(** The constructor [EnhancedEpipolar::EnhancedEpipolar], given the pose
    and the second camera as built from [params2].  It fails where the
    C++ does: on the assertion that [numberSteps] is even, on a parameter
    vector shorter than six, and on [front()] of an empty table. *)
Definition newEnhancedEpipolar (T12 : Transformation) (cam2 : ICamera)
    (numberSteps : Z) : option EnhancedEpipolar :=
  if negb (Z.rem numberSteps 2 =? 0) then None else
  let step := sofZ 4 / sofZ numberSteps in
  let zBase := neg3 (normalized (trans T12)) in
  let xBase0 :=
    if sltb (v3x zBase * v3x zBase + v3y zBase * v3y zBase)
            (v3z zBase * v3z zBase)
    then V3 (sofZ 1) (sofZ 0) (sofZ 0)
    else V3 (sofZ 0) (sofZ 0) (sofZ 1) in
  let orthProjector := subM identity3 (outer zBase zBase) in
  let xBase := normalized (mulMV orthProjector xBase0) in
  let yBase := cross zBase xBase in
  let R21 := rotMatInv T12 in
  let t21n := mulMV R21 zBase in
  alpha ← camParams cam2 !! 0%nat;
  beta ← camParams cam2 !! 1%nat;
  fu ← camParams cam2 !! 2%nat;
  fv ← camParams cam2 !! 3%nat;
  u0 ← camParams cam2 !! 4%nat;
  v0 ← camParams cam2 !! 5%nat;
  let epipole := (projectPoint cam2 t21n).2 in
  let curves :=
    (λ idx,
       let X := mulMV R21 (binDirection step numberSteps xBase yBase idx) in
       planeCurve alpha beta fu fv u0 v0 epipole (cross X t21n))
    <$> seqZ 0 numberSteps in
  front ← head curves;
  Some {| nSteps := numberSteps; step := step; epipole := epipole;
          xBase := xBase; yBase := yBase; zBase := zBase;
          epipolarVec := curves ++ [front] |}.


(** [EnhancedEpipolar::index] *)
Definition index (E : EnhancedEpipolar) (X : Vector3d) : option Z :=
  let c := dot X (xBase E) in
  let ac := sabs c in
  let s := dot X (yBase E) in
  let as_ := sabs s in
  if sltb (ac + as_) (dec 1 (-4)) then Some 0
  else if sltb as_ ac then strunc (sround ((s / c + sofZ 1) / step E))
  else strunc (sround ((sofZ 1 - c / s) / step E) + sofZ (nSteps E ÷ 2)).

(** [EnhancedEpipolar::getCurve(int)] and [getCurve(Vector3d)] *)
Definition getCurve (E : EnhancedEpipolar) (idx : Z) : option Polynomial2 :=
  if 0 <=? idx then epipolarVec E !! Z.to_nat idx else None.

Definition getCurveOf (E : EnhancedEpipolar) (X : Vector3d)
  : option Polynomial2 :=
  idx ← index E X; getCurve E idx.

End Geometry.

Arguments Vector2d R : clear implicits.
Arguments Vector3d R : clear implicits.
Arguments Matrix3d R : clear implicits.
Arguments ICamera R : clear implicits.
Arguments Transformation R : clear implicits.
Arguments Polynomial2 R : clear implicits.
Arguments EnhancedEpipolar R : clear implicits.

(** A pose with a baseline along the first axis and no rotation, and a
    camera with six parameters and the maps of a pinhole camera (the
    header of [EnhancedCamera] is not among the sources). *)
Definition sidePose {R} `{Scalar R} : Transformation R :=
  {| trans := V3 (sofZ 1) (sofZ 0) (sofZ 0);
     rotMat := identity3; rotMatInv := identity3 |}.

Definition sixParamCamera {R} `{Scalar R} : ICamera R :=
  {| camParams := [dec 5 (-1); sofZ 1; sofZ 250; sofZ 250;
                   sofZ 320; sofZ 240];
     reconstructPoint := reconstructPoint (Pinhole (sofZ 320) (sofZ 240)
                                                   (sofZ 250));
     projectPoint := projectPoint (Pinhole (sofZ 320) (sofZ 240)
                                           (sofZ 250)) |}.

Definition sideEpipolar : EnhancedEpipolar float :=
  Eval vm_compute in
    default {| nSteps := 0; step := 0%float; epipole := V2 0%float 0%float;
               xBase := zero3; yBase := zero3; zBase := zero3;
               epipolarVec := [] |}
            (newEnhancedEpipolar sidePose sixParamCamera 8).

(** ** EnhancedStereo *)

(** [Mat8u], an 8-bit image. *)
Record Mat8u := {
  rows : Z;
  cols : Z;
  data : list Z
}.

(** The part of [CurveRasterizer<int, Polynomial2>] that the stereo code
    calls: the constructor from a start pixel, a goal pixel and a curve, the
    current pixel, [step()] and [steps(n)].  The header that defines it is
    not among the sources. *)
Class CurveRasterizer (R Ras : Type) := {
  newRaster : Z * Z → Z * Z → Polynomial2 R → Ras;
  rasterX : Ras → Z;
  rasterY : Ras → Z;
  rasterStep : Ras → Ras;
  rasterSteps : Ras → Z → Ras
}.

(** The members of an [EnhancedStereo] that matching and reconstruction
    read; [maxDistance] is [params.maxDistance]. *)
Record EnhancedStereo {R : Type} := {
  Transform12 : Transformation R;
  cam1 : ICamera R;
  cam2 : ICamera R;
  epipolar : EnhancedEpipolar R;
  params : StereoParameters;
  maxDistance : R;
  pointVec1 : list (Vector2d R);
  reconstVec : list (Vector3d R);
  epipolarDirectionVec : list (Vector2d R);
  pinfPxVec : list (Z * Z);
  epipolePx : Z * Z
}.
Arguments EnhancedStereo R : clear implicits.

(** [int / int] and [abs(int)] and [-int], undefined where C++ leaves them
    undefined. *)
Definition idiv (a b : Z) : option Z :=
  if b =? 0 then None else int_result (a ÷ b).
Definition iabs (a : Z) : option Z := int_result (Z.abs a).
Definition ineg (a : Z) : option Z := int_result (- a).

(** [v[i]] on a [std::vector]. *)
Definition at_ {A} (v : list A) (i : Z) : option A :=
  if 0 <=? i then v !! Z.to_nat i else None.

(** [std::accumulate(first, last, 0)] over [int]. *)
Definition accumulate (l : list Z) : option Z :=
  foldl (λ acc x, a ← acc; iadd a x) (Some 0) l.

(** The index of pixel [(u, v)] of the working grid in the vectors that
    [computeReconstructed] fills row by row. *)
Definition getLinearIndex (P : StereoParameters) (u v : Z) : Z :=
  u + v * dispWidth P.

(** The weights of the curve-patch kernel: [weightVec] for a given
    [HALF_LENGTH] and [LENGTH]. *)
Definition weights (HALF_LENGTH LENGTH : Z) : option (list Z) :=
  w ← store (replicate (Z.to_nat LENGTH) 0) HALF_LENGTH (HALF_LENGTH + 1);
  for_up 0 HALF_LENGTH (λ i w,
    w ← store w i (i + 1);
    store w (LENGTH - i - 1) (i + 1)) w.

(** The body of the loop over [d] of [computeCurveCost] up to the store:
    the cost of disparity [d], an [int]. *)
Definition patchCost (maxBias LENGTH normalizer sum1 : Z)
    (descriptor sampleVec weightVec : list Z) (d : Z) : option Z :=
  sum2 ← accumulate (take (Z.to_nat LENGTH) (drop (Z.to_nat d) sampleVec));
  diff ← isub sum2 sum1;
  q ← idiv diff LENGTH;
  nb ← ineg maxBias;
  let bias := Z.min maxBias (Z.max nb q) in
  acc ← for_up 0 LENGTH (λ i acc,
    a ← at_ descriptor i;
    b ← at_ sampleVec (d + i);
    w ← at_ weightVec i;
    x ← isub a b;
    y ← iadd x bias;
    z ← iabs y;
    t ← imul z w;
    iadd acc t) 0;
  idiv acc normalizer.

Section Stereo.
Context {R Ras : Type} `{Scalar R} `{CurveRasterizer R Ras}.
(** [bilinear(img, x, y)], whose header is not among the sources. *)
Context (bilinear : Mat8u → R → R → Z).

(** [EnhancedStereo::getCurveRasteriser] *)
Definition getCurveRasteriser (st : EnhancedStereo R) (idx : Z) : option Ras :=
  pinfPx ← at_ (pinfPxVec st) idx;
  X ← at_ (reconstVec st) idx;
  curve ← getCurveOf (epipolar st) X;
  Some (newRaster pinfPx (epipolePx st) curve).

(** The determinant of [triangulate] for the two rays, both in the frame
    of the first camera: [-v1v1 * v2v2 + v1v2 * v1v2]. *)
Definition triangulationDelta (v1 v2 : Vector3d R) : R :=
  (- dot v1 v1 * dot v2 v2 + dot v1 v2 * dot v1 v2)%sc.

(** The parameters of the two closest points of the rays [l * v1] and
    [t + l * v2], and the point half way between them:
    [(v1*l1 + t + v2*l2) * 0.5]. *)
Definition closestParams (t v1 v2 : Vector3d R) : R * R :=
  let delta := triangulationDelta v1 v2 in
  (((- dot t v1 * dot v2 v2 + dot t v2 * dot v1 v2) / delta)%sc,
   ((dot t v2 * dot v1 v1 - dot t v1 * dot v1 v2) / delta)%sc).

Definition closestMidpoint (t v1 v2 : Vector3d R) : Vector3d R :=
  let (l1, l2) := closestParams t v1 v2 in
  scale3 (add3 (add3 (scale3 v1 l1) t) (scale3 v2 l2)) (dec 5 (-1)).

(** [EnhancedStereo::triangulate]: the flag it returns and the point it
    leaves in [X]. *)
Definition triangulate (st : EnhancedStereo R) (x1 y1 x2 y2 : R)
  : bool * Vector3d R :=
  let (ok1, v1) := reconstructPoint (cam1 st) (V2 x1 y1) in
  if negb ok1 then (false, V3 (sofZ 0) (sofZ 0) (sofZ 0)) else
  let (ok2, v2) := reconstructPoint (cam2 st) (V2 x2 y2) in
  if negb ok2 then (false, V3 (sofZ 0) (sofZ 0) (sofZ 0)) else
  let t := trans (Transform12 st) in
  let v2 := mulMV (rotMat (Transform12 st)) v2 in
  let v1v2 := dot v1 v2 in
  let v1v1 := dot v1 v1 in
  let v2v2 := dot v2 v2 in
  let tv1 := dot t v1 in
  let tv2 := dot t v2 in
  let delta := (- v1v1 * v2v2 + v1v2 * v1v2)%sc in
  if sltb (sabs delta) (dec 1 (-10))
  then (false, V3 (sofZ 0) (sofZ 0) (sofZ 0))
  else
    let l1 := ((- tv1 * v2v2 + tv2 * v1v2) / delta)%sc in
    let l2 := ((tv2 * v1v1 - tv1 * v1v2) / delta)%sc in
    (true, scale3 (add3 (add3 (scale3 v1 l1) t) (scale3 v2 l2)) (dec 5 (-1))).

(** [EnhancedStereo::computeDistance(int u, int v)], reading the disparity
    map [smallDisparity]. *)
Definition computeDistance (st : EnhancedStereo R) (smallDisparity : list Z)
    (u v : Z) : option R :=
  let idx := getLinearIndex (params st) u v in
  disparity ← load smallDisparity (v * dispWidth (params st) + u);
  if disparity <=? 0 then Some (maxDistance st) else
  raster ← getCurveRasteriser st idx;
  let raster := rasterSteps raster disparity in
  pt1 ← at_ (pointVec1 st) idx;
  let (ok, X) := triangulate st (v2x pt1) (v2y pt1)
                   (sofZ (rasterX raster)) (sofZ (rasterY raster)) in
  if ok then Some (norm X) else Some (sofZ 0).

(** The descriptor of [computeCurveCost]: the first image sampled along
    the epipolar direction [dir] around [pt]. *)
Definition descriptorAt (img1 : Mat8u) (HALF_LENGTH LENGTH : Z)
    (pt dir : Vector2d R) : list Z :=
  (λ i, let shifted := add2 pt (scale2 (sofZ i) dir) in
        to_uint8 (bilinear img1 (v2x shifted) (v2y shifted)))
  <$> seqZ (- HALF_LENGTH) LENGTH.

(** The samples of [computeCurveCost]: the second image read at [n] pixels
    that the rasterizer visits, zero outside the image. *)
Definition sampleAlong (img2 : Mat8u) (n : Z) (raster : Ras)
  : option (Ras * list Z) :=
  for_up 0 n (λ i (s : Ras * list Z),
    let (raster, sampleVec) := s in
    px ← (if (rasterY raster <? 0) || (rows img2 <=? rasterY raster)
             || (rasterX raster <? 0) || (cols img2 <=? rasterX raster)
          then Some 0
          else load (data img2) (rasterY raster * cols img2 + rasterX raster));
    sampleVec ← store sampleVec i px;
    Some (rasterStep raster, sampleVec))
    (raster, replicate (Z.to_nat n) 0).

(** The body of the loops over [v] and [u] of [computeCurveCost]. *)
Definition curveCostPixel (st : EnhancedStereo R) (img1 img2 : Mat8u)
    (HALF_LENGTH LENGTH normalizer : Z) (weightVec : list Z) (v u : Z)
    (err : list Z) : option (list Z) :=
  let P := params st in
  let idx := getLinearIndex P u v in
  let out := v * bufferWidth P + u * dispMax P in
  pt ← at_ (pointVec1 st) idx;
  dir ← at_ (epipolarDirectionVec st) idx;
  if ne2 dir dir then
    for_up 0 (dispMax P) (λ d err, store err (out + d) 0) err
  else
    let descriptor := descriptorAt img1 HALF_LENGTH LENGTH pt dir in
    raster ← getCurveRasteriser st idx;
    let raster := rasterSteps raster (- HALF_LENGTH) in
    n0 ← iadd (dispMax P) LENGTH;
    n ← isub n0 1;
    s ← sampleAlong img2 n raster;
    let sampleVec := s.2 in
    sum1 ← accumulate descriptor;
    for_up 0 (dispMax P) (λ d err,
      c ← patchCost (maxBias P) LENGTH normalizer sum1
                    descriptor sampleVec weightVec d;
      store err (out + d) (to_uint8 c)) err.

(** [EnhancedStereo::computeCurveCost]: the cost volume it leaves in
    [errorBuffer]. *)
Definition computeCurveCost (st : EnhancedStereo R) (img1 img2 : Mat8u)
    (errorBuffer : list Z) : option (list Z) :=
  let P := params st in
  h ← isub (scale P) 1;
  let HALF_LENGTH := Z.max h 1 in
  l2 ← imul HALF_LENGTH 2;
  LENGTH ← iadd l2 1;
  weightVec ← weights HALF_LENGTH LENGTH;
  normalizer ← accumulate weightVec;
  for_up 0 (dispHeight P) (λ v err,
    for_up 0 (dispWidth P) (λ u err,
      curveCostPixel st img1 img2 HALF_LENGTH LENGTH normalizer weightVec
                     v u err) err) errorBuffer.

(** What the cost kernel relies on: a patch scale and a disparity range
    for which its sums stay within [int], a bias clamp that is not
    negative, a cost volume of the size of the working grid, a point and a
    direction for every pixel of the grid, and a rasterizer for every pixel
    whose direction is defined. *)
Definition costReady (st : EnhancedStereo R) (err : list Z) : Prop :=
  let P := params st in
  0 ≤ scale P ≤ 1000
  ∧ 0 ≤ maxBias P ≤ INT_MAX
  ∧ 0 ≤ dispMax P ∧ dispMax P + 2001 ≤ INT_MAX
  ∧ 0 ≤ dispWidth P ∧ 0 ≤ dispHeight P
  ∧ Z.of_nat (length err) = dispHeight P * bufferWidth P
  ∧ dispHeight P * dispWidth P ≤ Z.of_nat (length (pointVec1 st))
  ∧ dispHeight P * dispWidth P ≤ Z.of_nat (length (epipolarDirectionVec st))
  ∧ ∀ u v dir, 0 ≤ v < dispHeight P → 0 ≤ u < dispWidth P →
      at_ (epipolarDirectionVec st) (getLinearIndex P u v) = Some dir →
      ne2 dir dir = false →
      is_Some (getCurveRasteriser st (getLinearIndex P u v)).

(** What the cost kernel leaves at pixel [(u, v)]: bytes, and zeros when
    the epipolar direction of the pixel is not a number. *)
Definition pixelDone (st : EnhancedStereo R) (err : list Z) (v u : Z) : Prop :=
  ∀ d, 0 ≤ d < dispMax (params st) →
    0 ≤ entry (params st) err v u d ≤ 255
    ∧ ∀ dir,
        at_ (epipolarDirectionVec st) (getLinearIndex (params st) u v)
        = Some dir →
        ne2 dir dir = true →
        entry (params st) err v u d = 0.

End Stereo.

(** An image whose buffer has the size of its rows and columns and holds
    bytes. *)
Definition imageOK (img : Mat8u) : Prop :=
  0 ≤ rows img ∧ 0 ≤ cols img
  ∧ Z.of_nat (length (data img)) = rows img * cols img
  ∧ Forall (λ c, 0 ≤ c ≤ 255) (data img).

(** The weighted mean of absolute differences that the curve-patch kernel
    is to store for a descriptor, a window of samples and a bias, as the
    specification writes it. *)
Definition weightedSAD (descriptor window weightVec : list Z) (bias : Z) : Z :=
  foldr Z.add 0
    (zip_with Z.mul
       (zip_with (λ a b, Z.abs (a - b + bias)) descriptor window) weightVec)
  ÷ foldr Z.add 0 weightVec.

(** A descriptor and a window of samples of five pixels, for [scale = 3]
    and [maxBias = 10]. *)
Definition stripeDescriptor : list Z := [0; 0; 255; 255; 0].
Definition stripeSamples : list Z := [255; 255; 0; 0; 255].

(** ** CurveRasterizer *)

Section Raster.
Context {R : Type} `{Scalar R}.

(** Modelled from the spec: the state of a curve rasterizer, "current pixel
    (x,y), the curve, and a target (or prior) anchor"; [rasBack] tells that
    it is rewinding, away from the anchor.  The header that defines
    [CurveRasterizer] is not among the sources. *)
Record Raster := {
  rasX : Z;
  rasY : Z;
  rasCurve : Polynomial2 R;
  rasGoal : Z * Z;
  rasBack : bool
}.

Definition neighbours8 (x y : Z) : list (Z * Z) :=
  [(x + 1, y); (x + 1, y + 1); (x, y + 1); (x - 1, y + 1);
   (x - 1, y); (x - 1, y - 1); (x, y - 1); (x + 1, y - 1)].

Definition dist2 (p q : Z * Z) : Z :=
  (p.1 - q.1) * (p.1 - q.1) + (p.2 - q.2) * (p.2 - q.2).

(** The magnitude of the curve at a pixel. *)
Definition curveAbs (surf : Polynomial2 R) (p : Z * Z) : R :=
  sabs (evalCurve surf (V2 (sofZ p.1) (sofZ p.2))).

(** The neighbours of the current pixel on the side the rasterizer walks
    to: nearer to the anchor, or farther from it when rewinding. *)
Definition ahead (r : Raster) : list (Z * Z) :=
  let here := (rasX r, rasY r) in
  List.filter (λ p, if rasBack r
                    then dist2 here (rasGoal r) <? dist2 p (rasGoal r)
                    else dist2 p (rasGoal r) <? dist2 here (rasGoal r))
              (neighbours8 (rasX r) (rasY r)).

(** The first pixel of a list at which the curve is closest to zero. *)
Definition closest (surf : Polynomial2 R) (p : Z * Z) (l : list (Z * Z))
  : Z * Z :=
  foldl (λ best q, if sltb (curveAbs surf q) (curveAbs surf best)
                   then q else best) p l.

(** Modelled from the spec: [step()] "advances by exactly one pixel along
    the curve toward the target, choosing the 4- or 8-connected neighbor
    that keeps the implicit curve value closest to zero".  With no
    neighbour ahead the rasterizer stays. *)
Definition rasStep (r : Raster) : Raster :=
  match ahead r with
  | [] => r
  | p :: l =>
      let q := closest (rasCurve r) p l in
      {| rasX := q.1; rasY := q.2; rasCurve := rasCurve r;
         rasGoal := rasGoal r; rasBack := rasBack r |}
  end.

(** The rasterizer turned to the other side. *)
Definition turned (r : Raster) : Raster :=
  {| rasX := rasX r; rasY := rasY r; rasCurve := rasCurve r;
     rasGoal := rasGoal r; rasBack := negb (rasBack r) |}.

(** [k] pixels in one call: a loop that counts them. *)
Definition rasWalk (r : Raster) (k : Z) : Raster :=
  foldl (λ r _, rasStep r) r (seqZ 0 k).

(** Modelled from the spec: [steps(n)] "advances (or rewinds, for negative
    n) n pixels in one call". *)
Definition rasSteps (r : Raster) (n : Z) : Raster :=
  if n <? 0 then turned (rasWalk (turned r) (- n)) else rasWalk r n.

#[export] Instance Raster_ops : CurveRasterizer R Raster := {|
  newRaster := λ start goal curve,
    {| rasX := start.1; rasY := start.2; rasCurve := curve;
       rasGoal := goal; rasBack := false |};
  rasterX := rasX;
  rasterY := rasY;
  rasterStep := rasStep;
  rasterSteps := rasSteps
|}.

End Raster.
Arguments Raster R : clear implicits.

(** ** An instance *)

(** A stand-in for [bilinear]: the image at the pixel that holds the
    point, zero outside the image. *)
Definition nearestSample (img : Mat8u) (x y : float) : Z :=
  match float_trunc x, float_trunc y with
  | Some u, Some v =>
      if (0 <=? u) && (u <? cols img) && (0 <=? v) && (v <? rows img)
      then get (data img) (v * cols img + u) else 0
  | _, _ => 0
  end.

(** A working grid of one row of two pixels with two disparities; the
    epipolar direction of the first pixel is not a number. *)
Definition pairParams : StereoParameters :=
  {| dispWidth := 2; dispHeight := 1; dispMax := 2;
     lambdaStep := 5; lambdaJump := 32; scale := 3; maxBias := 10 |}.

Definition pairStereo : EnhancedStereo float :=
  {| Transform12 := sidePose;
     cam1 := sixParamCamera;
     cam2 := sixParamCamera;
     epipolar := sideEpipolar;
     params := pairParams;
     maxDistance := 100%float;
     pointVec1 := [V2 320 240; V2 323 240]%float;
     reconstVec := [V3 0 0 1; V3 0.012 0 1]%float;
     epipolarDirectionVec := [V2 nan nan; V2 1 0]%float;
     pinfPxVec := [(320, 240); (323, 240)];
     epipolePx := (-1, -1) |}.

Definition pairImage : Mat8u :=
  {| rows := 2; cols := 3; data := [10; 20; 30; 40; 50; 60] |}.

(** ** Point clouds *)

(** [v.resize(n)] on a [std::vector]: the first [n] elements, completed
    with [fill]. *)
Definition resize {A} (n : nat) (fill : A) (v : list A) : list A :=
  take n v ++ replicate (n - length v) fill.

(** [v[i] = x] on a [std::vector]. *)
Definition set_at {A} (v : list A) (i : Z) (x : A) : option (list A) :=
  if (0 <=? i) && (i <? Z.of_nat (length v))
  then Some (<[Z.to_nat i := x]> v) else None.

Section Clouds.
Context {R : Type} `{Scalar R}.

(** The loop shared by [reconstructPointCloud] and [projectPointCloud]:
    [dst.resize(src.size())], then [res &= f(src[i], dst[i])] for every
    index. *)
Definition cloudLoop {A B} (f : A → bool * B) (fill : B) (src : list A)
    (dst : list B) : option (bool * list B) :=
  for_up 0 (Z.of_nat (length src)) (λ i (s : bool * list B),
    p ← at_ src i;
    let (ok, q) := f p in
    dst ← set_at s.2 i q;
    Some (s.1 && ok, dst))
    (true, resize (length src) fill dst).

(** [ICamera::reconstructPointCloud] and [ICamera::projectPointCloud]: the
    flag they return and the vector they leave in [dst]. *)
Definition reconstructPointCloud (cam : ICamera R) (src : list (Vector2d R))
    (dst : list (Vector3d R)) : option (bool * list (Vector3d R)) :=
  cloudLoop (reconstructPoint cam) zero3 src dst.

Definition projectPointCloud (cam : ICamera R) (src : list (Vector3d R))
    (dst : list (Vector2d R)) : option (bool * list (Vector2d R)) :=
  cloudLoop (projectPoint cam) (V2 (sofZ 0) (sofZ 0)) src dst.

End Clouds.

(** ** Straight paths through the cost volume *)

(** The sum of the raw costs at disparity [d] of pixel [(v, u)] and of the
    [n] pixels before it on a scan that moves by [(dv, du)] from one pixel
    to the next: the cost of reaching the pixel without ever changing the
    disparity. *)
Fixpoint costAlong (P : StereoParameters) (err : list Z) (dv du : Z)
    (n : nat) (v u d : Z) : Z :=
  match n with
  | O => entry P err v u d
  | S n => entry P err v u d + costAlong P err dv du n (v - dv) (u - du) d
  end.

(** ** The matching pipeline *)

(** The fused score of pixel [(v, u)] at disparity [d], on the entries of
    the four tableaux and of the cost volume. *)
Definition fused (P : StereoParameters) (B : Buffers) (v u d : Z) : Z :=
  entry P (tableauLeft B) v u d + entry P (tableauRight B) v u d
  + entry P (tableauTop B) v u d + entry P (tableauBottom B) v u d
  - 2 * entry P (errorBuffer B) v u d.

(** The buffers [B] with another cost volume, and with another disparity
    map. *)
Definition setErrorBuffer (B : Buffers) (err : list Z) : Buffers :=
  {| errorBuffer := err;
     tableauLeft := tableauLeft B; tableauRight := tableauRight B;
     tableauTop := tableauTop B; tableauBottom := tableauBottom B;
     smallDisparity := smallDisparity B |}.

Definition setSmallDisparity (B : Buffers) (disp : list Z) : Buffers :=
  {| errorBuffer := errorBuffer B;
     tableauLeft := tableauLeft B; tableauRight := tableauRight B;
     tableauTop := tableauTop B; tableauBottom := tableauBottom B;
     smallDisparity := disp |}.

Section Pipeline.
Context {R Ras : Type} `{Scalar R} `{CurveRasterizer R Ras}.
Context (bilinear : Mat8u → R → R → Z).

(** [EnhancedStereo::comuteStereo(img1, img2, disparityMat)]: the buffers
    it leaves and the content of [disparityMat], a copy of
    [smallDisparity]. *)
Definition comuteStereo (st : EnhancedStereo R) (img1 img2 : Mat8u)
    (B : Buffers) : option (Buffers * list Z) :=
  err ← computeCurveCost bilinear st img1 img2 (errorBuffer B);
  B ← computeDynamicProgramming (params st) (setErrorBuffer B err);
  r ← reconstructDisparity (params st) B;
  let B := setSmallDisparity B r.1 in
  Some (B, smallDisparity B).

(** What [comuteStereo] relies on: what the cost kernel relies on, between
    2 and 256 disparities, a working grid that is not empty, buffers of the
    size of the grid, and penalties small enough for the sum of four
    tableau entries to stay within [int]. *)
Definition stereoReady (st : EnhancedStereo R) (B : Buffers) : Prop :=
  let P := params st in
  costReady st (errorBuffer B)
  ∧ 2 ≤ dispMax P ≤ 256 ∧ 1 ≤ dispWidth P ∧ 1 ≤ dispHeight P
  ∧ length (tableauLeft B) = length (errorBuffer B)
  ∧ length (tableauRight B) = length (errorBuffer B)
  ∧ length (tableauTop B) = length (errorBuffer B)
  ∧ length (tableauBottom B) = length (errorBuffer B)
  ∧ Z.of_nat (length (smallDisparity B)) = dispHeight P * dispWidth P
  ∧ 4 * (Z.max (dispWidth P) (dispHeight P) * stepBound P) + 510 ≤ INT_MAX.

End Pipeline.

(** Buffers for [pairParams], as [createBuffer] sizes them. *)
Definition pairBuffers : Buffers :=
  {| errorBuffer := replicate 4 7;
     tableauLeft := replicate 4 0; tableauRight := replicate 4 0;
     tableauTop := replicate 4 0; tableauBottom := replicate 4 0;
     smallDisparity := replicate 2 9 |}.

(** Tableaux for [pairParams] in which disparity 1 is the better one at
    the first pixel, and every fused score of the second pixel is above
    100000. *)
Definition fusionBuffers : Buffers :=
  {| errorBuffer := [7; 3; 200; 100];
     tableauLeft := [10; 4; 30000; 30000];
     tableauRight := [10; 4; 30000; 30000];
     tableauTop := [10; 4; 30000; 30000];
     tableauBottom := [10; 4; 30000; 29000];
     smallDisparity := [5; 5] |}.

(** ** The cost of a pixel in closed form *)

(** The weights of a window of half-length [L]: [L + 1 - |k - L|] at
    offset [k]. *)
Definition triangle (L : Z) : list Z :=
  (λ k, L + 1 - Z.abs (k - L)) <$> seqZ 0 (L * 2 + 1).

(** The bias of the kernel for a descriptor and a window of [LENGTH]
    samples: the difference of their sums divided by [LENGTH], clamped to
    [maxBias] in magnitude. *)
Definition clampedBias (maxBias LENGTH : Z) (descriptor window : list Z) : Z :=
  Z.min maxBias
    (Z.max (- maxBias)
       ((foldr Z.add 0 window - foldr Z.add 0 descriptor) ÷ LENGTH)).

Section CostValue.
Context {R Ras : Type} `{Scalar R} `{CurveRasterizer R Ras}.
Context (bilinear : Mat8u → R → R → Z).

(** The byte of the second image at the pixel of the rasterizer, zero
    outside the image. *)
Definition sampleAt (img2 : Mat8u) (raster : Ras) : Z :=
  if (rasterY raster <? 0) || (rows img2 <=? rasterY raster)
     || (rasterX raster <? 0) || (cols img2 <=? rasterX raster)
  then 0
  else get (data img2) (rasterY raster * cols img2 + rasterX raster).

(** The samples at [n] successive pixels of the rasterizer. *)
Definition samplesFrom (img2 : Mat8u) (n : nat) (raster : Ras) : list Z :=
  (λ i, sampleAt img2 (Nat.iter i rasterStep raster)) <$> seq 0 n.

(** The cost of disparity [d] for a pixel with point [pt], direction
    [dir] and rasterizer [raster], before it is stored as a byte. *)
Definition pixelCost (P : StereoParameters) (img1 img2 : Mat8u)
    (pt dir : Vector2d R) (raster : Ras) (d : Z) : Z :=
  let L := Z.max (scale P - 1) 1 in
  let LENGTH := L * 2 + 1 in
  let descriptor := descriptorAt bilinear img1 L LENGTH pt dir in
  let samples := samplesFrom img2 (Z.to_nat (dispMax P + LENGTH - 1))
                   (rasterSteps raster (- L)) in
  let window := take (Z.to_nat LENGTH) (drop (Z.to_nat d) samples) in
  weightedSAD descriptor window (triangle L)
    (clampedBias (maxBias P) LENGTH descriptor window).

End CostValue.

(** ** createBuffer *)

(** The six matrices of an [EnhancedStereo] that [createBuffer] sizes: the
    cost volume, the four tableaux (matrices of [int], with the header of
    [Mat8u]) and the disparity map. *)
Record StereoMats := {
  errorMat : Mat8u;
  leftMat : Mat8u;
  rightMat : Mat8u;
  topMat : Mat8u;
  bottomMat : Mat8u;
  disparityMat : Mat8u
}.

(** [if (m.cols != w or m.rows != h) m = Mat(Size(w, h))], where [alloc]
    stands for the constructor, whose matrix holds whatever the memory
    held. *)
Definition refit (alloc : Z → Z → Mat8u) (m : Mat8u) (w h : Z) : Mat8u :=
  if negb (cols m =? w) || negb (rows m =? h) then alloc w h else m.

(** [EnhancedStereo::createBuffer] *)
Definition createBuffer (alloc : Z → Z → Mat8u) (P : StereoParameters)
    (M : StereoMats) : option StereoMats :=
  bufferWidth ← imul (dispWidth P) (dispMax P);
  Some {| errorMat := refit alloc (errorMat M) bufferWidth (dispHeight P);
          leftMat := refit alloc (leftMat M) bufferWidth (dispHeight P);
          rightMat := refit alloc (rightMat M) bufferWidth (dispHeight P);
          topMat := refit alloc (topMat M) bufferWidth (dispHeight P);
          bottomMat := refit alloc (bottomMat M) bufferWidth (dispHeight P);
          disparityMat := refit alloc (disparityMat M) (dispWidth P)
                                (dispHeight P) |}.

(** A matrix whose buffer has the size of its header. *)
Definition matOK (m : Mat8u) : Prop :=
  Z.of_nat (length (data m)) = rows m * cols m.

(** A constructor that returns a matrix of the size it is asked for. *)
Definition allocOK (alloc : Z → Z → Mat8u) : Prop :=
  ∀ w h, 0 ≤ w → 0 ≤ h →
    cols (alloc w h) = w ∧ rows (alloc w h) = h ∧ matOK (alloc w h).

(** The buffers of the six matrices. *)
Definition buffersOf (M : StereoMats) : Buffers :=
  {| errorBuffer := data (errorMat M);
     tableauLeft := data (leftMat M); tableauRight := data (rightMat M);
     tableauTop := data (topMat M); tableauBottom := data (bottomMat M);
     smallDisparity := data (disparityMat M) |}.

(** A constructor that fills its matrix with a given byte, and six empty
    matrices. *)
Definition filledWith (c : Z) (w h : Z) : Mat8u :=
  {| rows := h; cols := w; data := replicate (Z.to_nat (w * h)) c |}.

Definition noMats : StereoMats :=
  let empty := {| rows := 0; cols := 0; data := [] |} in
  {| errorMat := empty; leftMat := empty; rightMat := empty;
     topMat := empty; bottomMat := empty; disparityMat := empty |}.

(** ** The step penalty *)

(** The parameters [P] with another step penalty. *)
Definition setLambdaStep (P : StereoParameters) (s : Z) : StereoParameters :=
  {| dispWidth := dispWidth P; dispHeight := dispHeight P;
     dispMax := dispMax P; lambdaStep := s; lambdaJump := lambdaJump P;
     scale := scale P; maxBias := maxBias P |}.

(** ** Epipolar directions *)

Section Directions.
Context {R : Type} `{Scalar R}.

Definition sub2 (a b : Vector2d R) : Vector2d R :=
  V2 (v2x a - v2x b)%sc (v2y a - v2y b)%sc.
Definition dot2 (a b : Vector2d R) : R :=
  (v2x a * v2x b + v2y a * v2y b)%sc.
(** [a.normalized()] on a [Vector2d] *)
Definition normalized2 (a : Vector2d R) : Vector2d R :=
  V2 (v2x a / ssqrt (dot2 a a))%sc (v2y a / ssqrt (dot2 a a))%sc.

(** The direction that [computeEpipolarDirections] stores for a point
    [pt] of the first image with ray [X]: the ray is moved by a thousandth
    of the unit baseline, projected, and the difference to [pt] is
    normalized. *)
Definition epipolarDirection (st : EnhancedStereo R) (pt : Vector2d R)
    (X : Vector3d R) : Vector2d R :=
  let t := scale3 (normalized (trans (Transform12 st))) (dec 1 (-3)) in
  let Xt := sub3 X t in
  let pt' := (projectPoint (cam1 st) Xt).2 in
  normalized2 (sub2 pt' pt).

(** [EnhancedStereo::computeEpipolarDirections]: the vector it leaves in
    [epipolarDirectionVec], whose former content it clears. *)
Definition computeEpipolarDirections (st : EnhancedStereo R)
  : option (list (Vector2d R)) :=
  for_up 0 (Z.of_nat (length (pointVec1 st))) (λ i dirs,
    X ← at_ (reconstVec st) i;
    pt ← at_ (pointVec1 st) i;
    Some (dirs ++ [epipolarDirection st pt X])) [].

End Directions.

(** ** The grid of points *)

Section Grid.
Context {R : Type} `{Scalar R}.
(** [params.uImg(u)] and [params.vImg(v)], the image coordinates of a
    column and of a row of the working grid, as the [double] stored in a
    point; the header that defines them is not among the sources. *)
Context (uImg vImg : Z → R).

(** [EnhancedStereo::computeReconstructed]: the vectors it leaves in
    [pointVec1] and [reconstVec].  [reserve] of a negative number of
    elements throws. *)
Definition computeReconstructed (st : EnhancedStereo R)
  : option (list (Vector2d R) * list (Vector3d R)) :=
  let P := params st in
  n ← imul (dispHeight P) (dispWidth P);
  if n <? 0 then None else
  pts ← for_up 0 (dispHeight P) (λ v pts,
           for_up 0 (dispWidth P) (λ u pts,
             Some (pts ++ [V2 (uImg u) (vImg v)])) pts) (pointVec1 st);
  r ← reconstructPointCloud (cam1 st) pts (reconstVec st);
  Some (pts, r.2).

End Grid.

(** ** The value of a [double] *)

(** [2 ^ e] as a real number. *)
Definition bpow (e : Z) : R := powerRZ 2 e.

(** The magnitude of a [double]: [m * 2 ^ e] for a finite one, [2 ^ emax]
    for an infinite one. *)
Definition SFmag (x : spec_float) : R :=
  match x with
  | S754_finite _ m e => (IZR (Zpos m) * bpow e)%R
  | S754_infinity _ => bpow emax
  | _ => 0%R
  end.

(** The real number a finite [double] stands for. *)
Definition SF2R (x : spec_float) : R :=
  match x with
  | S754_finite s m e =>
      if s then (- (IZR (Zpos m) * bpow e))%R else (IZR (Zpos m) * bpow e)%R
  | _ => 0%R
  end.

(** The magnitudes of the finite [double]s. *)
Definition Rfloat (F : R) : Prop :=
  F = 0%R
  ∨ ∃ m e, bounded prec emax m e = true ∧ F = (IZR (Zpos m) * bpow e)%R.

(** A [double] that is a number, with the sign [s]. *)
Definition SFsigned (s : bool) (x : spec_float) : Prop :=
  match x with
  | S754_nan => False
  | S754_zero s' | S754_infinity s' | S754_finite s' _ _ => s' = s
  end.

(** The result [r] of rounding the magnitude [x]: no [double] lies strictly
    between them. *)
Definition rounds (x : R) (r : spec_float) : Prop :=
  ∀ F, Rfloat F →
    ((x <= F)%R → (SFmag r <= F)%R) ∧ ((F <= x)%R → (F <= SFmag r)%R).

(** What the shift register of the rounding holds: the mantissa [shr_m],
    at the exponent [e], of a number [x] of the interval it opens, with
    both flags down when [x] is its lower end. *)
Definition shr_holds (mrs : shr_record) (e : Z) (x : R) : Prop :=
  0 ≤ shr_m mrs
  ∧ (IZR (shr_m mrs) * bpow e <= x < IZR (shr_m mrs + 1) * bpow e)%R
  ∧ (x = (IZR (shr_m mrs) * bpow e)%R →
     shr_r mrs = false ∧ shr_s mrs = false).

(** A pose with the baseline [(0.1, 0.2, -1)] and no rotation, its table
    of eight bins, and a ray with three large components. *)
Definition slantPose : Transformation float :=
  {| trans := V3 0.1 0.2 (-1); rotMat := identity3;
     rotMatInv := identity3 |}%float.

Definition slantEpipolar : EnhancedEpipolar float :=
  Eval vm_compute in
    default sideEpipolar (newEnhancedEpipolar slantPose sixParamCamera 8).

Definition hugeRay : Vector3d float := (V3 1.7e308 1.7e308 1.7e308)%float.

(** A camera with its principal point at [(3, 1)], the table of eight bins
    of the pose [sidePose] for it, and a working grid of one pixel, at
    [(3, 1)], whose epipolar curve is the row [v = 1] and whose epipolar
    direction points to the left. *)
Definition smallCamera : ICamera float :=
  {| camParams := [dec 5 (-1); sofZ 1; sofZ 250; sofZ 250; sofZ 3; sofZ 1];
     reconstructPoint := reconstructPoint (Pinhole (sofZ 3) (sofZ 1)
                                                   (sofZ 250));
     projectPoint := projectPoint (Pinhole (sofZ 3) (sofZ 1) (sofZ 250)) |}.

Definition rowEpipolar : EnhancedEpipolar float :=
  Eval vm_compute in
    default sideEpipolar (newEnhancedEpipolar sidePose smallCamera 8).

Definition shiftParams : StereoParameters :=
  {| dispWidth := 1; dispHeight := 1; dispMax := 2;
     lambdaStep := 5; lambdaJump := 32; scale := 3; maxBias := 10 |}.

Definition shiftStereo : EnhancedStereo float :=
  {| Transform12 := sidePose;
     cam1 := smallCamera;
     cam2 := smallCamera;
     epipolar := rowEpipolar;
     params := shiftParams;
     maxDistance := 100%float;
     pointVec1 := [V2 3 1]%float;
     reconstVec := [V3 0 0 1]%float;
     epipolarDirectionVec := [V2 (-1) 0]%float;
     pinfPxVec := [(3, 1)];
     epipolePx := (-1, -1) |}.

(** An image of three rows of six pixels, and the same image seven levels
    brighter. *)
Definition rampImage : Mat8u :=
  {| rows := 3; cols := 6;
     data := [1; 2; 3; 4; 5; 6; 5; 10; 20; 30; 40; 50; 6; 5; 4; 3; 2; 1] |}.

Definition rampImage7 : Mat8u :=
  {| rows := 3; cols := 6;
     data := [8; 9; 10; 11; 12; 13; 12; 17; 27; 37; 47; 57;
              13; 12; 11; 10; 9; 8] |}.
(** * Properties *)

(** ** Loads, stores and loops *)

Lemma int_result_Some z :
  INT_MIN ≤ z ≤ INT_MAX → int_result z = Some z.
Proof.
  intros [H1 H2]. unfold int_result, in_int.
  apply Z.leb_le in H1, H2. by rewrite H1, H2.
Qed.

Lemma load_Some (m : list Z) p :
  0 ≤ p < Z.of_nat (length m) → load m p = Some (get m p).
Proof.
  intros Hp. unfold get, load.
  destruct (0 <=? p) eqn:E; [|lia].
  destruct (lookup_lt_is_Some_2 m (Z.to_nat p)) as [x Hx]; [lia|].
  by rewrite Hx.
Qed.

Lemma load_None_neg (m : list Z) p : p < 0 → load m p = None.
Proof. intros Hp. unfold load. destruct (0 <=? p) eqn:E; [lia|done]. Qed.

Lemma store_Some (m : list Z) p x :
  0 ≤ p < Z.of_nat (length m) →
  store m p x = Some (<[Z.to_nat p := x]> m).
Proof.
  intros Hp. unfold store.
  destruct (0 <=? p) eqn:E1; [|lia].
  destruct (p <? Z.of_nat (length m)) eqn:E2; [done|lia].
Qed.

Lemma get_insert_eq (m : list Z) p x :
  0 ≤ p < Z.of_nat (length m) → get (<[Z.to_nat p := x]> m) p = x.
Proof.
  intros Hp. unfold get, load.
  destruct (0 <=? p) eqn:E; [|lia].
  rewrite list_lookup_insert_eq; [done|lia].
Qed.

Lemma get_insert_ne (m : list Z) p q x :
  0 ≤ p → q ≠ p → get (<[Z.to_nat p := x]> m) q = get m q.
Proof.
  intros Hp Hq. unfold get, load.
  destruct (0 <=? q) eqn:E; [|done].
  rewrite list_lookup_insert_ne; [done|lia].
Qed.

Lemma load_insert_ne (m : list Z) p q x :
  0 ≤ p → q ≠ p → load (<[Z.to_nat p := x]> m) q = load m q.
Proof.
  intros Hp Hq. unfold load.
  destruct (0 <=? q) eqn:E; [|done].
  rewrite list_lookup_insert_ne; [done|lia].
Qed.

Lemma get_ext_load (m m' : list Z) p : load m' p = load m p → get m' p = get m p.
Proof. unfold get. by intros ->. Qed.

Lemma forM_app {St} (body : Z → St → option St) l1 l2 s :
  forM body (l1 ++ l2) s = s' ← forM body l1 s; forM body l2 s'.
Proof.
  revert s. induction l1 as [|i l1 IH]; intros s; simpl; [done|].
  destruct (body i s); simpl; [apply IH|done].
Qed.

Lemma forM_fmap {St} (body : Z → St → option St) (f : Z → Z) l s :
  forM body (f <$> l) s = forM (λ i, body (f i)) l s.
Proof.
  revert s. induction l as [|i l IH]; intros s; simpl; [done|].
  destruct (body (f i) s); [apply IH|done].
Qed.

Lemma forM_ext {St} (body body' : Z → St → option St) l s :
  (∀ i s, i ∈ l → body i s = body' i s) →
  forM body l s = forM body' l s.
Proof.
  revert s. induction l as [|i l IH]; intros s H; simpl; [done|].
  rewrite <- H by apply list_elem_of_here.
  destruct (body i s); [|done].
  apply IH. intros j t Hj. apply H. by apply list_elem_of_further.
Qed.

(** An invariant carried through [for (i = lo; i < hi; i++)]: the loop
    runs to its end and the invariant holds there. *)
Lemma for_up_inv {St} (Inv : Z → St → Prop) lo hi
    (body : Z → St → option St) s :
  lo ≤ hi →
  Inv lo s →
  (∀ i t, lo ≤ i < hi → Inv i t → ∃ t', body i t = Some t' ∧ Inv (i + 1) t') →
  ∃ s', for_up lo hi body s = Some s' ∧ Inv hi s'.
Proof.
  intros Hle H0 Hstep. unfold for_up.
  assert (Hn : ∃ n : nat, hi - lo = Z.of_nat n) by (exists (Z.to_nat (hi - lo)); lia).
  destruct Hn as [n Hn]. rewrite Hn.
  assert (hi = lo + Z.of_nat n) as -> by lia. clear Hn Hle.
  induction n as [|n IH].
  - simpl. exists s. split; [done|]. by rewrite Z.add_0_r.
  - destruct IH as (t & Ht & HI).
    { intros i t Hi. apply Hstep. lia. }
    rewrite Nat2Z.inj_succ, <- Z.add_1_r, seqZ_app by lia.
    rewrite forM_app, Ht. simpl.
    change (Z.of_nat 0 + (lo + Z.of_nat n)) with (lo + Z.of_nat n).
    destruct (Hstep (lo + Z.of_nat n) t) as (t' & Hb & HI'); [lia|done|].
    rewrite Hb. exists t'. split; [done|].
    by replace (lo + (Z.of_nat n + 1)) with (lo + Z.of_nat n + 1) by lia.
Qed.

Lemma reverse_seqZ_0 (m : nat) :
  reverse (seqZ 0 (Z.of_nat m)) = (λ k, Z.of_nat m - k) <$> seqZ 1 (Z.of_nat m).
Proof.
  induction m as [|m IH]; [done|].
  rewrite seqZ_S, reverse_app, IH. simpl.
  rewrite Nat2Z.inj_succ, <- Z.add_1_r.
  rewrite (seqZ_cons 1 (Z.of_nat m + 1)) by lia.
  rewrite fmap_cons. f_equal; [lia|].
  replace (Z.pred (Z.of_nat m + 1)) with (Z.of_nat m) by lia.
  change (Z.succ 1) with (1 + 1).
  rewrite <- (fmap_add_seqZ 1 1), <- list_fmap_compose.
  apply list_fmap_ext. intros ? x ?. simpl. lia.
Qed.

(** A loop that counts [n - 2] down to [0] visits [n - 1 - k] for [k]
    counting [1] up to [n - 1]. *)
Lemma for_down_as_up {St} n (body : Z → St → option St) s :
  for_down (n - 2) 0 body s = for_up 1 n (λ k, body (n - 1 - k)) s.
Proof.
  unfold for_down, for_up.
  rewrite <- (forM_fmap body (λ k, n - 1 - k)). f_equal.
  replace (n - 2 - 0 + 1) with (n - 1) by lia.
  destruct (Z.le_gt_cases (n - 1) 0) as [Hn|Hn].
  { rewrite !seqZ_nil by lia. done. }
  assert (Hm : ∃ m : nat, n - 1 = Z.of_nat m) by (exists (Z.to_nat (n - 1)); lia).
  destruct Hm as [m Hm]. rewrite Hm, reverse_seqZ_0.
  apply list_fmap_ext. intros ? x ?. lia.
Qed.

(** ** The minimum over the previous element *)

Lemma minOver_1 f : minOver f 1 = f 0.
Proof. done. Qed.

Lemma minOver_succ f n :
  1 ≤ n → minOver f (n + 1) = Z.min (minOver f n) (f n).
Proof.
  intros Hn. unfold minOver.
  replace (n + 1 - 1) with ((n - 1) + 1) by lia.
  rewrite seqZ_app by lia. rewrite fmap_app, foldl_app.
  replace (1 + (n - 1)) with n by lia. done.
Qed.

(** [minOver f n] is a lower bound of [f] on [0, n), and is attained. *)
Lemma minOver_spec f n :
  1 ≤ n →
  (∀ d, 0 ≤ d < n → minOver f n ≤ f d) ∧ (∃ d, 0 ≤ d < n ∧ minOver f n = f d).
Proof.
  intros Hn.
  assert (Hm : ∃ m : nat, n = Z.of_nat m + 1) by (exists (Z.to_nat (n - 1)); lia).
  destruct Hm as [m ->]. clear Hn.
  induction m as [|m [IH1 (d0 & Hd0 & IH2)]].
  - split; [intros d Hd; by replace d with 0 by lia|].
    exists 0. split; [lia|done].
  - rewrite Nat2Z.inj_succ, <- Z.add_1_r, minOver_succ by lia. split.
    + intros d Hd. destruct (decide (d = Z.of_nat m + 1)) as [->|Hne]; [lia|].
      specialize (IH1 d). lia.
    + destruct (Z.le_gt_cases (minOver f (Z.of_nat m + 1)) (f (Z.of_nat m + 1))).
      * exists d0. split; [lia|]. rewrite Z.min_l by done. done.
      * exists (Z.of_nat m + 1). split; [lia|]. rewrite Z.min_r by lia. done.
Qed.

Lemma minOver_ext f g n :
  (∀ d, 0 ≤ d < n → f d = g d) → 1 ≤ n → minOver f n = minOver g n.
Proof.
  intros H Hn. unfold minOver. rewrite H by lia. f_equal.
  apply list_fmap_ext. intros i x Hx. apply lookup_seqZ in Hx. apply H. lia.
Qed.

Lemma minOver_mono f g n :
  (∀ d, 0 ≤ d < n → f d ≤ g d) → 1 ≤ n → minOver f n ≤ minOver g n.
Proof.
  intros H Hn.
  destruct (minOver_spec g n Hn) as [_ (d & Hd & ->)].
  destruct (minOver_spec f n Hn) as [Hf _].
  specialize (Hf d Hd). specialize (H d Hd). lia.
Qed.

Lemma minOver_bounds f n lo hi :
  (∀ d, 0 ≤ d < n → lo ≤ f d ≤ hi) → 1 ≤ n → lo ≤ minOver f n ≤ hi.
Proof.
  intros H Hn. destruct (minOver_spec f n Hn) as [_ (d & Hd & ->)]. by apply H.
Qed.

Lemma dpRecurrence_ext D ls lj prev prev' cost cost' d :
  2 ≤ D → 0 ≤ d < D →
  (∀ k, 0 ≤ k < D → prev k = prev' k) → cost d = cost' d →
  dpRecurrence D ls lj prev cost d = dpRecurrence D ls lj prev' cost' d.
Proof.
  intros HD Hd Hp Hc. unfold dpRecurrence, neighbours.
  rewrite Hc, (minOver_ext prev prev' D) by (done || lia).
  rewrite (Hp d) by done.
  destruct (0 <? d) eqn:E1; destruct (d + 1 <? D) eqn:E2; simpl;
    rewrite ?(Hp (d - 1)), ?(Hp (d + 1)) by lia; done.
Qed.

(** The recurrence stays within [m + 255 + |lambdaStep| + |lambdaJump|]
    when the previous element stays within [m]. *)
Lemma dpRecurrence_bounds D ls lj prev cost d m :
  2 ≤ D → 0 ≤ d < D →
  (∀ k, 0 ≤ k < D → - m ≤ prev k ≤ m) → 0 ≤ cost d ≤ 255 →
  - (m + (255 + Z.abs ls + Z.abs lj))
    ≤ dpRecurrence D ls lj prev cost d ≤ m + (255 + Z.abs ls + Z.abs lj).
Proof.
  intros HD Hd Hp Hc. unfold dpRecurrence, neighbours.
  pose proof (minOver_bounds prev D (- m) m Hp ltac:(lia)) as Hb.
  pose proof (Hp d Hd).
  destruct (0 <? d) eqn:E1; destruct (d + 1 <? D) eqn:E2; simpl;
    try (pose proof (Hp (d - 1) ltac:(lia)));
    try (pose proof (Hp (d + 1) ltac:(lia))); lia.
Qed.

(** The recurrence is monotone in the previous element and in the jump
    penalty. *)
Lemma dpRecurrence_mono D ls lj lj' prev prev' cost d :
  2 ≤ D → 0 ≤ d < D → lj ≤ lj' →
  (∀ k, 0 ≤ k < D → prev k ≤ prev' k) →
  dpRecurrence D ls lj prev cost d ≤ dpRecurrence D ls lj' prev' cost d.
Proof.
  intros HD Hd Hl Hp. unfold dpRecurrence, neighbours.
  pose proof (minOver_mono prev prev' D Hp ltac:(lia)) as Hb.
  pose proof (Hp d Hd).
  destruct (0 <? d) eqn:E1; destruct (d + 1 <? D) eqn:E2; simpl;
    try (pose proof (Hp (d - 1) ltac:(lia)));
    try (pose proof (Hp (d + 1) ltac:(lia))); lia.
Qed.

(** ** One step of a sweep *)

Lemma min_assign_insert (tab : list Z) o v p lam :
  0 ≤ o < Z.of_nat (length tab) → 0 ≤ p < Z.of_nat (length tab) → p ≠ o →
  INT_MIN ≤ get tab p + lam ≤ INT_MAX →
  min_assign (<[Z.to_nat o := v]> tab) o p lam
  = Some (<[Z.to_nat o := Z.min v (get tab p + lam)]> tab).
Proof.
  intros Ho Hp Hne Hr. unfold min_assign.
  rewrite !load_Some by (rewrite length_insert; lia).
  rewrite get_insert_eq, get_insert_ne by lia. simpl.
  unfold iadd. rewrite int_result_Some by done. simpl.
  rewrite store_Some by (rewrite length_insert; lia).
  by rewrite list_insert_insert_eq.
Qed.

Lemma min_assign_best_insert (tab : list Z) o v best lam :
  0 ≤ o < Z.of_nat (length tab) →
  INT_MIN ≤ best + lam ≤ INT_MAX →
  min_assign_best (<[Z.to_nat o := v]> tab) o best lam
  = Some (<[Z.to_nat o := Z.min v (best + lam)]> tab).
Proof.
  intros Ho Hr. unfold min_assign_best.
  rewrite !load_Some by (rewrite length_insert; lia).
  rewrite get_insert_eq by lia. simpl.
  unfold iadd. rewrite int_result_Some by done. simpl.
  rewrite store_Some by (rewrite length_insert; lia).
  by rewrite list_insert_insert_eq.
Qed.

Lemma add_assign_insert (err tab : list Z) o v e :
  0 ≤ o < Z.of_nat (length tab) → 0 ≤ e < Z.of_nat (length err) →
  INT_MIN ≤ v + get err e ≤ INT_MAX →
  add_assign err (<[Z.to_nat o := v]> tab) o e
  = Some (<[Z.to_nat o := v + get err e]> tab).
Proof.
  intros Ho He Hr. unfold add_assign.
  rewrite !load_Some by (rewrite ?length_insert; lia).
  rewrite get_insert_eq by lia. simpl.
  unfold iadd. rewrite int_result_Some by done. simpl.
  rewrite store_Some by (rewrite length_insert; lia).
  by rewrite list_insert_insert_eq.
Qed.

Lemma best_loop (tab : list Z) inC D :
  1 ≤ D → 0 ≤ inC → inC + D ≤ Z.of_nat (length tab) →
  for_up 1 D (λ i best, x ← load tab (inC + i); Some (Z.min best x))
         (get tab inC)
  = Some (minOver (λ k, get tab (inC + k)) D).
Proof.
  intros HD Hin Hlen.
  destruct (for_up_inv (λ i best, best = minOver (λ k, get tab (inC + k)) i)
              1 D (λ i best, x ← load tab (inC + i); Some (Z.min best x))
              (get tab inC)) as (b & Hb & ->);
    [lia|by rewrite minOver_1, Z.add_0_r| |done].
  intros i t Hi ->. rewrite load_Some by lia. simpl.
  eexists. split; [done|]. by rewrite minOver_succ by lia.
Qed.

Section Step.
Context (P : StereoParameters) (err tab0 : list Z) (inC e outC m : Z).

Let D := dispMax P.
Let prev := λ k, get tab0 (inC + k).
Let cost := λ k, get err (e + k).
Let rec := dpRecurrence D (lambdaStep P) (lambdaJump P) prev cost.

Hypothesis HD : 2 ≤ D.
Hypothesis Hin : 0 ≤ inC ∧ inC + D ≤ Z.of_nat (length tab0).
Hypothesis Hout : 0 ≤ outC ∧ outC + D ≤ Z.of_nat (length tab0).
Hypothesis Hdisj : inC + D ≤ outC ∨ outC + D ≤ inC.
Hypothesis Herr : 0 ≤ e ∧ e + D ≤ Z.of_nat (length err).
Hypothesis Hprev : ∀ k, 0 ≤ k < D → - m ≤ prev k ≤ m.
Hypothesis Hcost : ∀ k, 0 ≤ k < D → 0 ≤ cost k ≤ 255.
Hypothesis Hm :
  m + (255 + Z.abs (lambdaStep P) + Z.abs (lambdaJump P)) ≤ INT_MAX.

(** The tableaux met while the step runs: the input element is as it
    was at the start. *)
Let good (tab : list Z) : Prop :=
  length tab = length tab0 ∧ ∀ k, 0 ≤ k < D → get tab (inC + k) = prev k.

Local Lemma best_range :
  - m ≤ minOver prev D ≤ m.
Proof. apply minOver_bounds; [done|lia]. Qed.

Local Ltac ranges :=
  pose proof best_range;
  repeat match goal with
  | |- context [prev ?k] =>
      lazymatch goal with
      | _ : - m ≤ prev k ≤ m |- _ => fail
      | _ => pose proof (Hprev k ltac:(lia))
      end
  | |- context [cost ?k] =>
      lazymatch goal with
      | _ : 0 ≤ cost k ≤ 255 |- _ => fail
      | _ => pose proof (Hcost k ltac:(lia))
      end
  end;
  unfold INT_MIN, INT_MAX in *; lia.

Local Ltac side Hg :=
  try (rewrite ?length_insert; rewrite ?Hg by lia; ranges).
Local Ltac next := cbn [mbind option_bind].

Lemma cell_first tab :
  good tab →
  stepFirst P err tab inC e outC (minOver prev D)
  = Some (<[Z.to_nat outC := rec 0]> tab).
Proof.
  intros [Hl Hg]. unfold stepFirst.
  rewrite load_Some by lia. next.
  rewrite store_Some by lia. next.
  rewrite min_assign_insert; side Hg. next.
  rewrite min_assign_best_insert; side Hg. next.
  assert (get tab inC = prev 0) as ->
    by (rewrite <- (Hg 0) by lia; f_equal; lia).
  assert (Hc : get err e = cost 0) by (unfold cost; f_equal; lia).
  rewrite (Hg 1) by lia.
  rewrite add_assign_insert; rewrite ?Hc; side Hg.
  do 2 f_equal.
  unfold rec, dpRecurrence, neighbours.
  replace (0 <? 0) with false by done.
  replace (0 + 1 <? D) with true by (symmetry; apply Z.ltb_lt; lia).
  cbn [foldr app]. replace (0 + 1) with 1 by lia. lia.
Qed.

Lemma cell_middle tab i :
  good tab → 1 ≤ i < D - 1 →
  stepMiddle P err inC e outC (minOver prev D) i tab
  = Some (<[Z.to_nat (outC + i) := rec i]> tab).
Proof.
  intros [Hl Hg] Hi. unfold stepMiddle.
  rewrite load_Some by lia. next.
  rewrite store_Some by lia. next.
  rewrite min_assign_insert; side Hg. next.
  rewrite min_assign_insert; side Hg. next.
  rewrite min_assign_best_insert; side Hg. next.
  rewrite (Hg i), (Hg (i + 1)), (Hg (i - 1)) by lia.
  rewrite add_assign_insert; fold (cost i); side Hg.
  do 2 f_equal.
  unfold rec, dpRecurrence, neighbours.
  replace (0 <? i) with true by (symmetry; apply Z.ltb_lt; lia).
  replace (i + 1 <? D) with true by (symmetry; apply Z.ltb_lt; lia).
  cbn [foldr app]. lia.
Qed.

Lemma cell_last tab :
  good tab →
  stepLast P err tab inC e outC (minOver prev D)
  = Some (<[Z.to_nat (outC + (D - 1)) := rec (D - 1)]> tab).
Proof.
  intros [Hl Hg]. unfold stepLast. fold D.
  rewrite load_Some by lia. next.
  rewrite store_Some by lia. next.
  rewrite min_assign_insert; side Hg. next.
  rewrite min_assign_best_insert; side Hg. next.
  rewrite (Hg (D - 1)), (Hg (D - 2)) by lia.
  rewrite add_assign_insert; fold (cost (D - 1)); side Hg.
  do 2 f_equal.
  unfold rec, dpRecurrence, neighbours.
  replace (0 <? D - 1) with true by (symmetry; apply Z.ltb_lt; lia).
  replace (D - 1 + 1 <? D) with false by (symmetry; apply Z.ltb_ge; lia).
  replace (D - 1 - 1) with (D - 2) by lia.
  cbn [foldr app]. lia.
Qed.

(** The step runs to its end, writes the recurrence into the output
    element and leaves the rest of the tableau as it was. *)
Lemma computeDynamicStep_spec :
  ∃ tab', computeDynamicStep P err tab0 inC e outC = Some tab'
    ∧ length tab' = length tab0
    ∧ (∀ p, ¬ (outC ≤ p < outC + D) → get tab' p = get tab0 p)
    ∧ (∀ d, 0 ≤ d < D → get tab' (outC + d) = rec d).
Proof.
  unfold computeDynamicStep. fold D.
  rewrite load_Some by lia. next.
  rewrite best_loop by lia. next. fold prev.
  rewrite cell_first by done. next.
  pose (Inv := λ (i : Z) (t : list Z),
    length t = length tab0
    ∧ (∀ p, ¬ (outC ≤ p < outC + i) → get t p = get tab0 p)
    ∧ (∀ d, 0 ≤ d < i → get t (outC + d) = rec d)).
  assert (Hgood : ∀ i t, 0 ≤ i ≤ D → Inv i t → good t).
  { intros i t Hi (Hl & Hf & _). split; [done|].
    intros k Hk. apply Hf. lia. }
  destruct (for_up_inv Inv 1 (D - 1)
              (stepMiddle P err inC e outC (minOver prev D))
              (<[Z.to_nat outC := rec 0]> tab0))
    as (t1 & -> & Ht1); [lia| | |].
  - split; [by rewrite length_insert|]. split.
    + intros p Hp. rewrite get_insert_ne by lia. done.
    + intros d Hd. replace d with 0 by lia.
      rewrite Z.add_0_r, get_insert_eq by lia. done.
  - intros i t Hi HI. pose proof (Hgood i t ltac:(lia) HI) as Hg.
    rewrite cell_middle by done. eexists. split; [done|].
    destruct HI as (Hl & Hf & Hv). split; [by rewrite length_insert|]. split.
    + intros p Hp. rewrite get_insert_ne by lia. apply Hf. lia.
    + intros d Hd. destruct (decide (d = i)) as [->|Hne].
      * rewrite get_insert_eq by lia. done.
      * rewrite get_insert_ne by lia. apply Hv. lia.
  - next. pose proof (Hgood (D - 1) t1 ltac:(lia) Ht1) as Hg.
    rewrite cell_last by done. eexists. split; [done|].
    destruct Ht1 as (Hl & Hf & Hv). split; [by rewrite length_insert|]. split.
    + intros p Hp. rewrite get_insert_ne by lia. apply Hf. lia.
    + intros d Hd. destruct (decide (d = D - 1)) as [->|Hne].
      * rewrite get_insert_eq by lia. done.
      * rewrite get_insert_ne by lia. apply Hv. lia.
Qed.
End Step.

(** ** A sweep, line by line *)

Lemma copy_spec (src dst : list Z) from to n :
  0 ≤ n → 0 ≤ from → from + n ≤ Z.of_nat (length src) →
  0 ≤ to → to + n ≤ Z.of_nat (length dst) →
  ∃ dst', copy src from n dst to = Some dst'
    ∧ length dst' = length dst
    ∧ (∀ p, ¬ (to ≤ p < to + n) → get dst' p = get dst p)
    ∧ (∀ d, 0 ≤ d < n → get dst' (to + d) = get src (from + d)).
Proof.
  intros Hn Hf Hfl Ht Htl. unfold copy.
  apply (for_up_inv (λ i t,
    length t = length dst
    ∧ (∀ p, ¬ (to ≤ p < to + i) → get t p = get dst p)
    ∧ (∀ d, 0 ≤ d < i → get t (to + d) = get src (from + d)))); [done| |].
  - split; [done|]. split; [done|]. intros d Hd. lia.
  - intros i t Hi (Hl & Hfr & Hv).
    rewrite load_Some by lia. cbn [mbind option_bind].
    rewrite store_Some by lia. eexists. split; [done|].
    split; [by rewrite length_insert|]. split.
    + intros p Hp. rewrite get_insert_ne by lia. apply Hfr. lia.
    + intros d Hd. destruct (decide (d = i)) as [->|Hne].
      * rewrite get_insert_eq by lia. done.
      * rewrite get_insert_ne by lia. apply Hv. lia.
Qed.

Section Lines.
Context (P : StereoParameters) (err : list Z) (base : Z → Z)
        (stride m n : Z).

Let D := dispMax P.
Let B := stepBound P.
Let pos := linePos base stride.
Let ok := elemOK P err pos.

Hypothesis HD : 2 ≤ D.
Hypothesis Hn : 1 ≤ n.
Hypothesis Hm : 0 ≤ m.
Hypothesis Hrange : ∀ j k, 0 ≤ j < m → 0 ≤ k < n →
  0 ≤ pos j k ∧ pos j k + D ≤ Z.of_nat (length err).
Hypothesis Hdisj : ∀ j k j' k', 0 ≤ j < m → 0 ≤ k < n →
  0 ≤ j' < m → 0 ≤ k' < n → (j, k) ≠ (j', k') →
  pos j k + D ≤ pos j' k' ∨ pos j' k' + D ≤ pos j k.
Hypothesis Hbytes : ∀ p, 0 ≤ p < Z.of_nat (length err) → 0 ≤ get err p ≤ 255.
Hypothesis Hbound : n * B ≤ INT_MAX.

Lemma elemOK_frame t t' j k :
  0 ≤ k →
  sameElem D t t' (pos j k) → (1 ≤ k → sameElem D t t' (pos j (k - 1))) →
  ok t j k → ok t' j k.
Proof.
  intros Hk Hs Hs' (Hb & H0 & H1). split; [|split].
  - intros d Hd. rewrite Hs by done. by apply Hb.
  - intros -> d Hd. rewrite Hs by done. by apply H0.
  - intros Hk1 d Hd. rewrite Hs, H1 by done.
    apply dpRecurrence_ext; [done|done| |done].
    intros k' Hk'. symmetry. by apply Hs'.
Qed.

Lemma B_nonneg : 0 ≤ B.
Proof. unfold B, stepBound. lia. Qed.

Lemma bound_le k : 0 ≤ k < n → (k + 1) * B ≤ INT_MAX.
Proof.
  intros Hk. pose proof B_nonneg.
  etrans; [|apply Hbound]. apply Z.mul_le_mono_nonneg_r; lia.
Qed.

Lemma disjoint_elems j k j' k' p :
  0 ≤ j < m → 0 ≤ k < n → 0 ≤ j' < m → 0 ≤ k' < n → (j, k) ≠ (j', k') →
  pos j k ≤ p < pos j k + D → ¬ (pos j' k' ≤ p < pos j' k' + D).
Proof.
  intros Hj Hk Hj' Hk' Hne Hp. destruct (Hdisj j k j' k') as [?|?]; try done; lia.
Qed.

(** The scan of line [j], started on a tableau whose element 0 of that
    line holds the costs. *)
Lemma scanLine_spec j t0 :
  0 ≤ j < m → length t0 = length err → ok t0 j 0 →
  ∃ t, scanLine P err (base j) stride n t0 = Some t
    ∧ length t = length err
    ∧ (∀ p, (∀ k, 1 ≤ k < n → ¬ (pos j k ≤ p < pos j k + D)) →
            get t p = get t0 p)
    ∧ (∀ k, 0 ≤ k < n → ok t j k).
Proof.
  intros Hj Hl0 H0. unfold scanLine.
  apply (for_up_inv (λ i t,
    length t = length err
    ∧ (∀ p, (∀ k, 1 ≤ k < i → ¬ (pos j k ≤ p < pos j k + D)) →
            get t p = get t0 p)
    ∧ (∀ k, 0 ≤ k < i → ok t j k))); [done| |].
  - split; [done|]. split; [done|].
    intros k Hk. by replace k with 0 by lia.
  - intros i t Hi (Hl & Hfr & Hok).
    destruct (Hok (i - 1) ltac:(lia)) as (Hbnd & _).
    destruct (computeDynamicStep_spec P err t (pos j (i - 1)) (pos j i)
                (pos j i) (i * B)) as (t' & Ht' & Hl' & Hfr' & Hv').
    + done.
    + rewrite Hl. apply Hrange; lia.
    + rewrite Hl. apply Hrange; lia.
    + fold D. destruct (Hdisj j (i - 1) j i) as [?|?]; try lia.
      intros [=]. lia.
    + apply Hrange; lia.
    + intros k Hk. replace (i * B) with ((i - 1 + 1) * B) by ring.
      by apply Hbnd.
    + intros k Hk. apply Hbytes.
      pose proof (Hrange j i ltac:(lia) ltac:(lia)). fold D in Hk. lia.
    + fold (stepBound P). fold B. replace (i * B + B) with ((i + 1) * B) by ring.
      apply bound_le. lia.
    + fold D in Hfr', Hv'. exists t'. split; [done|].
      split; [congruence|]. split.
      * intros p Hp. rewrite Hfr'; [apply Hfr|].
        -- intros k Hk. apply Hp. lia.
        -- apply Hp. lia.
      * assert (Hsame : ∀ k, 0 ≤ k < i → sameElem D t t' (pos j k)).
        { intros k Hk d Hd. apply Hfr'.
          apply (disjoint_elems j k j i); try lia. intros [=]. lia. }
        intros k Hk. destruct (decide (k = i)) as [->|Hne].
        -- split; [|split].
           ++ intros d Hd. rewrite Hv' by done.
              pose proof (dpRecurrence_bounds D (lambdaStep P)
                (lambdaJump P) (λ k, get t (pos j (i - 1) + k))
                (λ k, get err (pos j i + k)) d (i * B)) as Hb.
              fold (stepBound P) in Hb. fold B in Hb. fold B.
              replace ((i + 1) * B) with (i * B + B) by ring.
              apply Hb; [done|done| |].
              ** intros k Hk'. replace (i * B) with ((i - 1 + 1) * B) by ring.
                 by apply Hbnd.
              ** apply Hbytes.
                 pose proof (Hrange j i ltac:(lia) ltac:(lia)). lia.
           ++ lia.
           ++ intros _ d Hd. rewrite Hv' by done.
              apply dpRecurrence_ext; [done|done| |done].
              intros k Hk'. symmetry. apply Hsame; [lia|done].
        -- apply (elemOK_frame t); [lia| | |apply Hok; lia].
           ++ apply Hsame. lia.
           ++ intros Hk1. apply Hsame. lia.
Qed.

(** The whole sweep: it runs to its end and every element of every line
    holds what the recurrence says. *)
Lemma sweepLines_spec t0 :
  length t0 = length err →
  ∃ t, sweepLines P err base stride m n t0 = Some t
    ∧ length t = length err
    ∧ (∀ j k, 0 ≤ j < m → 0 ≤ k < n → ok t j k).
Proof.
  intros Hl0. unfold sweepLines.
  apply (for_up_inv (λ i t,
    length t = length err
    ∧ (∀ j k, 0 ≤ j < i → 0 ≤ k < n → ok t j k))); [done| |].
  - split; [done|]. intros j k Hj. lia.
  - intros i t Hi (Hl & Hok).
    assert (Hpos0 : pos i 0 = base i) by (unfold pos, linePos; lia).
    pose proof (Hrange i 0 ltac:(lia) ltac:(lia)) as Hr0. rewrite Hpos0 in Hr0.
    destruct (copy_spec err t (base i) (base i) (dispMax P))
      as (t1 & Hc & Hl1 & Hfr1 & Hv1); try (fold D; lia).
    cbn beta. rewrite Hc. cbn [mbind option_bind]. fold D in Hfr1, Hv1.
    destruct (scanLine_spec i t1) as (t2 & -> & Hl2 & Hfr2 & Hok2);
      [lia|congruence| |].
    { split; [|split].
      - intros d Hd. rewrite Hpos0, Hv1 by done.
        pose proof (Hbytes (base i + d) ltac:(lia)). pose proof B_nonneg.
        unfold B, stepBound in *. lia.
      - intros _ d Hd. rewrite Hpos0. by apply Hv1.
      - lia. }
    exists t2. split; [done|]. split; [done|].
    intros j k Hj Hk. destruct (decide (j = i)) as [->|Hne]; [by apply Hok2|].
    assert (Hsame : ∀ k, 0 ≤ k < n → sameElem D t t2 (pos j k)).
    { intros k' Hk' d Hd. rewrite Hfr2, Hfr1; [done| |].
      - rewrite <- Hpos0. apply (disjoint_elems j k' i 0); try lia.
        intros [=]. lia.
      - intros k'' Hk''. apply (disjoint_elems j k' i k''); try lia.
        intros [=]. lia. }
    apply (elemOK_frame t); [lia| | |apply Hok; lia].
    + by apply Hsame.
    + intros Hk1. apply Hsame. lia.
Qed.
End Lines.

(** ** The four sweeps *)

Lemma sweepLeft_lines P err t :
  sweepLeft P err t
  = sweepLines P err (λ v, v * bufferWidth P) (dispMax P)
      (dispHeight P) (dispWidth P) t.
Proof. done. Qed.

Lemma sweepTop_lines P err t :
  sweepTop P err t
  = sweepLines P err (λ u, u * dispMax P) (bufferWidth P)
      (dispWidth P) (dispHeight P) t.
Proof. done. Qed.

Lemma sweepRight_lines P err t :
  sweepRight P err t
  = sweepLines P err
      (λ v, v * bufferWidth P + (dispWidth P - 1) * dispMax P)
      (- dispMax P) (dispHeight P) (dispWidth P) t.
Proof.
  unfold sweepRight, sweepLines. unfold for_up at 1 2.
  apply forM_ext. intros v s _. cbn zeta.
  destruct (copy _ _ _ _ _) as [t'|]; [|done]. cbn [mbind option_bind].
  rewrite for_down_as_up. unfold scanLine, for_up.
  apply forM_ext. intros k s' _. f_equal; ring.
Qed.

Lemma sweepBottom_lines P err t :
  sweepBottom P err t
  = sweepLines P err
      (λ u, u * dispMax P + (dispHeight P - 1) * bufferWidth P)
      (- bufferWidth P) (dispWidth P) (dispHeight P) t.
Proof.
  unfold sweepBottom, sweepLines. unfold for_up at 1 2.
  apply forM_ext. intros u s _. cbn zeta.
  destruct (copy _ _ _ _ _) as [t'|]; [|done]. cbn [mbind option_bind].
  rewrite for_down_as_up. unfold scanLine, for_up.
  apply forM_ext. intros k s' _. f_equal; ring.
Qed.

Lemma pix_range W H D v u :
  1 ≤ D → 0 ≤ v < H → 0 ≤ u < W →
  0 ≤ (v * W + u) * D ∧ (v * W + u) * D + D ≤ H * (W * D).
Proof.
  intros HD Hv Hu.
  assert (0 ≤ v * W + u ∧ v * W + u + 1 ≤ H * W) as [H1 H2] by nia.
  split; [nia|].
  replace ((v * W + u) * D + D) with ((v * W + u + 1) * D) by ring.
  replace (H * (W * D)) with (H * W * D) by ring.
  apply Z.mul_le_mono_nonneg_r; lia.
Qed.

Lemma pix_disjoint W D v u v' u' :
  1 ≤ D → 0 ≤ u < W → 0 ≤ u' < W → (v, u) ≠ (v', u') →
  (v * W + u) * D + D ≤ (v' * W + u') * D
  ∨ (v' * W + u') * D + D ≤ (v * W + u) * D.
Proof.
  intros HD Hu Hu' Hne.
  assert (v * W + u + 1 ≤ v' * W + u' ∨ v' * W + u' + 1 ≤ v * W + u) as [Hq|Hq].
  { destruct (Z.lt_trichotomy v v') as [Hlt|[->|Hgt]].
    - left. nia.
    - assert (u ≠ u') by congruence. lia.
    - right. nia. }
  - left. replace ((v * W + u) * D + D) with ((v * W + u + 1) * D) by ring.
    apply Z.mul_le_mono_nonneg_r; lia.
  - right. replace ((v' * W + u') * D + D) with ((v' * W + u' + 1) * D) by ring.
    apply Z.mul_le_mono_nonneg_r; lia.
Qed.

Lemma sweptFrom_iff P err t (first first' : Prop) v u v' u' :
  (first ↔ first') →
  sweptFrom P err t first v u v' u' → sweptFrom P err t first' v u v' u'.
Proof.
  intros Hiff Hs d Hd. destruct (Hs d Hd) as [H1 H2]. split.
  - intros Hf. apply H1. by apply Hiff.
  - intros Hf. apply H2. intros Hf'. apply Hf. by apply Hiff.
Qed.

(** From an element of a line to the pixel it is. *)
Lemma elemOK_swept P err pos t j k v u v' u' :
  2 ≤ dispMax P → 0 ≤ k →
  pos j k = v * bufferWidth P + u * dispMax P →
  (1 ≤ k → pos j (k - 1) = v' * bufferWidth P + u' * dispMax P) →
  elemOK P err pos t j k →
  sweptFrom P err t (k = 0) v u v' u'.
Proof.
  intros HD Hk Hp Hp' (_ & H0 & H1) d Hd. unfold entry. split.
  - intros ->. rewrite <- Hp. by apply H0.
  - intros Hne. rewrite <- Hp, H1 by (done || lia).
    apply dpRecurrence_ext; [done|done| |].
    + intros d' Hd'. by rewrite Hp' by lia.
    + by rewrite Hp.
Qed.

Section Sweeps.
Context (P : StereoParameters) (err : list Z).
Hypothesis Hwf : wellFormed P err.

Let D := dispMax P.
Let W := dispWidth P.
Let H := dispHeight P.

Lemma wf_bytes p : 0 ≤ p < Z.of_nat (length err) → 0 ≤ get err p ≤ 255.
Proof.
  intros Hp. destruct Hwf as (_ & _ & _ & _ & Hb & _).
  rewrite Forall_lookup in Hb. apply (Hb (Z.to_nat p)).
  unfold get, load. destruct (0 <=? p) eqn:E; [|lia].
  destruct (lookup_lt_is_Some_2 err (Z.to_nat p)) as [x Hx]; [lia|].
  by rewrite Hx.
Qed.

Lemma wf_range v u :
  0 ≤ v < H → 0 ≤ u < W →
  0 ≤ (v * W + u) * D ∧ (v * W + u) * D + D ≤ Z.of_nat (length err).
Proof.
  intros Hv Hu. destruct Hwf as (HD & _ & _ & Hl & _).
  rewrite Hl. unfold bufferWidth. fold H W D. apply pix_range; (done || lia).
Qed.

Lemma wf_bound_W : W * stepBound P ≤ INT_MAX.
Proof.
  destruct Hwf as (_ & _ & _ & _ & _ & Hb). fold W H in Hb.
  assert (0 ≤ stepBound P) by (unfold stepBound; lia).
  etrans; [|apply Hb]. apply Z.mul_le_mono_nonneg_r; lia.
Qed.

Lemma wf_bound_H : H * stepBound P ≤ INT_MAX.
Proof.
  destruct Hwf as (_ & _ & _ & _ & _ & Hb). fold W H in Hb.
  assert (0 ≤ stepBound P) by (unfold stepBound; lia).
  etrans; [|apply Hb]. apply Z.mul_le_mono_nonneg_r; lia.
Qed.

Local Ltac layout :=
  unfold linePos, bufferWidth; fold D W H.

Lemma sweepLeft_spec t0 :
  length t0 = length err →
  ∃ t, sweepLeft P err t0 = Some t ∧ length t = length err
    ∧ ∀ v u, 0 ≤ v < H → 0 ≤ u < W →
        sweptFrom P err t (u = 0) v u v (u - 1).
Proof.
  intros Hl. rewrite sweepLeft_lines.
  pose proof Hwf as (HD & HW & HH & _).
  destruct (sweepLines_spec P err (λ v, v * bufferWidth P) (dispMax P)
              (dispHeight P) (dispWidth P)) with (t0 := t0)
    as (t & Ht & Hlt & Hok); try (done || lia).
  - intros j k Hj Hk. layout.
    replace (j * (W * D) + k * D) with ((j * W + k) * D) by ring.
    by apply wf_range.
  - intros j k j' k' Hj Hk Hj' Hk' Hne. layout.
    replace (j * (W * D) + k * D) with ((j * W + k) * D) by ring.
    replace (j' * (W * D) + k' * D) with ((j' * W + k') * D) by ring.
    apply pix_disjoint; (done || lia).
  - apply wf_bytes.
  - apply wf_bound_W.
  - exists t. split; [done|]. split; [done|]. intros v u Hv Hu.
    eapply elemOK_swept; [done|lia| | |by apply (Hok v u)].
    + done.
    + intros _. done.
Qed.

Lemma sweepRight_spec t0 :
  length t0 = length err →
  ∃ t, sweepRight P err t0 = Some t ∧ length t = length err
    ∧ ∀ v u, 0 ≤ v < H → 0 ≤ u < W →
        sweptFrom P err t (u = W - 1) v u v (u + 1).
Proof.
  intros Hl. rewrite sweepRight_lines.
  pose proof Hwf as (HD & HW & HH & _).
  destruct (sweepLines_spec P err
              (λ v, v * bufferWidth P + (dispWidth P - 1) * dispMax P)
              (- dispMax P) (dispHeight P) (dispWidth P)) with (t0 := t0)
    as (t & Ht & Hlt & Hok); try (done || lia).
  - intros j k Hj Hk. layout.
    replace (j * (W * D) + (W - 1) * D + k * - D)
      with ((j * W + (W - 1 - k)) * D) by ring.
    apply wf_range; lia.
  - intros j k j' k' Hj Hk Hj' Hk' Hne. layout.
    replace (j * (W * D) + (W - 1) * D + k * - D)
      with ((j * W + (W - 1 - k)) * D) by ring.
    replace (j' * (W * D) + (W - 1) * D + k' * - D)
      with ((j' * W + (W - 1 - k')) * D) by ring.
    apply pix_disjoint; try lia. intros [=]. apply Hne. f_equal; lia.
  - apply wf_bytes.
  - apply wf_bound_W.
  - exists t. split; [done|]. split; [done|]. intros v u Hv Hu.
    apply (sweptFrom_iff _ _ _ (W - 1 - u = 0)); [lia|].
    eapply elemOK_swept; [done|lia| | |apply (Hok v (W - 1 - u)); lia].
    + layout. ring.
    + intros _. layout. ring.
Qed.

Lemma sweepTop_spec t0 :
  length t0 = length err →
  ∃ t, sweepTop P err t0 = Some t ∧ length t = length err
    ∧ ∀ v u, 0 ≤ v < H → 0 ≤ u < W →
        sweptFrom P err t (v = 0) v u (v - 1) u.
Proof.
  intros Hl. rewrite sweepTop_lines.
  pose proof Hwf as (HD & HW & HH & _).
  destruct (sweepLines_spec P err (λ u, u * dispMax P) (bufferWidth P)
              (dispWidth P) (dispHeight P)) with (t0 := t0)
    as (t & Ht & Hlt & Hok); try (done || lia).
  - intros j k Hj Hk. layout.
    replace (j * D + k * (W * D)) with ((k * W + j) * D) by ring.
    by apply wf_range.
  - intros j k j' k' Hj Hk Hj' Hk' Hne. layout.
    replace (j * D + k * (W * D)) with ((k * W + j) * D) by ring.
    replace (j' * D + k' * (W * D)) with ((k' * W + j') * D) by ring.
    apply pix_disjoint; try (done || lia). intros [=]. apply Hne. f_equal; lia.
  - apply wf_bytes.
  - apply wf_bound_H.
  - exists t. split; [done|]. split; [done|]. intros v u Hv Hu.
    eapply elemOK_swept; [done|lia| | |by apply (Hok u v)].
    + layout. ring.
    + intros _. layout. ring.
Qed.

Lemma sweepBottom_spec t0 :
  length t0 = length err →
  ∃ t, sweepBottom P err t0 = Some t ∧ length t = length err
    ∧ ∀ v u, 0 ≤ v < H → 0 ≤ u < W →
        sweptFrom P err t (v = H - 1) v u (v + 1) u.
Proof.
  intros Hl. rewrite sweepBottom_lines.
  pose proof Hwf as (HD & HW & HH & _).
  destruct (sweepLines_spec P err
              (λ u, u * dispMax P + (dispHeight P - 1) * bufferWidth P)
              (- bufferWidth P) (dispWidth P) (dispHeight P)) with (t0 := t0)
    as (t & Ht & Hlt & Hok); try (done || lia).
  - intros j k Hj Hk. layout.
    replace (j * D + (H - 1) * (W * D) + k * - (W * D))
      with (((H - 1 - k) * W + j) * D) by ring.
    apply wf_range; lia.
  - intros j k j' k' Hj Hk Hj' Hk' Hne. layout.
    replace (j * D + (H - 1) * (W * D) + k * - (W * D))
      with (((H - 1 - k) * W + j) * D) by ring.
    replace (j' * D + (H - 1) * (W * D) + k' * - (W * D))
      with (((H - 1 - k') * W + j') * D) by ring.
    apply pix_disjoint; try lia. intros [=]. apply Hne. f_equal; lia.
  - apply wf_bytes.
  - apply wf_bound_H.
  - exists t. split; [done|]. split; [done|]. intros v u Hv Hu.
    apply (sweptFrom_iff _ _ _ (H - 1 - v = 0)); [lia|].
    eapply elemOK_swept; [done|lia| | |apply (Hok u (H - 1 - v)); lia].
    + layout. ring.
    + intros _. layout. ring.
Qed.
End Sweeps.

(** ** The recurrence of the four sweeps *)

Lemma computeDynamicProgramming_recurrence_aux (P : StereoParameters)
    (B : Buffers) :
  buffersReady P B →
  ∃ B', computeDynamicProgramming P B = Some B'
    ∧ ∀ v u, 0 ≤ v < dispHeight P → 0 ≤ u < dispWidth P →
        sweptFrom P (errorBuffer B) (tableauLeft B') (u = 0) v u v (u - 1)
        ∧ sweptFrom P (errorBuffer B) (tableauRight B')
                    (u = dispWidth P - 1) v u v (u + 1)
        ∧ sweptFrom P (errorBuffer B) (tableauTop B') (v = 0) v u (v - 1) u
        ∧ sweptFrom P (errorBuffer B) (tableauBottom B')
                    (v = dispHeight P - 1) v u (v + 1) u.
Proof.
  intros (Hwf & Hl & Hr & Ht & Hb). unfold computeDynamicProgramming.
  destruct (sweepLeft_spec P _ Hwf _ Hl) as (tl & -> & _ & Hleft).
  destruct (sweepRight_spec P _ Hwf _ Hr) as (tr & -> & _ & Hright).
  destruct (sweepTop_spec P _ Hwf _ Ht) as (tt & -> & _ & Htop).
  destruct (sweepBottom_spec P _ Hwf _ Hb) as (tb & -> & _ & Hbottom).
  cbn [mbind option_bind]. eexists. split; [done|].
  intros v u Hv Hu. cbn [tableauLeft tableauRight tableauTop tableauBottom].
  auto.
Qed.

(** C2. On buffers of the right size, with at least two disparities and
    penalties that keep the sums within [int],
    [computeDynamicProgramming] runs to its end, leaves the cost volume as
    it was, and in each of the four tableaux the first element of every
    scan is the raw cost and every later element is the raw cost plus the
    minimum of: the previous element at the same disparity, at the
    neighbouring disparities that exist plus [lambdaStep], and its least
    entry plus [lambdaJump].  The scans run by increasing column (left),
    decreasing column (right), increasing row (top) and decreasing row
    (bottom). *)
Theorem computeDynamicProgramming_recurrence (P : StereoParameters)
    (B : Buffers) :
  buffersReady P B →
  ∃ B', computeDynamicProgramming P B = Some B'
    ∧ errorBuffer B' = errorBuffer B
    ∧ ∀ v u, 0 ≤ v < dispHeight P → 0 ≤ u < dispWidth P →
        sweptFrom P (errorBuffer B) (tableauLeft B') (u = 0) v u v (u - 1)
        ∧ sweptFrom P (errorBuffer B) (tableauRight B')
                    (u = dispWidth P - 1) v u v (u + 1)
        ∧ sweptFrom P (errorBuffer B) (tableauTop B') (v = 0) v u (v - 1) u
        ∧ sweptFrom P (errorBuffer B) (tableauBottom B')
                    (v = dispHeight P - 1) v u (v + 1) u.
Proof.
  intros Hr.
  destruct (computeDynamicProgramming_recurrence_aux P B Hr) as (B' & E & H).
  exists B'. split; [done|]. split; [|done].
  revert E. unfold computeDynamicProgramming.
  destruct (sweepLeft _ _ _); [|done]. destruct (sweepRight _ _ _); [|done].
  destruct (sweepTop _ _ _); [|done]. destruct (sweepBottom _ _ _); [|done].
  cbn. by intros [= <-].
Qed.

Lemma smallBuffers_ready : buffersReady smallParams smallBuffers.
Proof.
  split; [|by repeat split].
  split; [cbn; lia|]. split; [cbn; lia|]. split; [cbn; lia|].
  split; [done|]. split.
  - repeat constructor; cbn; lia.
  - by vm_compute.
Qed.

Lemma computeDynamicProgramming_recurrence_witness :
  buffersReady smallParams smallBuffers
  ∧ ∃ B', computeDynamicProgramming smallParams smallBuffers = Some B'
    ∧ errorBuffer B' = errorBuffer smallBuffers
    ∧ ∀ v u, 0 ≤ v < dispHeight smallParams → 0 ≤ u < dispWidth smallParams →
        sweptFrom smallParams (errorBuffer smallBuffers) (tableauLeft B')
                  (u = 0) v u v (u - 1)
        ∧ sweptFrom smallParams (errorBuffer smallBuffers) (tableauRight B')
                    (u = dispWidth smallParams - 1) v u v (u + 1)
        ∧ sweptFrom smallParams (errorBuffer smallBuffers) (tableauTop B')
                    (v = 0) v u (v - 1) u
        ∧ sweptFrom smallParams (errorBuffer smallBuffers) (tableauBottom B')
                    (v = dispHeight smallParams - 1) v u (v + 1) u.
Proof.
  split; [exact smallBuffers_ready|].
  exact (computeDynamicProgramming_recurrence smallParams smallBuffers
           smallBuffers_ready).
Defined.

(** ** Monotonicity in the jump penalty *)

Lemma wellFormed_setLambdaJump_entry P j buf v u d :
  entry (setLambdaJump P j) buf v u d = entry P buf v u d.
Proof. done. Qed.

(** Two tableaux swept over the same costs in the same order, the second
    with the larger jump penalty: the second is nowhere below the first.
    [rank] counts the pixels a scan has passed before it reaches a pixel. *)
Lemma swept_mono P j err t1 t2 (dom : Z → Z → Prop) (first : Z → Z → Prop)
    (pv pu rank : Z → Z → Z) :
  2 ≤ dispMax P → lambdaJump P ≤ j →
  (∀ v u, dom v u → sweptFrom P err t1 (first v u) v u (pv v u) (pu v u)) →
  (∀ v u, dom v u →
     sweptFrom (setLambdaJump P j) err t2 (first v u) v u (pv v u) (pu v u)) →
  (∀ v u, dom v u → 0 ≤ rank v u ∧ (first v u ↔ rank v u = 0)) →
  (∀ v u, dom v u → ¬ first v u →
     dom (pv v u) (pu v u) ∧ rank (pv v u) (pu v u) = rank v u - 1) →
  ∀ v u d, dom v u → 0 ≤ d < dispMax P →
    entry P t1 v u d ≤ entry P t2 v u d.
Proof.
  intros HD Hj H1 H2 Hrank Hprev.
  assert (Hind : ∀ n : nat, ∀ v u, dom v u → rank v u = Z.of_nat n →
            ∀ d, 0 ≤ d < dispMax P → entry P t1 v u d ≤ entry P t2 v u d).
  { induction n as [|n IH]; intros v u Hdom Hr d Hd.
    - destruct (Hrank v u Hdom) as [_ Hf].
      assert (Hfirst : first v u) by (by apply Hf).
      destruct (H1 v u Hdom d Hd) as [E1 _].
      destruct (H2 v u Hdom d Hd) as [E2 _].
      rewrite !wellFormed_setLambdaJump_entry in E2.
      rewrite E1, E2 by done. done.
    - destruct (Hrank v u Hdom) as [_ Hf].
      assert (Hnf : ¬ first v u) by (rewrite Hf; lia).
      destruct (Hprev v u Hdom Hnf) as [Hdom' Hr'].
      destruct (H1 v u Hdom d Hd) as [_ E1]. rewrite (E1 Hnf).
      destruct (H2 v u Hdom d Hd) as [_ E]. specialize (E Hnf).
      change (entry P t2 v u d
              = dpRecurrence (dispMax P) (lambdaStep P) j
                  (entry P t2 (pv v u) (pu v u)) (entry P err v u) d) in E.
      rewrite E. apply dpRecurrence_mono; [done|done|done|].
      intros k Hk. apply IH; [done|lia|done]. }
  intros v u d Hdom Hd. destruct (Hrank v u Hdom) as [Hr _].
  apply (Hind (Z.to_nat (rank v u))); [done|lia|done].
Qed.

(** C7. For a fixed cost volume and two jump penalties [j1 <= j2], both
    accepted by the buffers, the sweeps run to their end with either
    penalty and every entry of each of the four tableaux computed with
    [j2] is greater than or equal to the entry computed with [j1]. *)
Theorem lambdaJump_monotone (P : StereoParameters) (B : Buffers) (j1 j2 : Z) :
  j1 ≤ j2 →
  buffersReady (setLambdaJump P j1) B →
  buffersReady (setLambdaJump P j2) B →
  ∃ B1 B2,
    computeDynamicProgramming (setLambdaJump P j1) B = Some B1
    ∧ computeDynamicProgramming (setLambdaJump P j2) B = Some B2
    ∧ ∀ v u d, 0 ≤ v < dispHeight P → 0 ≤ u < dispWidth P →
        0 ≤ d < dispMax P →
        entry P (tableauLeft B1) v u d ≤ entry P (tableauLeft B2) v u d
        ∧ entry P (tableauRight B1) v u d ≤ entry P (tableauRight B2) v u d
        ∧ entry P (tableauTop B1) v u d ≤ entry P (tableauTop B2) v u d
        ∧ entry P (tableauBottom B1) v u d ≤ entry P (tableauBottom B2) v u d.
Proof.
  intros Hj Hr1 Hr2.
  destruct (computeDynamicProgramming_recurrence_aux _ _ Hr1) as (B1 & E1 & H1).
  destruct (computeDynamicProgramming_recurrence_aux _ _ Hr2) as (B2 & E2 & H2).
  exists B1, B2. split; [done|]. split; [done|].
  destruct Hr1 as ((HD & HW & HH & _) & _). cbn in HD, HW, HH.
  set (P1 := setLambdaJump P j1) in *.
  set (dom := λ v u, 0 ≤ v < dispHeight P ∧ 0 ≤ u < dispWidth P).
  assert (HP2 : setLambdaJump P j2 = setLambdaJump P1 j2) by done.
  rewrite HP2 in H2.
  intros v u d Hv Hu Hd.
  change (entry P) with (entry P1).
  split; [|split; [|split]].
  - apply (swept_mono P1 j2 (errorBuffer B) _ _ dom (λ v u, u = 0)
             (λ v u, v) (λ v u, u - 1) (λ v u, u)); try done.
    + intros v' u' [Hv' Hu']. by apply H1.
    + intros v' u' [Hv' Hu']. by apply H2.
    + intros v' u' [Hv' Hu']. lia.
    + intros v' u' [Hv' Hu'] Hnf. unfold dom. lia.
  - apply (swept_mono P1 j2 (errorBuffer B) _ _ dom
             (λ v u, u = dispWidth P - 1)
             (λ v u, v) (λ v u, u + 1) (λ v u, dispWidth P - 1 - u)); try done.
    + intros v' u' [Hv' Hu']. by apply H1.
    + intros v' u' [Hv' Hu']. by apply H2.
    + intros v' u' [Hv' Hu']. lia.
    + intros v' u' [Hv' Hu'] Hnf. unfold dom. lia.
  - apply (swept_mono P1 j2 (errorBuffer B) _ _ dom (λ v u, v = 0)
             (λ v u, v - 1) (λ v u, u) (λ v u, v)); try done.
    + intros v' u' [Hv' Hu']. by apply H1.
    + intros v' u' [Hv' Hu']. by apply H2.
    + intros v' u' [Hv' Hu']. lia.
    + intros v' u' [Hv' Hu'] Hnf. unfold dom. lia.
  - apply (swept_mono P1 j2 (errorBuffer B) _ _ dom
             (λ v u, v = dispHeight P - 1)
             (λ v u, v + 1) (λ v u, u) (λ v u, dispHeight P - 1 - v)); try done.
    + intros v' u' [Hv' Hu']. by apply H1.
    + intros v' u' [Hv' Hu']. by apply H2.
    + intros v' u' [Hv' Hu']. lia.
    + intros v' u' [Hv' Hu'] Hnf. unfold dom. lia.
Qed.

Lemma smallBuffers_ready_jump j :
  0 ≤ j ≤ 1000 → buffersReady (setLambdaJump smallParams j) smallBuffers.
Proof.
  intros Hj. split; [|by repeat split].
  split; [cbn; lia|]. split; [cbn; lia|]. split; [cbn; lia|].
  split; [done|]. split.
  - repeat constructor; cbn; lia.
  - unfold stepBound, INT_MAX. cbn [setLambdaJump smallParams dispWidth
      dispHeight lambdaStep lambdaJump]. lia.
Qed.

Lemma lambdaJump_monotone_witness :
  ∃ B1 B2,
    computeDynamicProgramming (setLambdaJump smallParams 10) smallBuffers
      = Some B1
    ∧ computeDynamicProgramming (setLambdaJump smallParams 50) smallBuffers
      = Some B2
    ∧ ∀ v u d, 0 ≤ v < dispHeight smallParams →
        0 ≤ u < dispWidth smallParams → 0 ≤ d < dispMax smallParams →
        entry smallParams (tableauLeft B1) v u d
          ≤ entry smallParams (tableauLeft B2) v u d
        ∧ entry smallParams (tableauRight B1) v u d
          ≤ entry smallParams (tableauRight B2) v u d
        ∧ entry smallParams (tableauTop B1) v u d
          ≤ entry smallParams (tableauTop B2) v u d
        ∧ entry smallParams (tableauBottom B1) v u d
          ≤ entry smallParams (tableauBottom B2) v u d.
Proof.
  apply (lambdaJump_monotone smallParams smallBuffers 10 50).
  - lia.
  - apply smallBuffers_ready_jump. lia.
  - apply smallBuffers_ready_jump. lia.
Defined.

(** ** The fusion and its starting value *)

Lemma reconstructPixel_spec P B v u (m : list Z * list Z) (f : Z → Z) :
  0 ≤ dispMax P ≤ 256 →
  0 ≤ v * dispWidth P + u < Z.of_nat (length m.1) →
  length m.2 = length m.1 →
  (∀ d, 0 ≤ d < dispMax P →
     fusedScore B (v * bufferWidth P + (u * dispMax P + d)) = Some (f d)) →
  ∃ m', reconstructPixel P B v u m = Some m'
    ∧ length m'.1 = length m.1 ∧ length m'.2 = length m.1
    ∧ (∀ q, q ≠ v * dispWidth P + u → get m'.1 q = get m.1 q)
    ∧ selected f (dispMax P) (get m'.1 (v * dispWidth P + u)).
Proof.
  intros HD Hpx Hlen Hf. unfold reconstructPixel.
  set (px := v * dispWidth P + u) in *.
  rewrite store_Some by done. cbn [mbind option_bind].
  set (Inv := λ (i : Z) (s : Search),
    length (dispMat s) = length m.1 ∧ length (errFinalMat s) = length m.1
    ∧ (∀ q, q ≠ px → get (dispMat s) q = get m.1 q)
    ∧ ((bestCost s = 100000 ∧ (∀ d, 0 ≤ d < i → 100000 ≤ f d)
        ∧ get (dispMat s) px = 0)
       ∨ (0 ≤ get (dispMat s) px < i
          ∧ bestCost s = f (get (dispMat s) px) ∧ bestCost s < 100000
          ∧ (∀ d, 0 ≤ d < i → bestCost s ≤ f d)
          ∧ (∀ d, 0 ≤ d < get (dispMat s) px → bestCost s < f d)))).
  destruct (for_up_inv Inv 0 (dispMax P)
              (reconstructStep B px (v * bufferWidth P) (u * dispMax P))
              {| bestCost := 100000; dispMat := <[Z.to_nat px := 0]> m.1;
                 errFinalMat := m.2 |})
    as (s & -> & Hl1 & Hl2 & Hframe & Hsel); [lia| | |].
  - unfold Inv. cbn [bestCost dispMat errFinalMat].
    rewrite length_insert. split; [done|]. split; [done|]. split.
    { intros q Hq. by rewrite get_insert_ne by lia. }
    left. split; [done|]. split; [lia|]. by rewrite get_insert_eq.
  - intros i s Hi (Hl1 & Hl2 & Hframe & Hsel).
    unfold reconstructStep. rewrite Hf by done. cbn [mbind option_bind].
    destruct (f i <? bestCost s) eqn:E.
    + apply Z.ltb_lt in E.
      rewrite (store_Some (dispMat s)) by (rewrite Hl1; lia).
      cbn [mbind option_bind].
      rewrite (store_Some (errFinalMat s)) by (rewrite Hl2; lia).
      cbn [mbind option_bind].
      eexists. split; [done|]. unfold Inv. cbn [bestCost dispMat errFinalMat].
      rewrite !length_insert. split; [done|]. split; [done|]. split.
      { intros q Hq. rewrite get_insert_ne by lia. by apply Hframe. }
      right. rewrite get_insert_eq by (rewrite Hl1; lia).
      unfold to_uint8. rewrite Z.mod_small by lia.
      split; [lia|]. split; [done|].
      destruct Hsel as [(Hb & Hall & _)|(_ & _ & Hlt & Hall & _)].
      * split; [lia|]. split.
        { intros d Hd. destruct (decide (d = i)) as [->|]; [lia|].
          specialize (Hall d ltac:(lia)). lia. }
        intros d Hd. specialize (Hall d ltac:(lia)). lia.
      * split; [lia|]. split.
        { intros d Hd. destruct (decide (d = i)) as [->|]; [lia|].
          specialize (Hall d ltac:(lia)). lia. }
        intros d Hd. specialize (Hall d ltac:(lia)). lia.
    + apply Z.ltb_ge in E. eexists. split; [done|].
      split; [done|]. split; [done|]. split; [done|].
      destruct Hsel as [(Hb & Hall & H0)|(Hr & Hb & Hlt & Hall & Hfirst)].
      * left. split; [done|]. split; [|done].
        intros d Hd. destruct (decide (d = i)) as [->|]; [lia|].
        apply Hall. lia.
      * right. split; [lia|]. split; [done|]. split; [done|]. split; [|done].
        intros d Hd. destruct (decide (d = i)) as [->|]; [lia|].
        apply Hall. lia.
  - cbn [mbind option_bind]. eexists. split; [done|]. cbn [fst snd].
    split; [done|]. split; [done|]. split; [done|].
    destruct Hsel as [(Hb & Hall & H0)|(Hr & Hb & Hlt & Hall & Hfirst)].
    + by left.
    + right. rewrite <- Hb. split; [done|]. split; [done|]. by split.
Qed.

(** The fusion runs to its end when every fused score can be computed, and
    the disparity it stores for a pixel is the first one of least fused
    score when some score of the pixel is below 100000, and 0 otherwise. *)
Lemma reconstructDisparity_spec P B (f : Z → Z → Z → Z) :
  0 ≤ dispMax P ≤ 256 → 0 ≤ dispWidth P → 0 ≤ dispHeight P →
  Z.of_nat (length (smallDisparity B)) = dispHeight P * dispWidth P →
  (∀ v u d, 0 ≤ v < dispHeight P → 0 ≤ u < dispWidth P → 0 ≤ d < dispMax P →
     fusedScore B (v * bufferWidth P + (u * dispMax P + d))
     = Some (f v u d)) →
  ∃ r, reconstructDisparity P B = Some r
    ∧ length r.1 = length (smallDisparity B)
    ∧ ∀ v u, 0 ≤ v < dispHeight P → 0 ≤ u < dispWidth P →
        selected (f v u) (dispMax P) (get r.1 (v * dispWidth P + u)).
Proof.
  intros HD HW HH Hlen Hf. unfold reconstructDisparity.
  set (n := length (smallDisparity B)) in *.
  set (Done := λ (v u : Z) (m : list Z * list Z),
    length m.1 = n ∧ length m.2 = n
    ∧ ∀ v' u', 0 ≤ v' → 0 ≤ u' < dispWidth P →
        v' < v ∨ (v' = v ∧ u' < u) →
        selected (f v' u') (dispMax P) (get m.1 (v' * dispWidth P + u'))).
  destruct (for_up_inv (λ v m, Done v 0 m) 0 (dispHeight P)
              (λ v m, for_up 0 (dispWidth P) (reconstructPixel P B v) m)
              (smallDisparity B, replicate n 0))
    as (r & -> & Hlr & _ & Hr); [lia| | |].
  - split; [done|]. split; [cbn [snd]; by rewrite length_replicate|].
    intros v' u' Hv' Hu' Hlt. lia.
  - intros v m Hv Hm.
    destruct (for_up_inv (λ u m, Done v u m) 0 (dispWidth P)
                (reconstructPixel P B v) m)
      as (m' & -> & Hl1 & Hl2 & Hm'); [lia|done| |].
    + intros u t Hu (Hl1 & Hl2 & Ht).
      destruct (reconstructPixel_spec P B v u t (f v u))
        as (t' & -> & Hl1' & Hl2' & Hframe & Hsel); [done| |congruence| |].
      { rewrite Hl1. nia. }
      { intros d Hd. by apply Hf. }
      eexists. split; [done|]. split; [congruence|]. split; [congruence|].
      intros v' u' Hv' Hu' Hlt.
      destruct (decide (v' = v ∧ u' = u)) as [[-> ->]|Hne]; [done|].
      rewrite Hframe by nia. apply Ht; [done..|lia].
    + eexists. split; [done|]. split; [done|]. split; [done|].
      intros v' u' Hv' Hu' Hlt. apply Hm'; [done..|lia].
  - exists r. split; [done|]. split; [done|].
    intros v u Hv Hu. apply Hr; lia.
Qed.

Lemma wideTableaux_computed :
  computeDynamicProgramming wideParams wideBuffers = Some wideTableaux.
Proof. vm_compute. reflexivity. Qed.

Lemma wideDisparity_computed :
  reconstructDisparity wideParams wideTableaux = Some wideDisparity.
Proof. vm_compute. reflexivity. Qed.

(** C1, on the cost volume [wideCosts].  The sweeps and the fusion run to
    their end; at pixel 200 the fused score is 101866 at disparity 0 and
    101854 at disparity 1, both above the starting value 100000 of
    [bestCost], and the disparity stored for the pixel is 0, whose fused
    score is not the least. *)
Theorem reconstructDisparity_keeps_zero :
  ∃ B r,
    computeDynamicProgramming wideParams wideBuffers = Some B
    ∧ reconstructDisparity wideParams B = Some r
    ∧ fusedScore B (200 * dispMax wideParams + 0) = Some 101866
    ∧ fusedScore B (200 * dispMax wideParams + 1) = Some 101854
    ∧ load r.1 200 = Some 0.
Proof.
  exists wideTableaux, wideDisparity.
  split; [exact wideTableaux_computed|].
  split; [exact wideDisparity_computed|].
  split; [vm_compute; reflexivity|].
  split; vm_compute; reflexivity.
Qed.

(** ** Rounding in binary64 *)

Lemma bpow_pos e : (0 < bpow e)%R.
Proof. apply powerRZ_lt. lra. Qed.

Lemma bpow_add a b : bpow (a + b) = (bpow a * bpow b)%R.
Proof. apply powerRZ_add. lra. Qed.

Lemma bpow_IZR e : 0 ≤ e → bpow e = IZR (2 ^ e).
Proof.
  intros He. destruct e as [|p|p]; [done| |lia].
  unfold bpow, powerRZ. rewrite <- (positive_nat_Z p).
  by rewrite <- pow_IZR.
Qed.

Lemma bpow_le a b : a ≤ b → (bpow a <= bpow b)%R.
Proof.
  intros Hab. replace b with (a + (b - a)) by lia.
  rewrite bpow_add, (bpow_IZR (b - a)) by lia.
  assert (H1 : 1 ≤ 2 ^ (b - a)) by (pose proof (Z.pow_pos_nonneg 2 (b - a)); lia).
  apply IZR_le in H1. pose proof (bpow_pos a). nra.
Qed.

Lemma bpow_succ e : bpow (e + 1) = (2 * bpow e)%R.
Proof. rewrite bpow_add, (bpow_IZR 1) by lia. change (2 ^ 1) with 2. lra. Qed.

(** [m * 2 ^ e] at a lower exponent. *)
Lemma bpow_shift (m e e' : Z) :
  e' ≤ e → (IZR m * bpow e = IZR (m * 2 ^ (e - e')) * bpow e')%R.
Proof.
  intros He. replace e with (e' + (e - e')) at 1 by lia.
  rewrite bpow_add, (bpow_IZR (e - e')) by lia. rewrite mult_IZR. lra.
Qed.

(** *** The number of digits of a mantissa *)

Lemma digits2_pos_spec m :
  2 ^ (Zpos (digits2_pos m) - 1) ≤ Zpos m < 2 ^ Zpos (digits2_pos m).
Proof.
  induction m as [m IH|m IH|]; cbn [digits2_pos].
  - rewrite Pos2Z.inj_succ.
    replace (Z.succ (Zpos (digits2_pos m)) - 1)
      with (Z.succ (Zpos (digits2_pos m) - 1)) by lia.
    rewrite !Z.pow_succ_r by lia. lia.
  - rewrite Pos2Z.inj_succ.
    replace (Z.succ (Zpos (digits2_pos m)) - 1)
      with (Z.succ (Zpos (digits2_pos m) - 1)) by lia.
    rewrite !Z.pow_succ_r by lia. lia.
  - cbn. lia.
Qed.

Lemma digits2_pos_unique m d :
  2 ^ (d - 1) ≤ Zpos m < 2 ^ d → Zpos (digits2_pos m) = d.
Proof.
  intros [Hlo Hhi]. pose proof (digits2_pos_spec m) as [Slo Shi].
  set (k := Zpos (digits2_pos m)) in *.
  assert (Hd : 1 ≤ d).
  { destruct (Z.le_gt_cases d 0) as [Hd|Hd]; [|lia].
    assert (2 ^ d ≤ 1); [|lia].
    destruct d as [|p|p]; [done|lia|]. by rewrite Z.pow_neg_r. }
  destruct (Z.lt_trichotomy k d) as [Hk|[Hk|Hk]]; [|done|].
  - pose proof (Z.pow_le_mono_r 2 k (d - 1)). lia.
  - pose proof (Z.pow_le_mono_r 2 d (k - 1)). lia.
Qed.

(** A mantissa below [2 ^ 53] has at most 53 digits. *)
Lemma digits2_pos_le m d :
  0 ≤ d → Zpos m < 2 ^ d → Zpos (digits2_pos m) ≤ d.
Proof.
  intros Hd Hm. pose proof (digits2_pos_spec m) as [Slo _].
  destruct (Z.le_gt_cases (Zpos (digits2_pos m)) d) as [|Hk]; [done|].
  pose proof (Z.pow_le_mono_r 2 d (Zpos (digits2_pos m) - 1)). lia.
Qed.

Lemma digits2_pos_ge m d :
  2 ^ (d - 1) ≤ Zpos m → d ≤ Zpos (digits2_pos m).
Proof.
  intros Hm. pose proof (digits2_pos_spec m) as [_ Shi].
  destruct (Z.le_gt_cases d (Zpos (digits2_pos m))) as [|Hk]; [done|].
  pose proof (Z.pow_le_mono_r 2 (Zpos (digits2_pos m)) (d - 1)). lia.
Qed.

(** What [bounded] says of a mantissa and its exponent. *)
Lemma bounded_spec m e :
  bounded prec emax m e = true →
  -1074 ≤ e ≤ 971 ∧ Zpos m < 2 ^ 53 ∧ (-1074 < e → 2 ^ 52 ≤ Zpos m).
Proof.
  unfold bounded, canonical_mantissa, fexp, emin, prec, emax.
  intros [Hc He%Z.leb_le]%andb_true_iff. apply Z.eqb_eq in Hc.
  pose proof (digits2_pos_spec m) as [Slo Shi].
  set (d := Zpos (digits2_pos m)) in *.
  split; [lia|]. split.
  - pose proof (Z.pow_le_mono_r 2 d 53). lia.
  - intros Hn. assert (d = 53) as -> by lia. done.
Qed.

Lemma Rfloat_lt_top F : Rfloat F → (0 <= F < bpow emax)%R.
Proof.
  intros [->|(m & e & Hb & ->)].
  - pose proof (bpow_pos emax). lra.
  - destruct (bounded_spec m e Hb) as (He & Hm & _).
    pose proof (bpow_pos e) as Hp.
    assert (H0 : (0 < IZR (Zpos m))%R) by (apply IZR_lt; lia).
    split; [nra|].
    assert (H53 : (IZR (Zpos m) < IZR (2 ^ 53))%R) by (by apply IZR_lt).
    pose proof (bpow_le e 971 ltac:(lia)) as Hle.
    assert (Htop : bpow emax = (IZR (2 ^ 53) * bpow 971)%R).
    { unfold emax. replace 1024 with (971 + 53) by lia.
      rewrite bpow_add, (bpow_IZR 53) by lia. lra. }
    rewrite Htop. pose proof (bpow_pos 971). nra.
Qed.

(** The dyadic numbers within the format are [double]s. *)
Lemma Rfloat_dyadic k e :
  0 < k < 2 ^ 53 → -1074 ≤ e ≤ 971 → Rfloat (IZR k * bpow e).
Proof.
  intros Hk He. right. destruct k as [|p|p]; [lia| |lia].
  pose proof (digits2_pos_spec p) as [Slo Shi].
  pose proof (digits2_pos_le p 53 ltac:(lia) ltac:(lia)) as Hd.
  set (d := Zpos (digits2_pos p)) in *.
  set (ec := Z.max (d + e - 53) (-1074)).
  assert (Hec : ec ≤ e) by lia.
  assert (Hpos : 0 < Zpos p * 2 ^ (e - ec)).
  { pose proof (Z.pow_pos_nonneg 2 (e - ec)). lia. }
  destruct (Zpos p * 2 ^ (e - ec)) as [|mc|mc] eqn:Emc; [lia| |lia].
  exists mc, ec. split.
  - assert (Hdc : Zpos (digits2_pos mc) = d + (e - ec)).
    { apply digits2_pos_unique. rewrite <- Emc.
      replace (d + (e - ec) - 1) with ((d - 1) + (e - ec)) by lia.
      rewrite !Z.pow_add_r by lia.
      pose proof (Z.pow_pos_nonneg 2 (e - ec)). nia. }
    unfold bounded, canonical_mantissa, fexp, emin, prec, emax.
    rewrite Hdc. apply andb_true_iff. split; [apply Z.eqb_eq|apply Z.leb_le]; lia.
  - rewrite <- Emc. by apply bpow_shift.
Qed.

(** *** The shift register *)

Lemma shr_1_holds mrs e x :
  shr_holds mrs e x →
  shr_holds (shr_1 mrs) (e + 1) x
  ∧ 2 * shr_m (shr_1 mrs) ≤ shr_m mrs < 2 * (shr_m (shr_1 mrs) + 1).
Proof.
  destruct mrs as [m r s]. unfold shr_holds. cbn [shr_m shr_r shr_s].
  intros (Hm & Hx & Hex). rewrite bpow_succ. pose proof (bpow_pos e) as Hp.
  rewrite plus_IZR in Hx.
  destruct m as [|[p|p|]|p]; cbn [shr_1 shr_m shr_r shr_s]; try lia.
  - split; [|lia]. split; [done|]. split; [rewrite plus_IZR; lra|].
    intros Hz. destruct Hex as [-> ->]; [lra|done].
  - rewrite plus_IZR. rewrite Pos2Z.inj_xI, plus_IZR, mult_IZR in Hx, Hex.
    split; [|lia]. split; [lia|]. split; [nra|]. intros Hz. nra.
  - rewrite plus_IZR. rewrite Pos2Z.inj_xO, mult_IZR in Hx, Hex.
    split; [|lia]. split; [lia|]. split; [nra|].
    intros Hz. destruct Hex as [-> ->]; [nra|done].
  - rewrite plus_IZR. split; [|lia]. split; [lia|]. split; [nra|].
    intros Hz. nra.
Qed.

Lemma iter_shr_1_holds p : ∀ mrs e x,
  shr_holds mrs e x →
  shr_holds (SpecFloat.iter_pos shr_1 p mrs) (e + Zpos p) x
  ∧ 2 ^ Zpos p * shr_m (SpecFloat.iter_pos shr_1 p mrs) ≤ shr_m mrs
    < 2 ^ Zpos p * (shr_m (SpecFloat.iter_pos shr_1 p mrs) + 1).
Proof.
  induction p as [p IH|p IH|]; intros mrs e x H; cbn [SpecFloat.iter_pos].
  - destruct (shr_1_holds mrs e x H) as [H1 B1].
    destruct (IH _ _ _ H1) as [H2 B2]. destruct (IH _ _ _ H2) as [H3 B3].
    replace (e + Zpos p~1) with (e + 1 + Zpos p + Zpos p) by lia.
    split; [done|].
    replace (Zpos p~1) with (1 + Zpos p + Zpos p) by lia.
    rewrite !Z.pow_add_r by lia. change (2 ^ 1) with 2.
    pose proof (Z.pow_pos_nonneg 2 (Zpos p)). nia.
  - destruct (IH _ _ _ H) as [H2 B2]. destruct (IH _ _ _ H2) as [H3 B3].
    replace (e + Zpos p~0) with (e + Zpos p + Zpos p) by lia.
    split; [done|].
    replace (Zpos p~0) with (Zpos p + Zpos p) by lia.
    rewrite !Z.pow_add_r by lia.
    pose proof (Z.pow_pos_nonneg 2 (Zpos p)). nia.
  - destruct (shr_1_holds mrs e x H) as [H1 B1]. split; [done|].
    change (2 ^ 1) with 2. lia.
Qed.

(** The first step of a rounding: the mantissa at the exponent of the
    format. *)
Lemma shr_fexp_holds m e l x :
  0 ≤ m →
  (IZR m * bpow e <= x < IZR (m + 1) * bpow e)%R →
  (x = (IZR m * bpow e)%R → l = loc_Exact) →
  ∃ mrs e',
    shr_fexp prec emax m e l = (mrs, e')
    ∧ e' = Z.max e (fexp prec emax (Zdigits2 m + e))
    ∧ shr_holds mrs e' x
    ∧ 2 ^ (e' - e) * shr_m mrs ≤ m < 2 ^ (e' - e) * (shr_m mrs + 1).
Proof.
  intros Hm Hx Hex.
  assert (H0 : shr_holds (shr_record_of_loc m l) e x).
  { unfold shr_holds.
    assert (Hrec : shr_m (shr_record_of_loc m l) = m)
      by (by destruct l as [|[]]).
    rewrite Hrec. split; [done|]. split; [done|].
    intros Hz. by rewrite (Hex Hz). }
  assert (Hrec : shr_m (shr_record_of_loc m l) = m)
    by (by destruct l as [|[]]).
  unfold shr_fexp, shr.
  destruct (fexp prec emax (Zdigits2 m + e) - e) as [|p|p] eqn:En.
  - eexists _, _. split; [done|]. split; [lia|]. split; [done|].
    replace (e - e) with 0 by lia. rewrite Hrec. change (2 ^ 0) with 1. lia.
  - destruct (iter_shr_1_holds p _ _ _ H0) as [H1 B1].
    eexists _, _. split; [done|]. split; [lia|]. split; [done|].
    replace (e + Zpos p - e) with (Zpos p) by lia. by rewrite Hrec in B1.
  - eexists _, _. split; [done|]. split; [lia|]. split; [done|].
    replace (e - e) with 0 by lia. rewrite Hrec. change (2 ^ 0) with 1. lia.
Qed.

(** *** Rounding to the format *)

(** A multiple of [2 ^ e1] next to [x], at the exponent that the format
    gives to [x], is on the same side of every [double] as [x]. *)
Lemma grid_rounds m1 m2 e1 x F :
  -1074 ≤ e1 → 0 ≤ m1 → (-1074 < e1 → 2 ^ 52 ≤ m1) →
  (IZR m1 * bpow e1 <= x < IZR (m1 + 1) * bpow e1)%R →
  m2 = m1 ∨ (m2 = m1 + 1 ∧ x ≠ (IZR m1 * bpow e1)%R) →
  Rfloat F →
  ((x <= F)%R → (IZR m2 * bpow e1 <= F)%R)
  ∧ ((F <= x)%R → (F <= IZR m2 * bpow e1)%R).
Proof.
  intros He1 Hm1 Hnorm Hx Hm2 HF. pose proof (bpow_pos e1) as Hb.
  assert (H0 : (0 <= IZR m1)%R) by (apply IZR_le; lia).
  rewrite plus_IZR in Hx.
  assert (Hy : (IZR m2 = IZR m1
                ∨ (IZR m2 = IZR m1 + 1 ∧ IZR m1 * bpow e1 < x))%R).
  { destruct Hm2 as [->|[-> Hne]]; [by left|right].
    rewrite plus_IZR. split; [done|]. lra. }
  clear Hm2. destruct HF as [->|(mf & ef & Hbd & ->)].
  - split; intros HxF; destruct Hy as [E|[E Hlt]]; rewrite E; nra.
  - destruct (bounded_spec mf ef Hbd) as (Hef & Hmf & Hnf).
    destruct (Z.le_gt_cases e1 ef) as [Hle|Hgt].
    + rewrite (bpow_shift (Zpos mf) ef e1 Hle).
      set (K := Zpos mf * 2 ^ (ef - e1)). split; intros HxF.
      * destruct Hy as [E|[E Hlt]]; rewrite E; [nra|].
        assert (Hlt' : (IZR m1 < IZR K)%R) by nra. apply lt_IZR in Hlt'.
        assert (Hle' : (IZR (m1 + 1) <= IZR K)%R) by (apply IZR_le; lia).
        rewrite plus_IZR in Hle'. nra.
      * assert (Hlt' : (IZR K < IZR (m1 + 1))%R) by (rewrite plus_IZR; nra).
        apply lt_IZR in Hlt'.
        assert (Hle' : (IZR K <= IZR m1)%R) by (apply IZR_le; lia).
        destruct Hy as [E|[E Hlt]]; rewrite E; nra.
    + assert (Hn : 2 ^ 52 ≤ m1) by (apply Hnorm; lia).
      assert (HF : (IZR (Zpos mf) * bpow ef < IZR m1 * bpow e1)%R).
      { apply IZR_le in Hn.
        assert (Hmf' : Zpos mf < 2 * 2 ^ 52) by exact Hmf.
        apply IZR_lt in Hmf'. rewrite mult_IZR in Hmf'.
        set (P := IZR (2 ^ 52)) in *.
        pose proof (bpow_le ef (e1 - 1) ltac:(lia)) as Hle.
        assert (Hs : bpow e1 = (2 * bpow (e1 - 1))%R).
        { replace e1 with (e1 - 1 + 1) at 1 by lia. apply bpow_succ. }
        pose proof (bpow_pos ef) as Hpf. pose proof (bpow_pos (e1 - 1)) as Hp1.
        assert (H1 : (0 < IZR (Zpos mf))%R) by (apply IZR_lt; lia).
        rewrite Hs.
        apply Rlt_le_trans with (2 * P * bpow ef)%R; [nra|].
        apply Rle_trans with (2 * P * bpow (e1 - 1))%R; [nra|nra]. }
      split; intros HxF; [lra|]. destruct Hy as [E|[E Hlt]]; rewrite E; nra.
Qed.

(** The rounding of a number given by its integer part [mx] at the
    exponent [ex], no higher than the format asks. *)
Lemma binary_round_aux_rounds sx mx ex lx x :
  0 ≤ mx → ex ≤ fexp prec emax (Zdigits2 mx + ex) →
  (IZR mx * bpow ex <= x < IZR (mx + 1) * bpow ex)%R →
  (x = (IZR mx * bpow ex)%R → lx = loc_Exact) →
  SFsigned sx (binary_round_aux prec emax sx mx ex lx)
  ∧ rounds x (binary_round_aux prec emax sx mx ex lx).
Proof.
  intros Hmx Hex Hx Hl.
  destruct (shr_fexp_holds mx ex lx x Hmx Hx Hl)
    as (mrs1 & e1 & E1 & He1 & Hh1 & Hd1).
  unfold binary_round_aux. rewrite E1.
  destruct mrs1 as [m1 r1 s1]. destruct Hh1 as (Hm1 & Hx1 & Hex1).
  cbn [shr_m shr_r shr_s] in *.
  set (m2 := round_nearest_even m1 _).
  assert (Hfe : e1 = fexp prec emax (Zdigits2 mx + ex)) by lia.
  assert (Hemin : -1074 ≤ e1)
    by (rewrite Hfe; unfold fexp, emin, prec, emax; lia).
  assert (Hpk : 0 < 2 ^ (e1 - ex)) by (apply Z.pow_pos_nonneg; lia).
  assert (Hm1hi : m1 < 2 ^ 53).
  { destruct mx as [|p|p]; [nia| |lia].
    pose proof (digits2_pos_spec p) as [Slo Shi]. cbn [Zdigits2] in Hfe.
    set (d := Zpos (digits2_pos p)) in *.
    assert (Hdk : d ≤ (e1 - ex) + 53)
      by (unfold fexp, emin, prec, emax in Hfe; lia).
    pose proof (Z.pow_le_mono_r 2 d (e1 - ex + 53) ltac:(lia) Hdk) as Hp.
    rewrite Z.pow_add_r in Hp by lia. nia. }
  assert (Hm1lo : -1074 < e1 → 2 ^ 52 ≤ m1).
  { intros Hn. destruct mx as [|p|p]; [| |lia].
    - cbn [Zdigits2] in Hfe, Hex. unfold fexp, emin, prec, emax in Hfe, Hex.
      lia.
    - pose proof (digits2_pos_spec p) as [Slo Shi]. cbn [Zdigits2] in Hfe.
      set (d := Zpos (digits2_pos p)) in *.
      unfold fexp, emin, prec, emax in Hfe.
      replace (d - 1) with ((e1 - ex) + 52) in Slo by lia.
      rewrite Z.pow_add_r in Slo by lia. nia. }
  assert (Hm2 : m2 = m1 ∨ (m2 = m1 + 1 ∧ x ≠ (IZR m1 * bpow e1)%R)).
  { unfold m2. destruct r1, s1; cbn [loc_of_shr_record round_nearest_even].
    - right. split; [done|]. intros Hz. by destruct (Hex1 Hz).
    - destruct (Z.even m1); [by left|right]. split; [done|].
      intros Hz. by destruct (Hex1 Hz).
    - by left.
    - by left. }
  clearbody m2.
  assert (Hm2nn : 0 ≤ m2) by (destruct Hm2 as [->|[-> _]]; lia).
  destruct (shr_fexp_holds m2 e1 loc_Exact (IZR m2 * bpow e1) Hm2nn)
    as (mrs2 & e2 & E2 & He2 & Hh2 & Hd2).
  { rewrite plus_IZR. pose proof (bpow_pos e1). nra. }
  { done. }
  rewrite E2. destruct Hh2 as (Hm3 & _ & _).
  set (m3 := shr_m mrs2) in *.
  assert (Hcases : (e2 = e1 ∧ m3 = m2 ∧ m2 < 2 ^ 53)
                   ∨ (e2 = e1 + 1 ∧ m3 = 2 ^ 52 ∧ m2 = 2 ^ 53)).
  { destruct (Z.eq_dec m2 (2 ^ 53)) as [E|E].
    - right. rewrite E in He2, Hd2.
      assert (Hdig : Zdigits2 (2 ^ 53) = 54) by (vm_compute; reflexivity).
      rewrite Hdig in He2. unfold fexp, emin, prec, emax in He2.
      assert (E21 : e2 = e1 + 1) by lia. rewrite E21 in Hd2.
      replace (e1 + 1 - e1) with 1 in Hd2 by lia.
      change (2 ^ 1) with 2 in Hd2. split; [done|]. split; [lia|done].
    - left. assert (Hlt : m2 < 2 ^ 53) by (destruct Hm2 as [->|[-> _]]; lia).
      assert (Hf2 : fexp prec emax (Zdigits2 m2 + e1) ≤ e1).
      { destruct m2 as [|p|p]; [| |lia]; cbn [Zdigits2];
          unfold fexp, emin, prec, emax; [lia|].
        pose proof (digits2_pos_le p 53 ltac:(lia) Hlt). lia. }
      assert (E21 : e2 = e1) by lia. rewrite E21 in Hd2.
      replace (e1 - e1) with 0 in Hd2 by lia.
      change (2 ^ 0) with 1 in Hd2. split; [done|]. split; [lia|done]. }
  assert (Hy : (IZR m3 * bpow e2 = IZR m2 * bpow e1)%R).
  { destruct Hcases as [(-> & -> & _)|(-> & -> & ->)]; [done|].
    rewrite bpow_succ. change (2 ^ 53) with (2 * 2 ^ 52).
    rewrite mult_IZR. lra. }
  assert (Hgrid : ∀ F, Rfloat F →
            ((x <= F)%R → (IZR m3 * bpow e2 <= F)%R)
            ∧ ((F <= x)%R → (F <= IZR m3 * bpow e2)%R)).
  { intros F HF. rewrite Hy.
    by apply (grid_rounds m1 m2 e1 x F). }
  clearbody m3. destruct m3 as [|p3|p3]; [| |lia].
  - split; [done|]. intros F HF. destruct (Hgrid F HF) as [Hu Hl'].
    cbn [SFmag]. split; intros HxF; [specialize (Hu HxF)|specialize (Hl' HxF)];
      lra.
  - destruct (e2 <=? emax - prec) eqn:Ee.
    + split; [done|]. intros F HF. exact (Hgrid F HF).
    + apply Z.leb_gt in Ee. unfold emax, prec in Ee.
      split; [done|]. intros F HF. destruct (Hgrid F HF) as [Hu Hl'].
      destruct (Rfloat_lt_top F HF) as [HF0 HFtop]. cbn [SFmag].
      assert (Hbig : (bpow emax <= IZR (Zpos p3) * bpow e2)%R).
      { assert (Hp3 : 2 ^ 52 ≤ Zpos p3).
        { destruct Hcases as [(E21 & E32 & _)|(_ & E32 & _)]; [|lia].
          rewrite E32. destruct Hm2 as [->|[-> _]]; lia. }
        apply IZR_le in Hp3. set (P := IZR (2 ^ 52)) in *.
        assert (Htop : bpow emax = (P * bpow 972)%R).
        { unfold emax, P. replace 1024 with (972 + 52) by lia.
          rewrite bpow_add, (bpow_IZR 52) by lia. lra. }
        pose proof (bpow_le 972 e2 ltac:(lia)) as Hle.
        pose proof (bpow_pos 972) as Hp972.
        assert (HP : (0 < P)%R) by (apply IZR_lt; lia).
        rewrite Htop. nra. }
      split; intros HxF; [specialize (Hu HxF)|]; lra.
Qed.

(** *** The operations *)

Lemma iter_xO m d : Zpos (Pos.iter xO m d) = Zpos m * 2 ^ Zpos d.
Proof.
  induction d as [|d IH] using Pos.peano_ind.
  - cbn [Pos.iter]. change (2 ^ 1) with 2. lia.
  - rewrite Pos.iter_succ, Pos2Z.inj_xO, IH, Pos2Z.inj_succ, Z.pow_succ_r by lia.
    lia.
Qed.

Lemma shl_align_spec mx ex ex' :
  ∃ mz ez, shl_align mx ex ex' = (mz, ez)
    ∧ ez = Z.min ex ex' ∧ Zpos mz = Zpos mx * 2 ^ (ex - ez).
Proof.
  unfold shl_align. destruct (ex' - ex) as [|d|d] eqn:Ed.
  - eexists _, _. split; [done|]. split; [lia|].
    replace (ex - ex) with 0 by lia. change (2 ^ 0) with 1. lia.
  - eexists _, _. split; [done|]. split; [lia|].
    replace (ex - ex) with 0 by lia. change (2 ^ 0) with 1. lia.
  - eexists _, _. split; [done|]. split; [lia|].
    rewrite iter_xO. f_equal. f_equal. lia.
Qed.

(** A mantissa shifted to the left has as many more digits. *)
Lemma digits2_pos_shift mx mz k :
  0 ≤ k → Zpos mz = Zpos mx * 2 ^ k →
  Zpos (digits2_pos mz) = Zpos (digits2_pos mx) + k.
Proof.
  intros Hk Hz. apply digits2_pos_unique. rewrite Hz.
  pose proof (digits2_pos_spec mx) as [Slo Shi].
  replace (Zpos (digits2_pos mx) + k - 1)
    with (Zpos (digits2_pos mx) - 1 + k) by lia.
  rewrite !Z.pow_add_r by lia. pose proof (Z.pow_pos_nonneg 2 k). nia.
Qed.

Lemma binary_round_rounds sx m e :
  SFsigned sx (binary_round prec emax sx m e)
  ∧ rounds (IZR (Zpos m) * bpow e) (binary_round prec emax sx m e).
Proof.
  unfold binary_round.
  destruct (shl_align_spec m e (fexp prec emax (Zpos (digits2_pos m) + e)))
    as (mz & ez & -> & Hez & Hmz).
  assert (Hval : (IZR (Zpos m) * bpow e = IZR (Zpos mz) * bpow ez)%R).
  { rewrite Hmz. apply bpow_shift. lia. }
  rewrite Hval. apply binary_round_aux_rounds; [lia| | |done].
  - cbn [Zdigits2].
    rewrite (digits2_pos_shift m mz (e - ez)) by (done || lia).
    replace (Zpos (digits2_pos m) + (e - ez) + ez)
      with (Zpos (digits2_pos m) + e) by lia. lia.
  - rewrite plus_IZR. pose proof (bpow_pos ez). lra.
Qed.

Lemma binary_normalize_rounds m e :
  0 ≤ m →
  SFsigned false (binary_normalize prec emax m e false)
  ∧ rounds (IZR m * bpow e) (binary_normalize prec emax m e false).
Proof.
  intros Hm. destruct m as [|p|p]; [|apply binary_round_rounds|lia].
  cbn [binary_normalize]. split; [done|]. intros F HF. cbn [SFmag].
  split; lra.
Qed.

(** With aligned mantissas the value stays the same. *)
Lemma shl_align_fst mx ex ez :
  ez ≤ ex →
  (IZR (Zpos (shl_align mx ex ez).1) * bpow ez = IZR (Zpos mx) * bpow ex)%R.
Proof.
  intros He. destruct (shl_align_spec mx ex ez) as (mz & e' & -> & He' & Hmz).
  cbn [fst]. rewrite Hmz. symmetry. replace e' with ez by lia.
  replace (ex - ez) with (ex - ez) by lia. apply bpow_shift. lia.
Qed.

Lemma cond_Zopp_value s m e :
  (IZR (cond_Zopp s (Zpos m)) * bpow e
   = SF2R (S754_finite s m e))%R.
Proof.
  destruct s; cbn [cond_Zopp SF2R]; [|done].
  change (- Zpos m) with (Zneg m). change (Zneg m) with (- Zpos m).
  rewrite opp_IZR. lra.
Qed.

(** The sum of two finite [double]s, when it is not negative. *)
Lemma SFadd_rounds sx mx ex sy my ey :
  let v := (SF2R (S754_finite sx mx ex) + SF2R (S754_finite sy my ey))%R in
  (0 <= v)%R →
  SFsigned false (SFadd prec emax (S754_finite sx mx ex) (S754_finite sy my ey))
  ∧ rounds v (SFadd prec emax (S754_finite sx mx ex) (S754_finite sy my ey)).
Proof.
  intros v Hv. unfold SFadd.
  set (ez := Z.min ex ey).
  set (M := cond_Zopp sx (Zpos (shl_align mx ex ez).1)
            + cond_Zopp sy (Zpos (shl_align my ey ez).1)).
  assert (HM : (IZR M * bpow ez = v)%R).
  { unfold M, v. rewrite plus_IZR, Rmult_plus_distr_r.
    rewrite <- !cond_Zopp_value.
    destruct sx, sy; cbn [cond_Zopp]; rewrite ?opp_IZR;
      rewrite ?Ropp_mult_distr_l_reverse;
      rewrite !shl_align_fst by lia; lra. }
  rewrite <- HM. apply binary_normalize_rounds.
  pose proof (bpow_pos ez) as Hp. rewrite <- HM in Hv.
  apply le_IZR. nra.
Qed.

(** The difference of two finite [double]s, when it is not negative. *)
Lemma SFsub_rounds sx mx ex sy my ey :
  let v := (SF2R (S754_finite sx mx ex) - SF2R (S754_finite sy my ey))%R in
  (0 <= v)%R →
  SFsigned false (SFsub prec emax (S754_finite sx mx ex) (S754_finite sy my ey))
  ∧ rounds v (SFsub prec emax (S754_finite sx mx ex) (S754_finite sy my ey)).
Proof.
  intros v Hv. unfold SFsub.
  set (ez := Z.min ex ey).
  set (M := cond_Zopp sx (Zpos (shl_align mx ex ez).1)
            - cond_Zopp sy (Zpos (shl_align my ey ez).1)).
  assert (HM : (IZR M * bpow ez = v)%R).
  { unfold M, v. rewrite minus_IZR, Rmult_minus_distr_r.
    rewrite <- !cond_Zopp_value.
    destruct sx, sy; cbn [cond_Zopp]; rewrite ?opp_IZR;
      rewrite ?Ropp_mult_distr_l_reverse;
      rewrite !shl_align_fst by lia; lra. }
  rewrite <- HM. apply binary_normalize_rounds.
  pose proof (bpow_pos ez) as Hp. rewrite <- HM in Hv.
  apply le_IZR. nra.
Qed.

Lemma new_location_exact n r : r = 0 → new_location n r = loc_Exact.
Proof.
  intros ->. unfold new_location, new_location_even, new_location_odd.
  by destruct (Z.even n).
Qed.

(** The quotient of two finite [double]s. *)
Lemma SFdiv_rounds sx mx ex sy my ey :
  let q := (IZR (Zpos mx) * bpow ex / (IZR (Zpos my) * bpow ey))%R in
  SFsigned (xorb sx sy)
    (SFdiv prec emax (S754_finite sx mx ex) (S754_finite sy my ey))
  ∧ rounds q (SFdiv prec emax (S754_finite sx mx ex) (S754_finite sy my ey)).
Proof.
  intros q. unfold SFdiv, SFdiv_core_binary. cbn [Zdigits2].
  set (d1 := Zpos (digits2_pos mx)). set (d2 := Zpos (digits2_pos my)).
  set (e' := Z.min (fexp prec emax (d1 + ex - (d2 + ey))) (ex - ey)).
  set (s := ex - ey - e').
  assert (Hs : 0 ≤ s) by (unfold s, e'; lia).
  set (m' := match s with
             | 0 => Zpos mx
             | Zpos _ => Z.shiftl (Zpos mx) s
             | Zneg _ => 0
             end).
  assert (Hm' : m' = Zpos mx * 2 ^ s).
  { unfold m'. destruct s as [|p|p]; [|by rewrite Z.shiftl_mul_pow2|lia].
    change (2 ^ 0) with 1. lia. }
  pose proof (Z_div_mod m' (Zpos my) ltac:(lia)) as Hdm.
  destruct (Z.div_eucl m' (Zpos my)) as [q0 r0]. destruct Hdm as [Hdm Hr0].
  pose proof (Z.pow_pos_nonneg 2 s ltac:(lia) Hs) as Hps.
  assert (Hq0 : 0 ≤ q0) by nia.
  pose proof (bpow_pos e') as Hbe. pose proof (bpow_pos ey) as Hbey.
  assert (Hmy : (0 < IZR (Zpos my))%R) by (apply IZR_lt; lia).
  assert (Hq : (q * IZR (Zpos my) = IZR m' * bpow e')%R).
  { unfold q. rewrite Hm'. unfold s.
    rewrite <- (bpow_shift (Zpos mx) (ex - ey) e') by (unfold e'; lia).
    replace ex with (ex - ey + ey) at 1 by lia. rewrite bpow_add.
    field. lra. }
  rewrite Hdm, plus_IZR, mult_IZR in Hq.
  assert (Hr0' : (0 <= IZR r0 < IZR (Zpos my))%R)
    by (split; [apply IZR_le|apply IZR_lt]; lia).
  apply binary_round_aux_rounds; [done| | |].
  - destruct (Z.le_gt_cases e' (-1074)) as [Hlow|Hhigh].
    { unfold fexp, emin, prec, emax. lia. }
    assert (Hs53 : 53 - d1 + d2 ≤ s)
      by (unfold s, e', fexp, emin, prec, emax in *; lia).
    pose proof (digits2_pos_spec mx) as [S1lo S1hi].
    pose proof (digits2_pos_spec my) as [S2lo S2hi].
    fold d1 in S1lo, S1hi. fold d2 in S2lo, S2hi.
    assert (Hq52 : 2 ^ 52 ≤ q0).
    { assert (Hlt : 2 ^ (d2 + 52) < 2 ^ d2 * (q0 + 1)).
      { apply Z.le_lt_trans with (Zpos mx * 2 ^ s).
        - apply Z.le_trans with (2 ^ (d1 - 1) * 2 ^ s).
          + rewrite <- Z.pow_add_r by lia. apply Z.pow_le_mono_r; lia.
          + apply Z.mul_le_mono_nonneg_r; lia.
        - nia. }
      rewrite Z.pow_add_r in Hlt by lia.
      assert (0 < 2 ^ d2) by (apply Z.pow_pos_nonneg; lia). nia. }
    destruct q0 as [|pq|pq]; [lia| |lia]. cbn [Zdigits2].
    pose proof (digits2_pos_ge pq 53 Hq52). unfold fexp, emin, prec, emax. lia.
  - rewrite plus_IZR. split.
    + apply Rmult_le_reg_r with (IZR (Zpos my)); [done|]. rewrite Hq. nra.
    + apply Rmult_lt_reg_r with (IZR (Zpos my)); [done|]. rewrite Hq. nra.
  - intros Hz. apply new_location_exact.
    rewrite Hz in Hq. apply eq_IZR. nra.
Qed.

(** *** Comparison and conversion *)

Lemma rounds_exact x r : Rfloat x → rounds x r → SFmag r = x.
Proof.
  intros Hx Hr. destruct (Hr x Hx) as [Hu Hl].
  apply Rle_antisym; [apply Hu|apply Hl]; lra.
Qed.

Lemma signed_mag_cases s r :
  SFsigned s r → (SFmag r < bpow emax)%R →
  r = S754_zero s ∨ ∃ m e, r = S754_finite s m e.
Proof.
  destruct r as [s'|s'| |s' m e]; cbn [SFsigned SFmag]; intros Hs Hm.
  - left. by rewrite Hs.
  - lra.
  - done.
  - right. exists m, e. by rewrite Hs.
Qed.

Lemma SFmag_nonneg r : (0 <= SFmag r)%R.
Proof.
  destruct r as [s|s| |s m e]; cbn [SFmag]; [lra| |lra|].
  - pose proof (bpow_pos emax). lra.
  - pose proof (bpow_pos e). assert (0 < IZR (Zpos m))%R by (apply IZR_lt; lia).
    nra.
Qed.

Lemma SFmag_abs r : SFmag (SFabs r) = SFmag r.
Proof. by destruct r. Qed.

Lemma SFmag_valid r : valid_binary r = true → r ≠ S754_nan →
  (∀ s, r ≠ S754_infinity s) → Rfloat (SFmag r).
Proof.
  destruct r as [s|s| |s m e]; cbn [valid_binary SFmag]; intros Hv Hn Hi.
  - by left.
  - by destruct (Hi s).
  - done.
  - right. by exists m, e.
Qed.

(** Two finite [double]s in the order of their exponents. *)
Lemma bounded_lt m1 e1 m2 e2 :
  bounded prec emax m1 e1 = true → bounded prec emax m2 e2 = true →
  e1 < e2 → (IZR (Zpos m1) * bpow e1 < IZR (Zpos m2) * bpow e2)%R.
Proof.
  intros H1 H2 He.
  destruct (bounded_spec _ _ H1) as (He1 & Hm1 & _).
  destruct (bounded_spec _ _ H2) as (He2 & _ & Hm2).
  specialize (Hm2 ltac:(lia)). apply IZR_le in Hm2.
  assert (Hm1' : Zpos m1 < 2 * 2 ^ 52) by exact Hm1.
  apply IZR_lt in Hm1'. rewrite mult_IZR in Hm1'.
  set (P := IZR (2 ^ 52)) in *.
  pose proof (bpow_le e1 (e2 - 1) ltac:(lia)) as Hle.
  assert (Hs : bpow e2 = (2 * bpow (e2 - 1))%R).
  { replace e2 with (e2 - 1 + 1) at 1 by lia. apply bpow_succ. }
  pose proof (bpow_pos e1) as Hp1. pose proof (bpow_pos (e2 - 1)) as Hp2.
  assert (H0 : (0 < IZR (Zpos m1))%R) by (apply IZR_lt; lia).
  rewrite Hs.
  apply Rlt_le_trans with (2 * P * bpow e1)%R; [nra|].
  apply Rle_trans with (2 * P * bpow (e2 - 1))%R; nra.
Qed.

(** [<] on [double]s that are not negative. *)
Lemma SFltb_mag x y :
  valid_binary x = true → valid_binary y = true →
  SFsigned false x → SFsigned false y →
  if SFltb x y then (SFmag x < SFmag y)%R else (SFmag y <= SFmag x)%R.
Proof.
  intros Hvx Hvy Hx Hy.
  destruct x as [sx|sx| |sx mx ex]; [| |done|];
    (destruct y as [sy|sy| |sy my ey]; [| |done|]);
    cbn [SFsigned] in Hx, Hy; subst; cbn [valid_binary] in Hvx, Hvy;
    unfold SFltb; cbn [SFcompare SFmag].
  - lra.
  - apply bpow_pos.
  - pose proof (bpow_pos ey). assert (0 < IZR (Zpos my))%R by (apply IZR_lt; lia).
    nra.
  - pose proof (bpow_pos emax). lra.
  - lra.
  - pose proof (Rfloat_lt_top (IZR (Zpos my) * bpow ey)) as Ht.
    destruct Ht as [_ Ht]; [right; by exists my, ey|]. lra.
  - pose proof (bpow_pos ex). assert (0 < IZR (Zpos mx))%R by (apply IZR_lt; lia).
    nra.
  - pose proof (Rfloat_lt_top (IZR (Zpos mx) * bpow ex)) as Ht.
    destruct Ht as [_ Ht]; [right; by exists mx, ex|]. lra.
  - destruct (Z.compare_spec ex ey) as [->|Hlt|Hgt].
    + change (Pos.compare_cont Eq mx my) with (Pos.compare mx my).
      pose proof (bpow_pos ey).
      destruct (Pos.compare_spec mx my) as [->|Hm|Hm].
      * lra.
      * assert (IZR (Zpos mx) < IZR (Zpos my))%R by (apply IZR_lt; lia). nra.
      * assert (IZR (Zpos my) < IZR (Zpos mx))%R by (apply IZR_lt; lia). nra.
    + by apply bounded_lt.
    + apply Rlt_le. apply bounded_lt; [done|done|lia].
Qed.

Lemma float_ofZ_value k :
  0 ≤ k < 2 ^ 53 →
  SFsigned false (Prim2SF (float_ofZ k))
  ∧ SFmag (Prim2SF (float_ofZ k)) = IZR k.
Proof.
  intros Hk. unfold float_ofZ. rewrite (proj2 (Z.ltb_ge k 0)) by lia.
  rewrite of_uint63_spec, Uint63.of_Z_spec.
  change Uint63Axioms.wB with (2 ^ 63). rewrite Z.mod_small by lia.
  destruct (binary_normalize_rounds k 0 ltac:(lia)) as [Hs Hr].
  split; [done|].
  assert (Hv : (IZR k * bpow 0 = IZR k)%R).
  { rewrite (bpow_IZR 0) by lia. change (2 ^ 0) with 1. lra. }
  rewrite Hv in Hr. apply rounds_exact; [|done].
  destruct (Z.eq_dec k 0) as [->|Hne]; [by left|].
  rewrite <- Hv. apply Rfloat_dyadic; lia.
Qed.

Lemma float_ofZ_finite k :
  0 < k < 2 ^ 53 →
  ∃ m e, Prim2SF (float_ofZ k) = S754_finite false m e
    ∧ (IZR (Zpos m) * bpow e)%R = IZR k.
Proof.
  intros Hk. destruct (float_ofZ_value k ltac:(lia)) as [Hs Hm].
  assert (Hk53 : (IZR k < bpow emax)%R).
  { assert (Rfloat (IZR k * bpow 0)) as HF by (apply Rfloat_dyadic; lia).
    apply Rfloat_lt_top in HF. rewrite (bpow_IZR 0) in HF by lia.
    change (IZR (2 ^ 0)) with 1%R in HF. lra. }
  destruct (signed_mag_cases false _ Hs) as [Hz|(m & e & Hf)]; [lra| |].
  - rewrite Hz in Hm. cbn [SFmag] in Hm.
    assert (0 < IZR k)%R by (apply IZR_lt; lia). lra.
  - exists m, e. split; [done|]. by rewrite Hf in Hm.
Qed.

(** *** The primitive operations on [double]s *)

Lemma Rfloat_IZR k : 0 ≤ k < 2 ^ 53 → Rfloat (IZR k).
Proof.
  intros Hk. destruct (Z.eq_dec k 0) as [->|Hne]; [by left|].
  replace (IZR k) with (IZR k * bpow 0)%R; [apply Rfloat_dyadic; lia|].
  rewrite (bpow_IZR 0) by lia. change (2 ^ 0) with 1. lra.
Qed.

Lemma bpow_emax_big : (IZR (2 ^ 53) < bpow emax)%R.
Proof.
  destruct (Rfloat_lt_top (IZR (2 ^ 52) * bpow 1)) as [_ H].
  { apply Rfloat_dyadic; lia. }
  rewrite (bpow_IZR 1), <- mult_IZR in H by lia. exact H.
Qed.

Lemma finite_cases x :
  finite x = true →
  (∃ s, Prim2SF x = S754_zero s) ∨ ∃ s m e, Prim2SF x = S754_finite s m e.
Proof.
  unfold finite. destruct (Prim2SF x) as [s|s| |s m e]; try done.
  - left. by exists s.
  - right. by exists s, m, e.
Qed.

Lemma SF2R_mag s m e :
  (SF2R (S754_finite s m e) = SFmag (S754_finite s m e)
   ∨ SF2R (S754_finite s m e) = - SFmag (S754_finite s m e))%R.
Proof. destruct s; cbn [SF2R SFmag]; [by right|by left]. Qed.

Lemma div_mul_id (a b : R) : (0 < b)%R → (a / b * b = a)%R.
Proof. intros Hb. field. lra. Qed.

Lemma finite_mag x : finite x = true → (SFmag (Prim2SF x) < bpow emax)%R.
Proof.
  intros Hf. pose proof (Prim2SF_valid x) as Hv. unfold finite in Hf.
  destruct (Prim2SF x) as [s|s| |s m e]; try done; cbn [SFmag].
  - apply bpow_pos.
  - cbn [valid_binary] in Hv.
    apply (Rfloat_lt_top (IZR (Zpos m) * bpow e)). right. by exists m, e.
Qed.

Lemma SFmag_le_top x : (SFmag (Prim2SF x) <= bpow emax)%R.
Proof.
  destruct (finite x) eqn:Hf; [apply Rlt_le; by apply finite_mag|].
  unfold finite in Hf. pose proof (bpow_pos emax).
  destruct (Prim2SF x) as [s|s| |s m e]; try done; cbn [SFmag]; lra.
Qed.

Lemma number_finite x :
  number x = true → (SFmag (Prim2SF x) < bpow emax)%R → finite x = true.
Proof.
  unfold number, finite.
  destruct (Prim2SF x) as [s|s| |s m e]; cbn [SFmag]; try done. lra.
Qed.

(** The quotient of a finite [double] by one at least as large, infinite
    or not. *)
Lemma div_ratio a b :
  finite a = true → number b = true →
  (SFmag (Prim2SF a) <= SFmag (Prim2SF b))%R → (0 < SFmag (Prim2SF b))%R →
  finite (a / b) = true ∧ (SFmag (Prim2SF (a / b)) <= 1)%R.
Proof.
  intros Ha Hb Hab Hb0. unfold finite. rewrite div_spec. unfold SF64div.
  destruct (finite_cases a Ha) as [(sa & Ea)|(sa & ma & ea & Ea)];
    rewrite Ea in *; unfold number in Hb;
    destruct (Prim2SF b) as [sb|sb| |sb mb eb]; cbn [SFmag] in Hb0;
    try lra; try done; try (cbn [SFdiv SFmag]; split; [done|lra]).
  destruct (SFdiv_rounds sa ma ea sb mb eb) as [Hs Hr].
  cbn [SFmag] in Hab.
  destruct (Hr 1%R (Rfloat_IZR 1 ltac:(lia))) as [Hu _].
  assert (H1 : (SFmag (SFdiv prec emax (S754_finite sa ma ea)
                         (S754_finite sb mb eb)) <= 1)%R).
  { apply Hu. apply Rmult_le_reg_r with (IZR (Zpos mb) * bpow eb)%R; [done|].
    rewrite div_mul_id by done. lra. }
  split; [|done].
  pose proof bpow_emax_big as Hbig.
  assert (Hone : (1 < IZR (2 ^ 53))%R) by (apply IZR_lt; lia).
  destruct (signed_mag_cases _ _ Hs) as [->|(m & e & ->)]; [lra|done|done].
Qed.

(** A quotient plus one, and one minus a quotient. *)
Lemma add_one_range q :
  finite q = true → (SFmag (Prim2SF q) <= 1)%R →
  SFsigned false (Prim2SF (q + float_ofZ 1))
  ∧ (SFmag (Prim2SF (q + float_ofZ 1)) <= 2)%R.
Proof.
  intros Hq Hm. rewrite add_spec. unfold SF64add.
  destruct (float_ofZ_finite 1 ltac:(lia)) as (mo & eo & -> & Hvo).
  destruct (finite_cases q Hq) as [(sq & Eq)|(sq & mq & eq & Eq)];
    rewrite Eq in *.
  { cbn [SFadd SFsigned SFmag]. split; [done|lra]. }
  assert (Hv : (0 <= SF2R (S754_finite sq mq eq)
                     + SF2R (S754_finite false mo eo) <= 2)%R).
  { destruct (SF2R_mag sq mq eq) as [-> | ->];
      pose proof (SFmag_nonneg (S754_finite sq mq eq));
      cbn [SF2R]; lra. }
  destruct (SFadd_rounds sq mq eq false mo eo) as [Hs Hr]; [lra|].
  split; [done|]. apply (Hr 2%R (Rfloat_IZR 2 ltac:(lia))). lra.
Qed.

Lemma one_sub_range q :
  finite q = true → (SFmag (Prim2SF q) <= 1)%R →
  SFsigned false (Prim2SF (float_ofZ 1 - q))
  ∧ (SFmag (Prim2SF (float_ofZ 1 - q)) <= 2)%R.
Proof.
  intros Hq Hm. rewrite sub_spec. unfold SF64sub.
  destruct (float_ofZ_finite 1 ltac:(lia)) as (mo & eo & -> & Hvo).
  destruct (finite_cases q Hq) as [(sq & Eq)|(sq & mq & eq & Eq)];
    rewrite Eq in *.
  { cbn [SFsub SFsigned SFmag]. split; [done|lra]. }
  assert (Hv : (0 <= SF2R (S754_finite false mo eo)
                     - SF2R (S754_finite sq mq eq) <= 2)%R).
  { destruct (SF2R_mag sq mq eq) as [-> | ->];
      pose proof (SFmag_nonneg (S754_finite sq mq eq));
      cbn [SF2R]; lra. }
  destruct (SFsub_rounds false mo eo sq mq eq) as [Hs Hr]; [lra|].
  split; [done|]. apply (Hr 2%R (Rfloat_IZR 2 ltac:(lia))). lra.
Qed.

(** The quotient of a [double] that is not negative by a positive one. *)
Lemma div_nonneg_le a b F :
  SFsigned false (Prim2SF a) → SFsigned false (Prim2SF b) →
  (SFmag (Prim2SF a) < bpow emax)%R →
  (0 < SFmag (Prim2SF b) < bpow emax)%R → Rfloat F →
  (SFmag (Prim2SF a) <= F * SFmag (Prim2SF b))%R →
  SFsigned false (Prim2SF (a / b)) ∧ (SFmag (Prim2SF (a / b)) <= F)%R.
Proof.
  intros Ha Hb Hafin [Hb0 Hbfin] HF Hab. rewrite div_spec. unfold SF64div.
  destruct (Rfloat_lt_top F HF) as [HF0 _].
  destruct (signed_mag_cases _ _ Hb Hbfin) as [Eb|(mb & eb & Eb)];
    rewrite Eb in *; cbn [SFmag] in Hb0; [lra|].
  destruct (signed_mag_cases _ _ Ha Hafin) as [Ea|(ma & ea & Ea)];
    rewrite Ea in *.
  { cbn [SFdiv SFsigned SFmag xorb]. split; [done|lra]. }
  destruct (SFdiv_rounds false ma ea false mb eb) as [Hs Hr].
  split; [done|]. apply (Hr F HF). cbn [SFmag] in Hab.
  apply Rmult_le_reg_r with (IZR (Zpos mb) * bpow eb)%R; [done|].
  rewrite div_mul_id by done. lra.
Qed.

(** The step [4 / n] of a table of [n] bins: a [double] between
    [8 / (2 n + 1)] and [4]. *)
Lemma step_range n :
  0 < n ≤ INT_MAX →
  SFsigned false (Prim2SF (float_ofZ 4 / float_ofZ n))
  ∧ (SFmag (Prim2SF (float_ofZ 4 / float_ofZ n)) <= 4)%R
  ∧ (8 <= IZR (2 * n + 1) * SFmag (Prim2SF (float_ofZ 4 / float_ofZ n)))%R.
Proof.
  intros Hn. unfold INT_MAX in Hn. rewrite div_spec. unfold SF64div.
  destruct (float_ofZ_finite 4 ltac:(lia)) as (m4 & e4 & -> & Hv4).
  destruct (float_ofZ_finite n ltac:(lia)) as (mn & en & -> & Hvn).
  destruct (SFdiv_rounds false m4 e4 false mn en) as [Hs Hr].
  rewrite Hv4, Hvn in Hr. split; [done|].
  assert (Hn1 : (1 <= IZR n)%R) by (apply IZR_le; lia).
  assert (Hinv : (0 < / IZR n <= 1)%R).
  { split; [apply Rinv_0_lt_compat; lra|].
    rewrite <- Rinv_1. apply Rinv_le_contravar; lra. }
  split.
  { apply (Hr 4%R (Rfloat_IZR 4 ltac:(lia))). unfold Rdiv. nra. }
  (* a [double] between [8 / (2 n + 1)] and [4 / n] *)
  set (L := Z.log2 n).
  destruct (Z.log2_spec n ltac:(lia)) as [Llo Lhi]. fold L in Llo, Lhi.
  assert (HL0 : 0 ≤ L) by apply Z.log2_nonneg.
  assert (HL : L ≤ 30).
  { assert (L < 31); [|lia]. apply Z.log2_lt_pow2; lia. }
  rewrite Z.pow_succ_r in Lhi by done.
  set (mG := 2 ^ (52 + L) / n).
  assert (Hpow : 2 ^ (52 + L) = 2 ^ 52 * 2 ^ L) by (apply Z.pow_add_r; lia).
  assert (HpL : 0 < 2 ^ L) by (apply Z.pow_pos_nonneg; lia).
  pose proof (Z.mul_div_le (2 ^ (52 + L)) n ltac:(lia)) as Hdlo.
  pose proof (Z.mul_succ_div_gt (2 ^ (52 + L)) n ltac:(lia)) as Hdhi.
  fold mG in Hdlo, Hdhi.
  assert (HmGlo : 2 ^ 51 ≤ mG) by (apply Z.div_le_lower_bound; lia).
  assert (HmGhi : mG ≤ 2 ^ 52) by (apply Z.div_le_upper_bound; lia).
  assert (Hprod : 2 * (2 ^ 52 * 2 ^ L) ≤ (2 * n + 1) * mG) by lia.
  set (B := bpow (- 50 - L)).
  assert (HB : (0 < B)%R) by apply bpow_pos.
  assert (HPB : (IZR (2 ^ 52 * 2 ^ L) * B = 4)%R).
  { unfold B. rewrite <- Hpow, <- (bpow_IZR (52 + L)), <- bpow_add by lia.
    replace (52 + L + (- 50 - L)) with 2 by lia.
    rewrite (bpow_IZR 2) by lia. done. }
  assert (HG : Rfloat (IZR mG * B)) by (apply Rfloat_dyadic; lia).
  destruct (Hr _ HG) as [_ Hlow].
  assert (HGle : (IZR mG * B <= 4 / IZR n)%R).
  { apply IZR_le in Hdlo. rewrite mult_IZR, Hpow in Hdlo.
    apply Rmult_le_reg_r with (IZR n); [lra|].
    rewrite div_mul_id by lra. nra. }
  specialize (Hlow HGle).
  apply IZR_le in Hprod. rewrite !mult_IZR in Hprod.
  rewrite mult_IZR in HPB.
  assert (H2n : (0 < IZR (2 * n + 1))%R) by (apply IZR_lt; lia).
  apply Rle_trans with (IZR (2 * n + 1) * (IZR mG * B))%R; [|nra].
  nra.
Qed.

(** *** Rounding to an integer *)

Lemma bpow_opp_inv k : 0 ≤ k → (bpow (- k) * IZR (2 ^ k) = 1)%R.
Proof.
  intros Hk. rewrite <- (bpow_IZR k), <- bpow_add by done.
  replace (- k + k) with 0 by lia. done.
Qed.

(** [round] of a [double] of [[0, N + 1/4]] is an integer of [[0, N]]. *)
Lemma float_round_range w N :
  0 ≤ N < 2 ^ 50 → SFsigned false (Prim2SF w) →
  (4 * SFmag (Prim2SF w) <= IZR (4 * N + 1))%R →
  ∃ K, 0 ≤ K ≤ N
    ∧ SFsigned false (Prim2SF (float_round w))
    ∧ SFmag (Prim2SF (float_round w)) = IZR K.
Proof.
  intros HN Hs Hm. unfold float_round.
  assert (Hfin : (SFmag (Prim2SF w) < bpow emax)%R).
  { pose proof bpow_emax_big. pose proof (SFmag_nonneg (Prim2SF w)).
    assert (IZR (4 * N + 1) < IZR (2 ^ 53))%R by (apply IZR_lt; lia). lra. }
  destruct (signed_mag_cases _ _ Hs Hfin) as [E|(m & e & E)]; rewrite E in *.
  { exists 0. rewrite E. cbn [SFsigned SFmag]. split; [lia|done]. }
  cbn [SFmag] in Hm. destruct (0 <=? e) eqn:Ee.
  - apply Z.leb_le in Ee. exists (Zpos m * 2 ^ e). rewrite E.
    cbn [SFsigned SFmag]. rewrite (bpow_IZR e), <- mult_IZR in * by done.
    split; [|done]. split; [pose proof (Z.pow_pos_nonneg 2 e); lia|].
    assert (H4 : (IZR (4 * (Zpos m * 2 ^ e)) <= IZR (4 * N + 1))%R)
      by (rewrite mult_IZR; lra).
    apply le_IZR in H4. lia.
  - apply Z.leb_gt in Ee. set (k := - e).
    assert (Hk : 0 < k) by (unfold k; lia).
    assert (Hpk : 0 < 2 ^ k) by (apply Z.pow_pos_nonneg; lia).
    assert (Hnear : nearest m e = (2 * Zpos m + 2 ^ k) / 2 ^ (k + 1)).
    { unfold nearest. rewrite (proj2 (Z.leb_gt 0 e)) by done. done. }
    assert (H4 : 4 * Zpos m ≤ (4 * N + 1) * 2 ^ k).
    { apply le_IZR. rewrite !mult_IZR.
      pose proof (bpow_opp_inv k ltac:(lia)) as Hinv. fold k in Hinv.
      replace (- k) with e in Hinv by (unfold k; lia).
      assert (H2k : (0 < IZR (2 ^ k))%R) by (apply IZR_lt; lia).
      pose proof (bpow_pos e) as Hbe.
      assert (HM : (IZR (Zpos m) = IZR (Zpos m) * bpow e * IZR (2 ^ k))%R)
        by (rewrite Rmult_assoc, Hinv; lra).
      rewrite HM. nra. }
    rewrite Z.pow_add_r in Hnear by lia. change (2 ^ 1) with 2 in Hnear.
    assert (HK : 0 ≤ nearest m e ≤ N).
    { rewrite Hnear. split; [apply Z.div_pos; lia|].
      assert ((2 * Zpos m + 2 ^ k) / (2 ^ k * 2) < N + 1); [|lia].
      apply Z.div_lt_upper_bound; lia. }
    exists (nearest m e). split; [done|]. apply float_ofZ_value. lia.
Qed.

(** The conversion to [int] of a [double] that is an integer. *)
Lemma float_trunc_int v K :
  SFsigned false (Prim2SF v) → SFmag (Prim2SF v) = IZR K →
  0 ≤ K ≤ INT_MAX → float_trunc v = Some K.
Proof.
  intros Hs Hm HK. unfold float_trunc.
  assert (Hres : int_result K = Some K).
  { unfold int_result, in_int, INT_MIN. unfold INT_MAX in *.
    rewrite !(proj2 (Z.leb_le _ _)) by lia. done. }
  assert (Hfin : (SFmag (Prim2SF v) < bpow emax)%R).
  { pose proof bpow_emax_big. unfold INT_MAX in HK.
    assert (IZR K < IZR (2 ^ 53))%R by (apply IZR_lt; lia). lra. }
  destruct (signed_mag_cases _ _ Hs Hfin) as [E|(m & e & E)]; rewrite E in *.
  { cbn [SFmag] in Hm. apply eq_IZR in Hm. by rewrite <- Hm. }
  cbn [SFmag] in Hm. unfold integerPart. destruct (0 <=? e) eqn:Ee.
  - apply Z.leb_le in Ee. rewrite (bpow_IZR e), <- mult_IZR in Hm by done.
    apply eq_IZR in Hm. by rewrite Hm.
  - apply Z.leb_gt in Ee.
    assert (Hpk : 0 < 2 ^ (- e)) by (apply Z.pow_pos_nonneg; lia).
    assert (HmK : Zpos m = K * 2 ^ (- e)).
    { apply eq_IZR. rewrite mult_IZR.
      pose proof (bpow_opp_inv (- e) ltac:(lia)) as Hinv.
      replace (- - e) with e in Hinv by lia.
      assert (H2k : (0 < IZR (2 ^ (- e)))%R) by (apply IZR_lt; lia).
      rewrite <- Hm. rewrite Rmult_assoc, Hinv. lra. }
    rewrite HmK, Z.div_mul by lia. done.
Qed.

(** The sum of two [double]s that are integers. *)
Lemma add_int v K N :
  SFsigned false (Prim2SF v) → SFmag (Prim2SF v) = IZR K →
  0 ≤ K → 0 < N → K + N < 2 ^ 53 →
  SFsigned false (Prim2SF (v + float_ofZ N))
  ∧ SFmag (Prim2SF (v + float_ofZ N)) = IZR (K + N).
Proof.
  intros Hs Hm HK HN Hsum. rewrite add_spec. unfold SF64add.
  destruct (float_ofZ_finite N ltac:(lia)) as (mo & eo & -> & Hvo).
  assert (Hfin : (SFmag (Prim2SF v) < bpow emax)%R).
  { pose proof bpow_emax_big.
    assert (IZR K < IZR (2 ^ 53))%R by (apply IZR_lt; lia). lra. }
  destruct (signed_mag_cases _ _ Hs Hfin) as [E|(m & e & E)]; rewrite E in *.
  { cbn [SFmag] in Hm. apply eq_IZR in Hm. subst K.
    cbn [SFadd SFsigned SFmag]. split; [done|]. by rewrite Hvo. }
  cbn [SFmag] in Hm.
  destruct (SFadd_rounds false m e false mo eo) as [Hs' Hr].
  { cbn [SF2R]. rewrite Hm, Hvo, <- plus_IZR. apply IZR_le. lia. }
  split; [done|]. cbn [SF2R] in Hr. rewrite Hm, Hvo, <- plus_IZR in Hr.
  apply rounds_exact; [|done]. apply Rfloat_IZR. lia.
Qed.

(** ** The table of epipolar curves *)

(** The constructor's table holds one curve per step and one more. *)
Lemma app_front_lookup {A} (l : list A) x :
  head l = Some x → (l ++ [x]) !! length l = (l ++ [x]) !! 0%nat.
Proof.
  destruct l as [|a l]; [done|]. intros [= ->]. cbn [app length].
  rewrite lookup_cons_ne_0 by done. cbn [Nat.pred].
  rewrite lookup_app_r by done. by rewrite Nat.sub_diag.
Qed.

Lemma newEnhancedEpipolar_Some {S} `{Scalar S} (T12 : Transformation S)
    (cam2 : ICamera S) (n : Z) :
  0 < n → Z.rem n 2 = 0 → (6 ≤ length (camParams cam2))%nat →
  ∃ E, newEnhancedEpipolar T12 cam2 n = Some E
    ∧ nSteps E = n
    ∧ step E = (sofZ 4 / sofZ n)%sc
    ∧ length (epipolarVec E) = Z.to_nat (n + 1)
    ∧ getCurve E n = getCurve E 0.
Proof.
  intros Hn Heven Hlen. unfold newEnhancedEpipolar.
  rewrite Heven. cbn [Z.eqb negb].
  destruct (lookup_lt_is_Some_2 (camParams cam2) 0) as [alpha ->]; [lia|].
  destruct (lookup_lt_is_Some_2 (camParams cam2) 1) as [beta ->]; [lia|].
  destruct (lookup_lt_is_Some_2 (camParams cam2) 2) as [fu ->]; [lia|].
  destruct (lookup_lt_is_Some_2 (camParams cam2) 3) as [fv ->]; [lia|].
  destruct (lookup_lt_is_Some_2 (camParams cam2) 4) as [u0 ->]; [lia|].
  destruct (lookup_lt_is_Some_2 (camParams cam2) 5) as [v0 ->]; [lia|].
  cbn [mbind option_bind].
  rewrite (seqZ_cons 0 n) by lia. rewrite fmap_cons. cbn [head mbind option_bind].
  eexists. split; [done|]. cbn [nSteps step epipolarVec].
  split; [done|]. split; [done|]. split.
  { rewrite length_app, length_cons, length_fmap, length_seqZ. cbn [length]. lia. }
  unfold getCurve. cbn [epipolarVec].
  rewrite (proj2 (Z.leb_le 0 n)) by lia. cbn [Z.leb Z.compare Z.to_nat].
  match goal with
  | |- (?l ++ [?x]) !! _ = _ =>
      trans ((l ++ [x]) !! length l);
      [|exact (app_front_lookup l x eq_refl)]
  end.
  f_equal. rewrite length_cons, length_fmap, length_seqZ. lia.
Qed.

(** The members that the constructor computes before its loop. *)
Lemma newEnhancedEpipolar_members {S} `{Scalar S} (T12 : Transformation S)
    (cam2 : ICamera S) (n : Z) (E : EnhancedEpipolar S) :
  newEnhancedEpipolar T12 cam2 n = Some E →
  let z := neg3 (normalized (trans T12)) in
  let x0 :=
    if sltb (v3x z * v3x z + v3y z * v3y z)%sc (v3z z * v3z z)%sc
    then V3 (sofZ 1) (sofZ 0) (sofZ 0) else V3 (sofZ 0) (sofZ 0) (sofZ 1) in
  0 < n ∧ Z.rem n 2 = 0
  ∧ nSteps E = n ∧ step E = (sofZ 4 / sofZ n)%sc
  ∧ zBase E = z
  ∧ xBase E = normalized (mulMV (subM identity3 (outer z z)) x0)
  ∧ yBase E = cross z (xBase E).
Proof.
  intros HE. cbn zeta. unfold newEnhancedEpipolar in HE.
  destruct (Z.rem n 2 =? 0) eqn:Heven; [|done]. cbn [negb] in HE.
  apply Z.eqb_eq in Heven.
  destruct (camParams cam2 !! 0%nat); [|done].
  destruct (camParams cam2 !! 1%nat); [|done].
  destruct (camParams cam2 !! 2%nat); [|done].
  destruct (camParams cam2 !! 3%nat); [|done].
  destruct (camParams cam2 !! 4%nat); [|done].
  destruct (camParams cam2 !! 5%nat); [|done].
  cbn [mbind option_bind] in HE.
  destruct (head _) as [front|] eqn:Hfront; [|done].
  cbn [mbind option_bind] in HE. injection HE as <-.
  cbn [nSteps step xBase yBase zBase].
  assert (Hn : 0 < n).
  { destruct (decide (0 < n)) as [|Hle]; [done|].
    rewrite seqZ_nil in Hfront by lia. done. }
  done.
Qed.

(** The constructor reads six parameters of the second camera. *)
Lemma newEnhancedEpipolar_params {S} `{Scalar S} (T12 : Transformation S)
    (cam2 : ICamera S) (n : Z) (E : EnhancedEpipolar S) :
  newEnhancedEpipolar T12 cam2 n = Some E → (6 ≤ length (camParams cam2))%nat.
Proof.
  intros HE. unfold newEnhancedEpipolar in HE.
  destruct (negb (Z.rem n 2 =? 0)); [done|].
  destruct (camParams cam2 !! 0%nat); [|done].
  destruct (camParams cam2 !! 1%nat); [|done].
  destruct (camParams cam2 !! 2%nat); [|done].
  destruct (camParams cam2 !! 3%nat); [|done].
  destruct (camParams cam2 !! 4%nat); [|done].
  destruct (camParams cam2 !! 5%nat) eqn:H5; [|done].
  apply lookup_lt_Some in H5. lia.
Qed.


Lemma dec_small_positive :
  ∃ m e, Prim2SF (dec 1 (-4)) = S754_finite false m e.
Proof. vm_compute. eauto. Qed.

(** On binary64, [index] of a vector whose products with the two axes of
    the table are numbers, not both infinite, is a bin of [0, nSteps]. *)
Lemma index_range (E : EnhancedEpipolar float) (X : Vector3d float) (n : Z) :
  nSteps E = n → step E = (sofZ 4 / sofZ n)%sc → 0 < n ≤ INT_MAX →
  Z.rem n 2 = 0 →
  number (dot X (xBase E)) = true → number (dot X (yBase E)) = true →
  finite (dot X (xBase E)) || finite (dot X (yBase E)) = true →
  ∃ i, index E X = Some i ∧ 0 ≤ i ≤ n.
Proof.
  intros HnE Hstep Hn Heven Hnc Hns Hfin. unfold index. rewrite HnE, Hstep.
  set (c := dot X (xBase E)) in *. set (s := dot X (yBase E)) in *.
  cbn [sabs sadd ssub sdiv sltb sofZ sround strunc Scalar_float].
  set (N := n ÷ 2).
  assert (HN : n = 2 * N ∧ 0 < N).
  { unfold N. pose proof (Z.quot_rem' n 2). lia. }
  destruct (PrimFloat.ltb (abs c + abs s) (dec 1 (-4))) eqn:Esmall.
  { exists 0. split; [done|lia]. }
  assert (Hsigned : ∀ x, number x = true → SFsigned false (Prim2SF (abs x))).
  { intros x Hx. rewrite abs_spec. unfold number in Hx.
    by destruct (Prim2SF x). }
  assert (Hcmp : if PrimFloat.ltb (abs s) (abs c)
                 then (SFmag (Prim2SF s) < SFmag (Prim2SF c))%R
                 else (SFmag (Prim2SF c) <= SFmag (Prim2SF s))%R).
  { rewrite ltb_spec.
    rewrite <- (SFmag_abs (Prim2SF s)), <- (SFmag_abs (Prim2SF c)).
    rewrite <- !abs_spec.
    apply SFltb_mag; try apply Prim2SF_valid; by apply Hsigned. }
  destruct (step_range n Hn) as (Hss & Hs4 & Hs8).
  set (st := (float_ofZ 4 / float_ofZ n)%float) in *.
  pose proof (SFmag_nonneg (Prim2SF st)) as Hst0.
  pose proof bpow_emax_big as Hbig.
  assert (H53 : (8 < IZR (2 ^ 53))%R) by (apply IZR_lt; lia).
  assert (H2n : (0 < IZR (2 * n + 1))%R) by (apply IZR_lt; lia).
  assert (Hst : (0 < SFmag (Prim2SF st) < bpow emax)%R) by (split; nra).
  assert (Hquarter : (bpow (-2) * 4 = 1)%R)
    by exact (bpow_opp_inv 2 ltac:(lia)).
  assert (Hdiv : ∀ t, SFsigned false (Prim2SF t) →
            (SFmag (Prim2SF t) <= 2)%R →
            ∃ K, 0 ≤ K ≤ N
              ∧ SFsigned false (Prim2SF (float_round (t / st)))
              ∧ SFmag (Prim2SF (float_round (t / st))) = IZR K).
  { intros t Ht Hm. unfold INT_MAX in Hn.
    destruct (div_nonneg_le t st (IZR (4 * N + 1) * bpow (-2)))
      as [Hw Hwm]; [done|done|lra|done|apply Rfloat_dyadic; lia| |].
    - replace (4 * N + 1) with (2 * n + 1) by lia. nra.
    - apply float_round_range; [lia|done|]. nra. }
  pose proof (SFmag_nonneg (Prim2SF s)) as Hs0.
  pose proof (SFmag_nonneg (Prim2SF c)) as Hc0.
  destruct (PrimFloat.ltb (abs s) (abs c)) eqn:Ebranch.
  - pose proof (SFmag_le_top c) as Hctop.
    assert (Hfs : finite s = true) by (apply number_finite; [done|lra]).
    destruct (div_ratio s c Hfs Hnc) as [Hq Hq1]; [lra|lra|].
    destruct (add_one_range _ Hq Hq1) as [Ht Htm].
    destruct (Hdiv _ Ht Htm) as (K & HK & Hrs & Hrm).
    exists K. split; [apply float_trunc_int; [done|done|lia]|lia].
  - assert (Hspos : (0 < SFmag (Prim2SF s))%R).
    { destruct (Rle_lt_or_eq_dec _ _ Hs0) as [|Hz]; [done|]. exfalso.
      assert (Hzero : ∀ x, number x = true → SFmag (Prim2SF x) = 0%R →
                ∃ sx, Prim2SF x = S754_zero sx).
      { intros x Hx Hm. unfold number in Hx.
        destruct (Prim2SF x) as [sx|sx| |sx mx ex]; cbn [SFmag] in Hm.
        - by exists sx.
        - pose proof (bpow_pos emax). lra.
        - done.
        - pose proof (bpow_pos ex).
          assert (0 < IZR (Zpos mx))%R by (apply IZR_lt; lia). nra. }
      destruct (Hzero s Hns (eq_sym Hz)) as [ss Es].
      destruct (Hzero c Hnc ltac:(lra)) as [sc Ec].
      rewrite ltb_spec, add_spec, !abs_spec, Es, Ec in Esmall.
      destruct dec_small_positive as (m & e & Hd). rewrite Hd in Esmall.
      by destruct sc, ss. }
    assert (Hfc : finite c = true).
    { destruct (finite s) eqn:Hfs; [|by rewrite orb_false_r in Hfin].
      pose proof (finite_mag s Hfs). apply number_finite; [done|lra]. }
    destruct (div_ratio c s Hfc Hns) as [Hq Hq1]; [lra|lra|].
    destruct (one_sub_range _ Hq Hq1) as [Ht Htm].
    destruct (Hdiv _ Ht Htm) as (K & HK & Hrs & Hrm).
    unfold INT_MAX in Hn.
    destruct (add_int _ K N Hrs Hrm) as [Hv Hvm]; [lia|lia|lia|].
    exists (K + N).
    split; [apply float_trunc_int; [done|done|unfold INT_MAX; lia]|lia].
Qed.

Lemma nan_add_l y : PrimFloat.add nan y = nan.
Proof. apply Prim2SF_inj. rewrite add_spec. reflexivity. Qed.

Lemma nan_sub_r x : PrimFloat.sub x nan = nan.
Proof.
  apply Prim2SF_inj. rewrite sub_spec.
  change (Prim2SF nan) with S754_nan.
  destruct (Prim2SF x) as [s|s| |s m e]; reflexivity.
Qed.

Lemma nan_div_l y : PrimFloat.div nan y = nan.
Proof. apply Prim2SF_inj. rewrite div_spec. reflexivity. Qed.

Lemma nan_ltb_l y : PrimFloat.ltb nan y = false.
Proof. rewrite ltb_spec. reflexivity. Qed.

Lemma nan_ltb_r x : PrimFloat.ltb x nan = false.
Proof.
  rewrite ltb_spec. change (Prim2SF nan) with S754_nan.
  unfold SFltb, SFcompare.
  destruct (Prim2SF x) as [s|s| |s m e]; try reflexivity;
    destruct s; reflexivity.
Qed.

Lemma nan_add_r x : PrimFloat.add x nan = nan.
Proof.
  apply Prim2SF_inj. rewrite add_spec. change (Prim2SF nan) with S754_nan.
  by destruct (Prim2SF x) as [s|s| |s m e].
Qed.

Lemma nan_div_r x : PrimFloat.div x nan = nan.
Proof.
  apply Prim2SF_inj. rewrite div_spec. change (Prim2SF nan) with S754_nan.
  by destruct (Prim2SF x) as [s|s| |s m e].
Qed.

(** The tail of both branches of [index] once the quotient is a NaN. *)
Lemma index_tail_nan (st half : float) :
  float_trunc (float_round ((nan + float_ofZ 1) / st)) = None
  ∧ float_trunc (float_round ((float_ofZ 1 - nan) / st) + half) = None.
Proof.
  rewrite nan_add_l, nan_sub_r, nan_div_l.
  change (float_round nan) with nan. rewrite nan_add_l. done.
Qed.

(** On binary64, [index] has no defined result for a vector with a product
    that is a NaN, or with two infinite products. *)
Lemma index_undefined (E : EnhancedEpipolar float) (X : Vector3d float) :
  number (dot X (xBase E)) && number (dot X (yBase E))
  && (finite (dot X (xBase E)) || finite (dot X (yBase E))) = false →
  index E X = None.
Proof.
  unfold index.
  set (c := dot X (xBase E)). set (s := dot X (yBase E)).
  cbn [sabs sadd ssub sdiv sltb sofZ sround strunc Scalar_float].
  intros Hbad.
  destruct (index_tail_nan (step E) (float_ofZ (nSteps E ÷ 2)))
    as [Ht1 Ht2].
  assert (Hnan : ∀ x, number x = false → x = nan).
  { intros x Hx. apply Prim2SF_inj. unfold number in Hx.
    by destruct (Prim2SF x). }
  assert (Habs : abs nan = nan) by reflexivity.
  destruct (number c) eqn:Hc.
  2:{ rewrite (Hnan c Hc), Habs, nan_add_l, nan_ltb_l, nan_ltb_r.
      by rewrite nan_div_l. }
  destruct (number s) eqn:Hs.
  2:{ rewrite (Hnan s Hs), Habs, nan_add_r, nan_ltb_l, nan_ltb_l.
      by rewrite nan_div_r. }
  cbn [andb] in Hbad. apply orb_false_iff in Hbad as [Hfc Hfs].
  assert (Hinf : ∀ x, number x = true → finite x = false →
            x = infinity ∨ x = neg_infinity).
  { intros x Hx Hf. unfold number in Hx. unfold finite in Hf.
    destruct (Prim2SF x) as [sx|sx| |sx mx ex] eqn:Ex; try done.
    destruct sx; [right|left]; apply Prim2SF_inj; by rewrite Ex. }
  destruct (Hinf c Hc Hfc) as [-> | ->], (Hinf s Hs Hfs) as [-> | ->].
  - change (PrimFloat.ltb (abs infinity + abs infinity) (dec 1 (-4)))
      with false.
    change (PrimFloat.ltb (abs infinity) (abs infinity)) with false.
    change (infinity / infinity)%float with nan. exact Ht2.
  - change (PrimFloat.ltb (abs infinity + abs neg_infinity) (dec 1 (-4)))
      with false.
    change (PrimFloat.ltb (abs neg_infinity) (abs infinity)) with false.
    change (infinity / neg_infinity)%float with nan. exact Ht2.
  - change (PrimFloat.ltb (abs neg_infinity + abs infinity) (dec 1 (-4)))
      with false.
    change (PrimFloat.ltb (abs infinity) (abs neg_infinity)) with false.
    change (neg_infinity / infinity)%float with nan. exact Ht2.
  - change (PrimFloat.ltb (abs neg_infinity + abs neg_infinity)
              (dec 1 (-4))) with false.
    change (PrimFloat.ltb (abs neg_infinity) (abs neg_infinity)) with false.
    change (neg_infinity / neg_infinity)%float with nan. exact Ht2.
Qed.

(** C10.  On IEEE binary64, for a table that the constructor has built with
    a number of steps that is an [int], and a vector [X] whose products with
    the two axes [xBase] and [yBase] of the table are numbers (not NaN) and
    not both infinite: the table holds [nSteps + 1] curves, the last one a
    copy of entry 0, [index] of [X] is defined and lies in [0, nSteps], and
    [getCurve] finds an entry of the table there. *)
Theorem index_within_table (T12 : Transformation float)
    (cam2 : ICamera float) (n : Z) (E : EnhancedEpipolar float)
    (X : Vector3d float) :
  newEnhancedEpipolar T12 cam2 n = Some E → n ≤ INT_MAX →
  number (dot X (xBase E)) = true → number (dot X (yBase E)) = true →
  finite (dot X (xBase E)) || finite (dot X (yBase E)) = true →
  length (epipolarVec E) = Z.to_nat (nSteps E + 1)
  ∧ getCurve E (nSteps E) = getCurve E 0
  ∧ ∃ i, index E X = Some i
      ∧ 0 ≤ i ≤ nSteps E
      ∧ is_Some (getCurve E i)
      ∧ getCurveOf E X = getCurve E i.
Proof.
  intros HE Hmax Hnc Hns Hfin.
  destruct (newEnhancedEpipolar_members T12 cam2 n E HE)
    as (Hn & Heven & HnE & Hst & _).
  pose proof (newEnhancedEpipolar_params T12 cam2 n E HE) as Hlen.
  destruct (newEnhancedEpipolar_Some T12 cam2 n Hn Heven Hlen)
    as (E' & HE' & _ & _ & Hl & Hdup).
  rewrite HE in HE'. injection HE' as <-. rewrite HnE.
  split; [done|]. split; [done|].
  destruct (index_range E X n HnE Hst ltac:(lia) Heven Hnc Hns Hfin)
    as (i & Hi & Hr).
  exists i. split; [done|]. split; [done|]. split.
  - unfold getCurve. destruct (0 <=? i) eqn:E0; [|lia].
    apply lookup_lt_is_Some_2. lia.
  - unfold getCurveOf. by rewrite Hi.
Qed.

Lemma slantEpipolar_built :
  newEnhancedEpipolar slantPose sixParamCamera 8 = Some slantEpipolar.
Proof. vm_compute. reflexivity. Qed.

(** On the table of the pose [slantPose], the products of the ray
    [hugeRay], whose components are finite, with the two axes overflow:
    both tests of [index] fail, the quotient of the two infinities is a NaN,
    and its conversion to [int] has no defined result. *)
Lemma index_overflow_undefined :
  newEnhancedEpipolar slantPose sixParamCamera 8 = Some slantEpipolar
  ∧ finite (v3x hugeRay) && finite (v3y hugeRay) && finite (v3z hugeRay)
    = true
  ∧ hugeRay ≠ zero3
  ∧ index slantEpipolar hugeRay = None
  ∧ getCurveOf slantEpipolar hugeRay = None.
Proof.
  split; [exact slantEpipolar_built|]. split; [by vm_compute|]. split.
  - intros Hz. apply (f_equal (λ v, finite (1 / v3x v)%float)) in Hz.
    vm_compute in Hz. discriminate.
  - split; by vm_compute.
Qed.

(** ** The curve of a bin *)





Lemma sideEpipolar_built :
  newEnhancedEpipolar sidePose sixParamCamera 8 = Some sideEpipolar.
Proof. vm_compute. reflexivity. Qed.



Lemma index_within_table_witness :
  length (epipolarVec sideEpipolar) = Z.to_nat (nSteps sideEpipolar + 1)
  ∧ getCurve sideEpipolar (nSteps sideEpipolar) = getCurve sideEpipolar 0
  ∧ ∃ i, index sideEpipolar (V3 1 2 3)%float = Some i
      ∧ 0 ≤ i ≤ nSteps sideEpipolar
      ∧ is_Some (getCurve sideEpipolar i)
      ∧ getCurveOf sideEpipolar (V3 1 2 3)%float = getCurve sideEpipolar i.
Proof.
  apply (index_within_table sidePose sixParamCamera 8 sideEpipolar
           (V3 1 2 3)%float).
  - exact sideEpipolar_built.
  - unfold INT_MAX. lia.
  - vm_compute. reflexivity.
  - vm_compute. reflexivity.
  - vm_compute. reflexivity.
Defined.

(** ** Triangulation *)

(** C3. [triangulate] returns [false] and the zero vector exactly when the
    first camera cannot reconstruct the first pixel, or the second camera
    the second pixel, or the determinant [-(v1.v1)(v2.v2) + (v1.v2)^2] of
    the two rays is below [1e-10] in magnitude; in every other case it
    returns [true] and the point [(v1*l1 + t + v2*l2) * 0.5] half way
    between the closest points of the two rays.  This holds for every
    implementation of the operations on [double]. *)
Theorem triangulate_cases {R : Type} `{Scalar R} (st : EnhancedStereo R)
    (x1 y1 x2 y2 : R) :
  let r1 := reconstructPoint (cam1 st) (V2 x1 y1) in
  let r2 := reconstructPoint (cam2 st) (V2 x2 y2) in
  let v1 := r1.2 in
  let v2 := mulMV (rotMat (Transform12 st)) r2.2 in
  let degenerate := sltb (sabs (triangulationDelta v1 v2)) (dec 1 (-10)) in
  triangulate st x1 y1 x2 y2
  = if negb r1.1 || negb r2.1 || degenerate
    then (false, zero3)
    else (true, closestMidpoint (trans (Transform12 st)) v1 v2).
Proof.
  cbn zeta. unfold triangulate, closestMidpoint, closestParams,
    triangulationDelta, zero3.
  destruct (reconstructPoint (cam1 st) (V2 x1 y1)) as [[] v1]; [|done].
  destruct (reconstructPoint (cam2 st) (V2 x2 y2)) as [[] v2]; [|done].
  cbn [negb orb fst snd].
  by destruct (sltb _ _).
Qed.

(** ** Distance *)

(** C4. With [disparity] the stored disparity of pixel [(u, v)]:
    [computeDistance] returns [maxDistance] when [disparity <= 0]; for a
    positive disparity, with a rasterizer and a first-image point for the
    pixel, it moves the rasterizer by [steps(disparity)], triangulates the
    point against the pixel reached, and returns 0 when triangulation
    fails and the norm of the triangulated point otherwise. *)
Theorem computeDistance_cases {R Ras : Type} `{Scalar R}
    `{CurveRasterizer R Ras} (st : EnhancedStereo R) (smallDisparity : list Z)
    (u v disparity : Z) :
  load smallDisparity (v * dispWidth (params st) + u) = Some disparity →
  (disparity ≤ 0 →
     computeDistance st smallDisparity u v = Some (maxDistance st))
  ∧ (0 < disparity →
     ∀ (raster : Ras) pt1,
       getCurveRasteriser st (getLinearIndex (params st) u v) = Some raster →
       at_ (pointVec1 st) (getLinearIndex (params st) u v) = Some pt1 →
       let moved := rasterSteps raster disparity in
       let t := triangulate st (v2x pt1) (v2y pt1)
                  (sofZ (rasterX moved)) (sofZ (rasterY moved)) in
       computeDistance st smallDisparity u v
       = Some (if t.1 then norm t.2 else sofZ 0)).
Proof.
  intros Hd. unfold computeDistance. rewrite Hd. cbn [mbind option_bind].
  split.
  - intros Hle. destruct (disparity <=? 0) eqn:E; [done|lia].
  - intros Hpos raster pt1 Hr Hp. destruct (disparity <=? 0) eqn:E; [lia|].
    rewrite Hr, Hp. cbn [mbind option_bind]. cbn zeta.
    by destruct (triangulate _ _ _ _ _) as [[] X].
Qed.

(** ** The curve-patch cost kernel *)

Lemma at_Some {A} (l : list A) i :
  0 ≤ i < Z.of_nat (length l) → ∃ x, at_ l i = Some x ∧ x ∈ l.
Proof.
  intros Hi. unfold at_. destruct (0 <=? i) eqn:E; [|lia].
  destruct (lookup_lt_is_Some_2 l (Z.to_nat i)) as [x Hx]; [lia|].
  exists x. split; [done|]. by eapply list_elem_of_lookup_2.
Qed.

Lemma accumulate_from a l m M :
  Forall (λ x, m ≤ x ≤ M) l → 0 ≤ m → 0 ≤ a →
  a + M * Z.of_nat (length l) ≤ INT_MAX →
  ∃ s, foldl (λ acc x, a ← acc; iadd a x) (Some a) l = Some s
    ∧ a + m * Z.of_nat (length l) ≤ s ≤ a + M * Z.of_nat (length l).
Proof.
  intros Hl Hm. revert a. induction Hl as [|x l Hx Hl IH]; intros a Ha Hb.
  - exists a. split; [done|]. cbn [length]. lia.
  - cbn [foldl mbind option_bind length] in *.
    rewrite Nat2Z.inj_succ in *. unfold iadd at 2.
    rewrite int_result_Some by (unfold INT_MIN; nia).
    destruct (IH (a + x)) as (s & Hs & Hr); [lia|nia|].
    exists s. split; [done|nia].
Qed.

(** [accumulate] over numbers of [m, M] that do not overflow. *)
Lemma accumulate_Some l m M :
  Forall (λ x, m ≤ x ≤ M) l → 0 ≤ m →
  M * Z.of_nat (length l) ≤ INT_MAX →
  ∃ s, accumulate l = Some s
    ∧ m * Z.of_nat (length l) ≤ s ≤ M * Z.of_nat (length l).
Proof.
  intros Hl Hm Hb. destruct (accumulate_from 0 l m M) as (s & Hs & Hr);
    [done|done|lia|lia|].
  exists s. split; [done|lia].
Qed.

Lemma quot_bound a b m :
  0 < b → - (m * b) ≤ a ≤ m * b → - m ≤ a ÷ b ≤ m.
Proof.
  intros Hb Ha.
  pose proof (Z.quot_rem' a b) as Hq.
  assert (Hm : 0 ≤ m) by nia.
  assert (Hr : - b < Z.rem a b < b).
  { destruct (Z.le_gt_cases 0 a) as [Hpos|Hneg].
    - pose proof (Z.rem_bound_pos a b Hpos Hb). lia.
    - pose proof (Z.rem_bound_pos (- a) b ltac:(lia) Hb) as Hn.
      rewrite Z.rem_opp_l in Hn by lia. lia. }
  assert (H1 : b * (a ÷ b) < b * (m + 1)) by (rewrite Z.mul_add_distr_l; lia).
  assert (H2 : b * (- m - 1) < b * (a ÷ b))
    by (rewrite Z.mul_sub_distr_l, Z.mul_opp_r; lia).
  apply Z.mul_lt_mono_pos_l in H1, H2; lia.
Qed.

(** The weights: with half-length [L], the weight at offset [k] of the
    window of length [2 L + 1] is [L + 1 - |k - L|]: it rises by one from 1
    at either end to [L + 1] at the centre. *)
Lemma weights_spec L :
  1 ≤ L →
  ∃ w, weights L (L * 2 + 1) = Some w
    ∧ Z.of_nat (length w) = L * 2 + 1
    ∧ ∀ k, 0 ≤ k < L * 2 + 1 → get w k = L + 1 - Z.abs (k - L).
Proof.
  intros HL. unfold weights.
  assert (Hlen0 : Z.of_nat (length (replicate (Z.to_nat (L * 2 + 1)) 0))
                  = L * 2 + 1) by (rewrite length_replicate; lia).
  rewrite store_Some by lia. cbn [mbind option_bind].
  set (w0 := <[Z.to_nat L := L + 1]> (replicate (Z.to_nat (L * 2 + 1)) 0)).
  assert (Hl0 : Z.of_nat (length w0) = L * 2 + 1)
    by (unfold w0; rewrite length_insert; done).
  destruct (for_up_inv (λ i w,
      Z.of_nat (length w) = L * 2 + 1
      ∧ get w L = L + 1
      ∧ ∀ k, 0 ≤ k < i →
          get w k = k + 1 ∧ get w (L * 2 + 1 - k - 1) = k + 1)
    0 L (λ i w, w ← store w i (i + 1); store w (L * 2 + 1 - i - 1) (i + 1)) w0)
    as (w & Hw & Hl & Hc & Hk); [lia| | |].
  - split; [done|]. split; [|intros k Hk; lia].
    unfold w0. rewrite get_insert_eq by lia. done.
  - intros i t Hi (Hl & Hc & Hk).
    rewrite store_Some by lia. cbn [mbind option_bind].
    rewrite store_Some by (rewrite length_insert; lia).
    eexists. split; [done|]. split; [by rewrite !length_insert|]. split.
    + rewrite !get_insert_ne by lia. done.
    + intros k Hk'. destruct (decide (k = i)) as [->|Hne].
      * split.
        -- rewrite get_insert_ne by lia.
           rewrite get_insert_eq by lia. done.
        -- rewrite get_insert_eq by (rewrite length_insert; lia). done.
      * rewrite !get_insert_ne by lia. apply Hk. lia.
  - rewrite Hw. exists w. split; [done|]. split; [done|].
    intros k Hk'. destruct (Z.lt_trichotomy k L) as [Hlt|[->|Hgt]].
    + destruct (Hk k ltac:(lia)) as [-> _]. lia.
    + rewrite Hc. lia.
    + destruct (Hk (L * 2 + 1 - k - 1) ltac:(lia)) as [_ Hr].
      replace (L * 2 + 1 - (L * 2 + 1 - k - 1) - 1) with k in Hr by lia.
      rewrite Hr. lia.
Qed.

Lemma get_elem_of (l : list Z) (Q : Z → Prop) :
  (∀ k, 0 ≤ k < Z.of_nat (length l) → Q (get l k)) → Forall Q l.
Proof.
  intros Hk. apply Forall_lookup. intros i x Hx.
  pose proof (lookup_lt_Some _ _ _ Hx) as Hlt.
  specialize (Hk (Z.of_nat i) ltac:(lia)).
  unfold get, load in Hk. destruct (0 <=? Z.of_nat i) eqn:E; [|lia].
  rewrite Nat2Z.id, Hx in Hk. done.
Qed.

Lemma to_uint8_range c : 0 ≤ to_uint8 c ≤ 255.
Proof. unfold to_uint8. pose proof (Z.mod_pos_bound c 256). lia. Qed.

Lemma get_Forall (l : list Z) (Q : Z → Prop) k :
  Forall Q l → 0 ≤ k < Z.of_nat (length l) → Q (get l k).
Proof.
  intros Hl Hk. unfold get, load. destruct (0 <=? k) eqn:E; [|lia].
  destruct (lookup_lt_is_Some_2 l (Z.to_nat k)) as [x Hx]; [lia|].
  rewrite Hx. cbn. by eapply Forall_lookup_1.
Qed.

Lemma at_get (l : list Z) i :
  0 ≤ i < Z.of_nat (length l) → at_ l i = Some (get l i).
Proof.
  intros Hi. unfold at_, get, load. destruct (0 <=? i) eqn:E; [|lia].
  destruct (lookup_lt_is_Some_2 l (Z.to_nat i)) as [x Hx]; [lia|].
  by rewrite Hx.
Qed.

Lemma sampleAlong_spec {R Ras : Type} `{CurveRasterizer R Ras}
    (img2 : Mat8u) (n : Z) (raster : Ras) :
  imageOK img2 → 0 ≤ n →
  ∃ s, sampleAlong img2 n raster = Some s
    ∧ Z.of_nat (length s.2) = n
    ∧ Forall (λ c, 0 ≤ c ≤ 255) s.2.
Proof.
  intros (Hr & Hc & Hl & Hb) Hn. unfold sampleAlong.
  apply (for_up_inv (λ (i : Z) (s : Ras * list Z),
    Z.of_nat (length s.2) = n ∧ Forall (λ c, 0 ≤ c ≤ 255) s.2)); [done| |].
  - cbn [snd]. split; [rewrite length_replicate; lia|].
    apply Forall_replicate. lia.
  - intros i [ras sv] Hi [Hlen Hbytes]. cbn [snd] in *.
    assert (Hpx : ∃ px,
      (if (rasterY ras <? 0) || (rows img2 <=? rasterY ras)
          || (rasterX ras <? 0) || (cols img2 <=? rasterX ras)
       then Some 0
       else load (data img2) (rasterY ras * cols img2 + rasterX ras))
      = Some px ∧ 0 ≤ px ≤ 255).
    { destruct (_ || _) eqn:Eout; [exists 0; split; [done|lia]|].
      apply orb_false_elim in Eout as [Eout E4].
      apply orb_false_elim in Eout as [Eout E3].
      apply orb_false_elim in Eout as [E1 E2].
      assert (0 ≤ rasterY ras * cols img2 + rasterX ras
              < Z.of_nat (length (data img2))) by (rewrite Hl; nia).
      rewrite load_Some by done. eexists. split; [done|].
      by apply (get_Forall _ (λ c, 0 ≤ c ≤ 255)). }
    destruct Hpx as (px & -> & Hpx). cbn [mbind option_bind].
    rewrite store_Some by lia. cbn [mbind option_bind].
    eexists. split; [done|]. cbn [snd].
    split; [by rewrite length_insert|]. by apply Forall_insert.
Qed.

Lemma iadd_Some a b :
  INT_MIN ≤ a + b ≤ INT_MAX → iadd a b = Some (a + b).
Proof. apply int_result_Some. Qed.

Lemma isub_Some a b :
  INT_MIN ≤ a - b ≤ INT_MAX → isub a b = Some (a - b).
Proof. apply int_result_Some. Qed.

Lemma imul_Some a b :
  INT_MIN ≤ a * b ≤ INT_MAX → imul a b = Some (a * b).
Proof. apply int_result_Some. Qed.

Lemma iabs_Some a :
  INT_MIN ≤ Z.abs a ≤ INT_MAX → iabs a = Some (Z.abs a).
Proof. apply int_result_Some. Qed.

Lemma ineg_Some a :
  INT_MIN ≤ - a ≤ INT_MAX → ineg a = Some (- a).
Proof. apply int_result_Some. Qed.

Lemma idiv_Some a b :
  b ≠ 0 → INT_MIN ≤ a ÷ b ≤ INT_MAX → idiv a b = Some (a ÷ b).
Proof.
  intros Hb Hr. unfold idiv. destruct (b =? 0) eqn:E; [lia|].
  by apply int_result_Some.
Qed.

Local Ltac int_range := unfold INT_MIN, INT_MAX in *; (lia || nia).

Section PatchCost.
Context (maxBias L normalizer sum1 D d : Z)
        (descriptor sampleVec weightVec : list Z).
Hypothesis HL : 1 ≤ L ≤ 1000.
Hypothesis Hbias : 0 ≤ maxBias ≤ INT_MAX.
Hypothesis Hnorm : 1 ≤ normalizer.
Hypothesis Hsum1 : 0 ≤ sum1 ≤ 255 * (L * 2 + 1).
Hypothesis Hd : 0 ≤ d < D.
Hypothesis Hdesc_len : Z.of_nat (length descriptor) = L * 2 + 1.
Hypothesis Hdesc : Forall (λ c, 0 ≤ c ≤ 255) descriptor.
Hypothesis Hsamp_len : Z.of_nat (length sampleVec) = D + (L * 2 + 1) - 1.
Hypothesis Hsamp : Forall (λ c, 0 ≤ c ≤ 255) sampleVec.
Hypothesis Hw_len : Z.of_nat (length weightVec) = L * 2 + 1.
Hypothesis Hw : Forall (λ c, 0 ≤ c ≤ L + 1) weightVec.

Lemma get_lookup (l : list Z) (i : nat) x : l !! i = Some x → get l (Z.of_nat i) = x.
Proof.
  intros Hx. unfold get, load.
  rewrite (proj2 (Z.leb_le 0 (Z.of_nat i))) by lia.
  by rewrite Nat2Z.id, Hx.
Qed.

(** The cost of a disparity is computed without leaving [int], and is the
    weighted sum of the absolute differences between the descriptor and
    the window of samples at [d], corrected by the clamped bias, divided by
    the sum of the weights. *)
Lemma patchCost_value :
  accumulate weightVec = Some normalizer →
  ∃ sum2,
    accumulate (take (Z.to_nat (L * 2 + 1)) (drop (Z.to_nat d) sampleVec))
    = Some sum2
    ∧ patchCost maxBias (L * 2 + 1) normalizer sum1
        descriptor sampleVec weightVec d
      = Some (weightedSAD descriptor
                (take (Z.to_nat (L * 2 + 1)) (drop (Z.to_nat d) sampleVec))
                weightVec
                (Z.min maxBias
                   (Z.max (- maxBias) ((sum2 - sum1) ÷ (L * 2 + 1))))).
Proof.
  intros Hnz. unfold patchCost.
  set (window := take (Z.to_nat (L * 2 + 1)) (drop (Z.to_nat d) sampleVec)).
  assert (Hwin_len : Z.of_nat (length window) = L * 2 + 1).
  { unfold window. rewrite length_take, length_drop. lia. }
  assert (Hwin : ∀ i, 0 ≤ i < L * 2 + 1 →
            window !! Z.to_nat i = Some (get sampleVec (d + i))).
  { intros i Hi. unfold window.
    rewrite lookup_take_lt, lookup_drop by lia.
    replace (Z.to_nat d + Z.to_nat i)%nat with (Z.to_nat (d + i)) by lia.
    destruct (lookup_lt_is_Some_2 sampleVec (Z.to_nat (d + i))) as [x Hx];
      [lia|].
    rewrite Hx. f_equal. rewrite <- (get_lookup _ _ _ Hx). f_equal. lia. }
  destruct (accumulate_Some window 0 255) as (sum2 & -> & Hsum2).
  { unfold window. by apply Forall_take, Forall_drop. }
  { lia. }
  { rewrite Hwin_len. unfold INT_MAX. lia. }
  exists sum2. split; [done|].
  rewrite Hwin_len in Hsum2. cbn [mbind option_bind].
  rewrite (isub_Some sum2 sum1) by int_range. cbn [mbind option_bind].
  pose proof (quot_bound (sum2 - sum1) (L * 2 + 1) 255 ltac:(lia) ltac:(lia))
    as Hq.
  rewrite (idiv_Some (sum2 - sum1)) by int_range. cbn [mbind option_bind].
  rewrite ineg_Some by int_range. cbn [mbind option_bind].
  set (bias := Z.min maxBias (Z.max (- maxBias) ((sum2 - sum1) ÷ (L * 2 + 1)))).
  assert (Hb : - 255 ≤ bias ≤ 255) by (unfold bias; lia).
  set (terms := zip_with Z.mul
                  (zip_with (λ a b, Z.abs (a - b + bias)) descriptor window)
                  weightVec).
  assert (Hterm : ∀ i, 0 ≤ i < L * 2 + 1 →
            terms !! Z.to_nat i
            = Some (Z.abs (get descriptor i - get sampleVec (d + i) + bias)
                    * get weightVec i)).
  { intros i Hi. unfold terms. rewrite !lookup_zip_with, Hwin by done.
    destruct (lookup_lt_is_Some_2 descriptor (Z.to_nat i)) as [a Ha]; [lia|].
    destruct (lookup_lt_is_Some_2 weightVec (Z.to_nat i)) as [w Hw0]; [lia|].
    rewrite Ha, Hw0. cbn [mbind option_bind].
    rewrite <- (get_lookup _ _ _ Ha), <- (get_lookup _ _ _ Hw0).
    by rewrite Z2Nat.id by lia. }
  assert (Hterms_len : Z.of_nat (length terms) = L * 2 + 1).
  { unfold terms. rewrite !length_zip_with. lia. }
  destruct (for_up_inv
    (λ i acc, acc = foldr Z.add 0 (take (Z.to_nat i) terms)
              ∧ 0 ≤ acc ≤ 510 * (L + 1) * i) 0 (L * 2 + 1)
    (λ i acc,
       a ← at_ descriptor i;
       b ← at_ sampleVec (d + i);
       w ← at_ weightVec i;
       x ← isub a b;
       y ← iadd x bias;
       z ← iabs y;
       t ← imul z w;
       iadd acc t) 0) as (acc & -> & Hacc & Hrange); [lia|split; [done|lia]| |].
  - intros i acc Hi [Hacc Hrange].
    rewrite !at_get by lia. cbn [mbind option_bind].
    pose proof (get_Forall _ _ i Hdesc ltac:(lia)) as Ha.
    pose proof (get_Forall _ _ (d + i) Hsamp ltac:(lia)) as Hb'.
    pose proof (get_Forall _ _ i Hw ltac:(lia)) as Hw'.
    cbn beta in Ha, Hb', Hw'.
    rewrite isub_Some by int_range. cbn [mbind option_bind].
    rewrite iadd_Some by int_range. cbn [mbind option_bind].
    rewrite iabs_Some by int_range. cbn [mbind option_bind].
    pose proof (Hterm i Hi) as Hti.
    set (z := Z.abs (get descriptor i - get sampleVec (d + i) + bias)) in *.
    assert (Hz : 0 ≤ z ≤ 510) by (unfold z; lia).
    assert (Ht : 0 ≤ z * get weightVec i ≤ 510 * (L + 1)) by nia.
    rewrite imul_Some by int_range. cbn [mbind option_bind].
    rewrite iadd_Some by int_range.
    eexists. split; [done|]. split; [|nia].
    replace (Z.to_nat (i + 1)) with (S (Z.to_nat i)) by lia.
    rewrite (take_S_r _ _ _ Hti), foldr_app. cbn [foldr].
    rewrite Hacc. clear.
    generalize (z * get weightVec i). intros t.
    induction (take (Z.to_nat i) terms) as [|x l IH]; cbn [foldr]; lia.
  - cbn [mbind option_bind].
    pose proof (Z.quot_pos acc normalizer ltac:(lia) ltac:(lia)).
    pose proof (Z.quot_le_upper_bound acc normalizer acc ltac:(lia) ltac:(nia)).
    rewrite idiv_Some by int_range. f_equal.
    unfold weightedSAD. fold terms.
    rewrite Hacc, take_ge by lia. f_equal.
    clear -Hnz. unfold accumulate in Hnz.
    assert (Hgen : ∀ l a s,
      foldl (λ acc x, a ← acc; iadd a x) (Some a) l = Some s →
      s = a + foldr Z.add 0 l).
    { induction l as [|x l IH]; intros a s Hs; cbn [foldl foldr] in *.
      - injection Hs as <-. lia.
      - cbn [mbind option_bind] in Hs. unfold iadd, int_result in Hs.
        destruct (in_int (a + x)).
        + apply IH in Hs. lia.
        + exfalso. clear -Hs. induction l as [|y l IH]; [done|].
          cbn [foldl mbind option_bind] in Hs. by apply IH. }
    apply Hgen in Hnz. lia.
Qed.

(** The cost of a disparity is computed without leaving [int]. *)
Lemma patchCost_Some :
  ∃ c, patchCost maxBias (L * 2 + 1) normalizer sum1
         descriptor sampleVec weightVec d = Some c.
Proof.
  unfold patchCost.
  set (window := take (Z.to_nat (L * 2 + 1)) (drop (Z.to_nat d) sampleVec)).
  assert (Hwin_len : Z.of_nat (length window) = L * 2 + 1).
  { unfold window. rewrite length_take, length_drop. lia. }
  destruct (accumulate_Some window 0 255) as (sum2 & -> & Hsum2).
  { unfold window. by apply Forall_take, Forall_drop. }
  { lia. }
  { rewrite Hwin_len. unfold INT_MAX. lia. }
  rewrite Hwin_len in Hsum2. cbn [mbind option_bind].
  rewrite (isub_Some sum2 sum1) by int_range. cbn [mbind option_bind].
  pose proof (quot_bound (sum2 - sum1) (L * 2 + 1) 255 ltac:(lia) ltac:(lia))
    as Hq.
  rewrite (idiv_Some (sum2 - sum1)) by int_range. cbn [mbind option_bind].
  rewrite ineg_Some by int_range. cbn [mbind option_bind].
  set (bias := Z.min maxBias (Z.max (- maxBias) ((sum2 - sum1) ÷ (L * 2 + 1)))).
  assert (Hb : - 255 ≤ bias ≤ 255) by (unfold bias; lia).
  destruct (for_up_inv (λ i acc, 0 ≤ acc ≤ 510 * (L + 1) * i) 0 (L * 2 + 1)
    (λ i acc,
       a ← at_ descriptor i;
       b ← at_ sampleVec (d + i);
       w ← at_ weightVec i;
       x ← isub a b;
       y ← iadd x bias;
       z ← iabs y;
       t ← imul z w;
       iadd acc t) 0) as (acc & -> & Hacc); [lia|lia| |].
  - intros i acc Hi Hacc.
    rewrite !at_get by lia. cbn [mbind option_bind].
    pose proof (get_Forall _ _ i Hdesc ltac:(lia)) as Ha.
    pose proof (get_Forall _ _ (d + i) Hsamp ltac:(lia)) as Hb'.
    pose proof (get_Forall _ _ i Hw ltac:(lia)) as Hw'.
    cbn beta in Ha, Hb', Hw'.
    rewrite isub_Some by int_range. cbn [mbind option_bind].
    rewrite iadd_Some by int_range. cbn [mbind option_bind].
    rewrite iabs_Some by int_range. cbn [mbind option_bind].
    set (z := Z.abs (get descriptor i - get sampleVec (d + i) + bias)).
    assert (Hz : 0 ≤ z ≤ 510) by (unfold z; lia).
    assert (Ht : 0 ≤ z * get weightVec i ≤ 510 * (L + 1)) by nia.
    rewrite imul_Some by int_range. cbn [mbind option_bind].
    rewrite iadd_Some by int_range.
    eexists. split; [done|]. nia.
  - cbn [mbind option_bind].
    pose proof (Z.quot_pos acc normalizer ltac:(lia) ltac:(lia)).
    pose proof (Z.quot_le_upper_bound acc normalizer acc ltac:(lia) ltac:(nia)).
    rewrite idiv_Some by int_range.
    by eexists.
Qed.
End PatchCost.

(** A loop that stores one value per disparity into the slots of a pixel. *)
Lemma store_loop (err : list Z) (out D : Z) (val : Z → option Z)
    (g : Z → Z) (Q : Z → Prop) :
  0 ≤ out → out + D ≤ Z.of_nat (length err) → 0 ≤ D →
  (∀ d, 0 ≤ d < D → ∃ c, val d = Some c ∧ Q (g c)) →
  ∃ err', for_up 0 D (λ d e, c ← val d; store e (out + d) (g c)) err
          = Some err'
    ∧ length err' = length err
    ∧ (∀ p, ¬ (out ≤ p < out + D) → get err' p = get err p)
    ∧ (∀ d, 0 ≤ d < D → Q (get err' (out + d))).
Proof.
  intros Hout Hlen HD Hval.
  apply (for_up_inv (λ i e,
    length e = length err
    ∧ (∀ p, ¬ (out ≤ p < out + i) → get e p = get err p)
    ∧ (∀ d, 0 ≤ d < i → Q (get e (out + d))))); [done| |].
  - split; [done|]. split; [done|]. intros d Hd. lia.
  - intros i e Hi (Hl & Hfr & Hq).
    destruct (Hval i Hi) as (c & -> & Hc). cbn [mbind option_bind].
    rewrite store_Some by lia. eexists. split; [done|].
    split; [by rewrite length_insert|]. split.
    + intros p Hp. rewrite get_insert_ne by lia. apply Hfr. lia.
    + intros d Hd. destruct (decide (d = i)) as [->|Hne].
      * rewrite get_insert_eq by lia. done.
      * rewrite get_insert_ne by lia. apply Hq. lia.
Qed.

Section CurveCost.
Context {R Ras : Type} `{Scalar R} `{CurveRasterizer R Ras}.
Context (bilinear : Mat8u → R → R → Z).
Context (st : EnhancedStereo R) (img1 img2 : Mat8u) (err0 : list Z).

Let P := params st.
Let D := dispMax P.
Let W := dispWidth P.
Let Ht := dispHeight P.
Let L := Z.max (scale P - 1) 1.

Hypothesis Hready : costReady st err0.
Hypothesis Himg : imageOK img2.

Lemma halfLength_range : 1 ≤ L ≤ 1000.
Proof. destruct Hready as (Hs & _). fold P in Hs. unfold L. lia. Qed.

Lemma pixel_slots v u :
  0 ≤ v < Ht → 0 ≤ u < W →
  0 ≤ v * bufferWidth P + u * D
  ∧ v * bufferWidth P + u * D + D ≤ Z.of_nat (length err0).
Proof.
  intros Hv Hu. destruct Hready as (_ & _ & HD & _ & _ & _ & Hl & _).
  fold P in HD, Hl. fold D in HD. rewrite Hl. unfold bufferWidth.
  fold W D Ht.
  replace (v * (W * D) + u * D) with ((v * W + u) * D) by ring.
  destruct (decide (D = 0)) as [->|Hne]; [nia|].
  apply pix_range; lia.
Qed.

Lemma pixel_index v u :
  0 ≤ v < Ht → 0 ≤ u < W →
  0 ≤ getLinearIndex P u v < Ht * W.
Proof. intros Hv Hu. unfold getLinearIndex. fold W. nia. Qed.

Lemma descriptor_bytes pt dir :
  Z.of_nat (length (descriptorAt bilinear img1 L (L * 2 + 1) pt dir))
  = L * 2 + 1
  ∧ Forall (λ c, 0 ≤ c ≤ 255) (descriptorAt bilinear img1 L (L * 2 + 1) pt dir).
Proof.
  pose proof halfLength_range. unfold descriptorAt. split.
  - rewrite length_fmap, length_seqZ. lia.
  - apply Forall_fmap, Forall_forall. intros i _. apply to_uint8_range.
Qed.

(** One pixel of the cost kernel: it runs to its end, writes bytes into
    the slots of its pixel only, and zeros when the direction of the pixel
    is not a number. *)
Lemma curveCostPixel_spec v u err w normalizer :
  length err = length err0 →
  0 ≤ v < Ht → 0 ≤ u < W →
  Z.of_nat (length w) = L * 2 + 1 →
  Forall (λ c, 0 ≤ c ≤ L + 1) w →
  1 ≤ normalizer →
  let out := v * bufferWidth P + u * D in
  ∃ err',
    curveCostPixel bilinear st img1 img2 L (L * 2 + 1) normalizer w v u err
    = Some err'
    ∧ length err' = length err
    ∧ (∀ p, ¬ (out ≤ p < out + D) → get err' p = get err p)
    ∧ (∀ d, 0 ≤ d < D → 0 ≤ get err' (out + d) ≤ 255)
    ∧ (∀ dir,
         at_ (epipolarDirectionVec st) (getLinearIndex P u v) = Some dir →
         ne2 dir dir = true →
         ∀ d, 0 ≤ d < D → get err' (out + d) = 0).
Proof.
  intros Hlen Hv Hu Hwl Hw Hn out.
  pose proof halfLength_range as HL.
  pose proof (pixel_slots v u Hv Hu) as [Ho1 Ho2]. fold out in Ho1, Ho2.
  pose proof (pixel_index v u Hv Hu) as Hidx.
  pose proof Hready as (Hs & Hmb & HD & HD' & HW & HH & Hl & Hpv & Hdv & Hras).
  fold P in Hs, Hmb, HD, HD', HW, HH, Hl, Hpv, Hdv, Hras.
  fold D in HD, HD'. fold W Ht in Hpv, Hdv, Hras.
  unfold curveCostPixel. fold P. fold D. fold out.
  destruct (at_Some (pointVec1 st) (getLinearIndex P u v)) as (pt & -> & _);
    [lia|].
  destruct (at_Some (epipolarDirectionVec st) (getLinearIndex P u v))
    as (dir & Hdir & _); [lia|].
  rewrite Hdir. cbn [mbind option_bind].
  destruct (ne2 dir dir) eqn:Enan.
  - destruct (store_loop err out D (λ _, Some 0) (λ c, c) (λ c, c = 0))
      as (err' & Herr' & Hl' & Hfr & Hz); [lia|lia|lia| |].
    { intros d Hd. by exists 0. }
    exists err'. split; [exact Herr'|]. split; [done|]. split; [done|].
    split.
    + intros d Hd. rewrite Hz by done. lia.
    + intros dir' Hdir' _ d Hd. by apply Hz.
  - destruct (Hras u v dir Hv Hu Hdir Enan) as [raster ->].
    cbn [mbind option_bind].
    rewrite iadd_Some by (unfold INT_MIN, INT_MAX in *; lia).
    cbn [mbind option_bind].
    rewrite isub_Some by (unfold INT_MIN, INT_MAX in *; lia).
    cbn [mbind option_bind].
    destruct (sampleAlong_spec img2 (D + (L * 2 + 1) - 1)
                (rasterSteps raster (- L)) Himg ltac:(lia))
      as (s & -> & Hsl & Hsb).
    cbn [mbind option_bind].
    destruct (descriptor_bytes pt dir) as [Hdl Hdb].
    destruct (accumulate_Some _ 0 255 Hdb ltac:(lia)) as (sum1 & -> & Hsum1).
    { rewrite Hdl. unfold INT_MAX. lia. }
    rewrite Hdl in Hsum1. cbn [mbind option_bind].
    destruct (store_loop err out D
      (patchCost (maxBias P) (L * 2 + 1) normalizer sum1
         (descriptorAt bilinear img1 L (L * 2 + 1) pt dir) s.2 w)
      to_uint8 (λ c, 0 ≤ c ≤ 255))
      as (err' & Herr' & Hl' & Hfr & Hz); [lia|lia|lia| |].
    { intros d Hd.
      destruct (patchCost_Some (maxBias P) L normalizer sum1 D d
                  (descriptorAt bilinear img1 L (L * 2 + 1) pt dir) s.2 w)
        as (c & Hc); try done; try lia.
      exists c. split; [done|]. apply to_uint8_range. }
    exists err'. split; [exact Herr'|]. split; [done|]. split; [done|].
    split; [done|].
    intros dir' Hdir' Hnan. injection Hdir' as <-. congruence.
Qed.

Lemma pixelDone_frame err err' v u :
  0 ≤ v < Ht → 0 ≤ u < W →
  (∀ d, 0 ≤ d < D →
     get err' (v * bufferWidth P + u * D + d)
     = get err (v * bufferWidth P + u * D + d)) →
  pixelDone st err v u → pixelDone st err' v u.
Proof.
  intros Hv Hu Hsame Hdone d Hd. unfold entry. fold P. fold D.
  rewrite Hsame by done. by apply Hdone.
Qed.

Lemma pixels_disjoint v u v' u' d :
  0 ≤ u < W → 0 ≤ u' < W → (v, u) ≠ (v', u') → 0 ≤ d < D →
  ¬ (v' * bufferWidth P + u' * D
     ≤ v * bufferWidth P + u * D + d
     < v' * bufferWidth P + u' * D + D).
Proof.
  intros Hu Hu' Hne Hd. unfold bufferWidth. fold W D.
  replace (v * (W * D) + u * D) with ((v * W + u) * D) by ring.
  replace (v' * (W * D) + u' * D) with ((v' * W + u') * D) by ring.
  destruct (pix_disjoint W D v u v' u') as [?|?]; try done; lia.
Qed.

(** The whole cost kernel: it runs to its end and every pixel of the
    working grid is done. *)
Lemma computeCurveCost_spec :
  ∃ err', computeCurveCost bilinear st img1 img2 err0 = Some err'
    ∧ length err' = length err0
    ∧ ∀ v u, 0 ≤ v < Ht → 0 ≤ u < W → pixelDone st err' v u.
Proof.
  pose proof halfLength_range as HL.
  pose proof Hready as (Hs & Hmb & HD & HD' & HW & HH & _).
  fold P in Hs, HW, HH. fold W in HW. fold Ht in HH.
  unfold computeCurveCost. fold P.
  rewrite isub_Some by (unfold INT_MIN, INT_MAX; lia).
  cbn [mbind option_bind]. fold L.
  rewrite imul_Some by (unfold INT_MIN, INT_MAX; lia).
  cbn [mbind option_bind].
  rewrite iadd_Some by (unfold INT_MIN, INT_MAX; lia).
  cbn [mbind option_bind].
  destruct (weights_spec L ltac:(lia)) as (w & -> & Hwl & Hwk).
  cbn [mbind option_bind].
  assert (Hw : Forall (λ c, 1 ≤ c ≤ L + 1) w).
  { apply get_elem_of. intros k Hk. rewrite Hwk by lia. lia. }
  destruct (accumulate_Some w 1 (L + 1) Hw ltac:(lia)) as (nz & -> & Hnz).
  { rewrite Hwl. unfold INT_MAX. nia. }
  cbn [mbind option_bind].
  assert (Hw' : Forall (λ c, 0 ≤ c ≤ L + 1) w).
  { eapply Forall_impl; [exact Hw|]. intros c Hc. cbn beta in *. lia. }
  fold Ht W.
  apply (for_up_inv (λ v e,
    length e = length err0
    ∧ ∀ v' u, 0 ≤ v' < v → 0 ≤ u < W → pixelDone st e v' u)); [done| |].
  - split; [done|]. intros v' u Hv'. lia.
  - intros v e Hv (Hl & Hrows).
    destruct (for_up_inv (λ u e',
      length e' = length err0
      ∧ (∀ v' u', 0 ≤ v' < v → 0 ≤ u' < W → pixelDone st e' v' u')
      ∧ (∀ u', 0 ≤ u' < u → pixelDone st e' v u')) 0 W
      (λ u e', curveCostPixel bilinear st img1 img2 L (L * 2 + 1) nz w v u e')
      e) as (e2 & -> & Hl2 & Hrows2 & Hrow); [done| | |].
    + split; [done|]. split; [done|]. intros u' Hu'. lia.
    + intros u e1 Hu (Hl1 & Hrows1 & Hrow1).
      destruct (curveCostPixel_spec v u e1 w nz Hl1 Hv Hu Hwl Hw'
                  ltac:(lia)) as (e' & -> & Hl' & Hfr & Hby & Hnan).
      exists e'. split; [done|]. split; [congruence|].
      assert (Hkeep : ∀ v' u', 0 ≤ v' < Ht → 0 ≤ u' < W → (v', u') ≠ (v, u) →
                pixelDone st e1 v' u' → pixelDone st e' v' u').
      { intros v' u' Hv' Hu' Hne. apply pixelDone_frame; [done|done|].
        intros d Hd. apply Hfr. by apply pixels_disjoint. }
      split; [|intros u' Hu'; destruct (decide (u' = u)) as [->|Hne]].
      * intros v' u' Hv' Hu'. apply Hkeep; [lia|done| |by apply Hrows1].
        intros [=]. lia.
      * intros d Hd. unfold entry. fold P. fold D. split; [by apply Hby|].
        intros dir Hdir Hn. by apply (Hnan dir).
      * apply Hkeep; [lia|lia| |apply Hrow1; lia]. intros [=]. lia.
    + exists e2. split; [done|]. split; [done|].
      intros v' u' Hv' Hu'. destruct (decide (v' = v)) as [->|Hne].
      * by apply Hrow.
      * apply Hrows2; [lia|done].
Qed.
End CurveCost.

(** ** Pixels without an epipolar direction *)

(** C8. On a cost volume of the size of the working grid, with a point and
    a direction for every pixel and a rasterizer for every pixel whose
    direction is defined, [computeCurveCost] runs to its end and, for
    every pixel whose epipolar direction is not a number
    ([dir != dir]), leaves cost 0 at every disparity of [0, dispMax). *)
Theorem undefined_direction_costs_zero {R Ras : Type} `{Scalar R}
    `{CurveRasterizer R Ras} (bilinear : Mat8u → R → R → Z)
    (st : EnhancedStereo R) (img1 img2 : Mat8u) (err : list Z) :
  costReady st err → imageOK img2 →
  ∃ err', computeCurveCost bilinear st img1 img2 err = Some err'
    ∧ length err' = length err
    ∧ ∀ v u dir,
        0 ≤ v < dispHeight (params st) → 0 ≤ u < dispWidth (params st) →
        at_ (epipolarDirectionVec st) (getLinearIndex (params st) u v)
        = Some dir →
        ne2 dir dir = true →
        ∀ d, 0 ≤ d < dispMax (params st) → entry (params st) err' v u d = 0.
Proof.
  intros Hready Himg.
  destruct (computeCurveCost_spec bilinear st img1 img2 err Hready Himg)
    as (err' & Herr' & Hl & Hdone).
  exists err'. split; [done|]. split; [done|].
  intros v u dir Hv Hu Hdir Hnan d Hd.
  destruct (Hdone v u Hv Hu d Hd) as [_ Hz]. by apply (Hz dir).
Qed.

Lemma pairStereo_ready : costReady pairStereo (replicate 4 7).
Proof.
  unfold costReady. cbn [params pairStereo pairParams scale maxBias dispMax
    dispWidth dispHeight pointVec1 epipolarDirectionVec length].
  unfold INT_MAX, bufferWidth. cbn [dispWidth dispMax].
  repeat (split; [done || lia|]).
  intros u v dir Hv Hu Hdir Hne.
  assert (v = 0) as -> by lia.
  assert (u = 0 ∨ u = 1) as [-> | ->] by lia.
  - vm_compute in Hdir. injection Hdir as <-. by vm_compute in Hne.
  - vm_compute. by eexists.
Qed.

Lemma pairImage_ok : imageOK pairImage.
Proof.
  repeat split; try done. repeat constructor; cbn; lia.
Qed.

Lemma undefined_direction_costs_zero_witness :
  ∃ err',
    computeCurveCost nearestSample pairStereo pairImage pairImage
      (replicate 4 7) = Some err'
    ∧ length err' = length (replicate 4 7)
    ∧ ∀ v u dir,
        0 ≤ v < dispHeight (params pairStereo) →
        0 ≤ u < dispWidth (params pairStereo) →
        at_ (epipolarDirectionVec pairStereo)
            (getLinearIndex (params pairStereo) u v) = Some dir →
        ne2 dir dir = true →
        ∀ d, 0 ≤ d < dispMax (params pairStereo) →
             entry (params pairStereo) err' v u d = 0.
Proof.
  apply (undefined_direction_costs_zero nearestSample pairStereo pairImage
           pairImage (replicate 4 7)).
  - exact pairStereo_ready.
  - exact pairImage_ok.
Defined.

Lemma computeDistance_cases_witness :
  (1 ≤ 0 →
     computeDistance pairStereo [0; 1] 1 0 = Some (maxDistance pairStereo))
  ∧ (0 < 1 →
     ∀ (raster : Raster float) pt1,
       getCurveRasteriser pairStereo (getLinearIndex (params pairStereo) 1 0)
       = Some raster →
       at_ (pointVec1 pairStereo) (getLinearIndex (params pairStereo) 1 0)
       = Some pt1 →
       let moved := rasterSteps raster 1 in
       let t := triangulate pairStereo (v2x pt1) (v2y pt1)
                  (sofZ (rasterX moved)) (sofZ (rasterY moved)) in
       computeDistance pairStereo [0; 1] 1 0
       = Some (if t.1 then norm t.2 else sofZ 0)).
Proof.
  apply (computeDistance_cases pairStereo [0; 1] 1 0 1). reflexivity.
Defined.

(** ** The stored byte of the curve-patch kernel *)

(** C6, for [scale = 3] and [maxBias = 10], on the descriptor
    [0, 0, 255, 255, 0] and the window of samples [255, 255, 0, 0, 255]:
    the half-length is 2, the weights are [1, 2, 3, 2, 1] with sum 9, the
    bias is [(765 - 510) / 5 = 51] clamped to 10, and the weighted sum of
    absolute differences divided by the sum of the weights is 256; the
    byte stored in the cost volume is 0. *)
Theorem curve_cost_byte_wraps :
  weights (Z.max (3 - 1) 1) 5 = Some [1; 2; 3; 2; 1]
  ∧ accumulate [1; 2; 3; 2; 1] = Some 9
  ∧ accumulate stripeDescriptor = Some 510
  ∧ accumulate stripeSamples = Some 765
  ∧ Z.min 10 (Z.max (- 10) ((765 - 510) ÷ 5)) = 10
  ∧ weightedSAD stripeDescriptor stripeSamples [1; 2; 3; 2; 1] 10 = 256
  ∧ patchCost 10 5 9 510 stripeDescriptor stripeSamples [1; 2; 3; 2; 1] 0
    = Some 256
  ∧ (c ← patchCost 10 5 9 510 stripeDescriptor stripeSamples
                   [1; 2; 3; 2; 1] 0;
     store [77] 0 (to_uint8 c)) = Some [0].
Proof. repeat split; vm_compute; reflexivity. Qed.

(** ** Point clouds *)

Lemma resize_length {A} n (fill : A) v : length (resize n fill v) = n.
Proof. unfold resize. rewrite length_app, length_take, length_replicate. lia. Qed.

Lemma cloudLoop_spec {A B} (f : A → bool * B) (fill : B) (src : list A)
    (dst : list B) :
  cloudLoop f fill src dst
  = Some (forallb (λ p, (f p).1) src, (λ p, (f p).2) <$> src).
Proof.
  unfold cloudLoop.
  destruct (for_up_inv
    (λ i (s : bool * list B),
       length s.2 = length src
       ∧ s.1 = forallb (λ p, (f p).1) (take (Z.to_nat i) src)
       ∧ take (Z.to_nat i) s.2 = (λ p, (f p).2) <$> take (Z.to_nat i) src)
    0 (Z.of_nat (length src))
    (λ i (s : bool * list B),
       p ← at_ src i;
       let (ok, q) := f p in
       dst ← set_at s.2 i q;
       Some (s.1 && ok, dst))
    (true, resize (length src) fill dst))
    as ([res out] & -> & Hl & Hres & Hout); [lia| | |].
  - cbn [fst snd]. by rewrite resize_length.
  - intros i [res out] Hi (Hl & Hres & Hout). cbn [fst snd] in *.
    destruct (lookup_lt_is_Some_2 src (Z.to_nat i)) as [p Hp]; [lia|].
    unfold at_. rewrite (proj2 (Z.leb_le 0 i)) by lia. rewrite Hp.
    cbn [mbind option_bind].
    destruct (f p) as [ok q] eqn:Hf. unfold set_at.
    rewrite (proj2 (Z.leb_le 0 i)) by lia.
    rewrite (proj2 (Z.ltb_lt i _)) by lia.
    cbn [andb mbind option_bind]. eexists. split; [done|]. cbn [fst snd].
    rewrite length_insert. split; [done|].
    replace (Z.to_nat (i + 1)) with (Datatypes.S (Z.to_nat i)) by lia.
    rewrite (take_S_r src _ p Hp), forallb_app, fmap_app.
    cbn [forallb fmap list_fmap]. rewrite Hf. cbn [fst snd].
    split; [by rewrite Hres, andb_true_r|].
    rewrite (take_S_r _ _ q) by (apply list_lookup_insert_eq; lia).
    f_equal. rewrite take_insert_ge by lia. done.
  - cbn [fst snd] in *. f_equal.
    rewrite Nat2Z.id in Hres, Hout.
    rewrite take_ge in Hres by lia.
    rewrite take_ge in Hout by lia. rewrite take_ge in Hout by lia.
    by rewrite Hres, Hout.
Qed.

(** X1. [reconstructPointCloud] and [projectPointCloud] always run to
    their end; the vector they leave has one entry for each point of
    [src], the value that the camera's map leaves for that point whether
    the map succeeded or not: a failure does not stop the loop.  The flag
    they return is true exactly when the map succeeded on every point.  (A
    camera's map is taken to write its result on every call, as those of
    the pinhole camera do, so that nothing of the former [dst] is left.) *)
Theorem pointCloud_maps {R : Type} `{Scalar R} (cam : ICamera R)
    (src2 dst2 : list (Vector2d R)) (src3 dst3 : list (Vector3d R)) :
  reconstructPointCloud cam src2 dst3
  = Some (forallb (λ p, (reconstructPoint cam p).1) src2,
          (λ p, (reconstructPoint cam p).2) <$> src2)
  ∧ projectPointCloud cam src3 dst2
  = Some (forallb (λ p, (projectPoint cam p).1) src3,
          (λ p, (projectPoint cam p).2) <$> src3).
Proof. split; apply cloudLoop_spec. Qed.

(** ** The pinhole camera *)

(** X27. On IEEE binary64, for a pinhole camera with any parameters:
    [reconstructPoint] succeeds on every pixel and leaves a point of depth
    exactly 1, which [projectPoint] never rejects (1 is not below 0.01);
    so a cloud of pixels is reconstructed and projected back with both
    flags true and one pixel per input.  A point whose depth is a NaN is
    not rejected either: the test [z < 0.01] fails on a NaN, and
    [projectPoint] returns true with the pixel [(NaN, NaN)]. *)
Theorem Pinhole_depth_test (u0 v0 f : float) :
  let cam := Pinhole u0 v0 f in
  (∀ p, (reconstructPoint cam p).1 = true
        ∧ v3z (reconstructPoint cam p).2 = 1%float
        ∧ (projectPoint cam (reconstructPoint cam p).2).1 = true)
  ∧ (∀ src dst3 dst2,
       ∃ pts pxs,
         reconstructPointCloud cam src dst3 = Some (true, pts)
         ∧ projectPointCloud cam pts dst2 = Some (true, pxs)
         ∧ length pxs = length src)
  ∧ (∀ x y, projectPoint cam (V3 x y nan) = (true, V2 nan nan)).
Proof.
  intros cam.
  assert (Hp : ∀ p, (reconstructPoint cam p).1 = true
                    ∧ v3z (reconstructPoint cam p).2 = 1%float
                    ∧ (projectPoint cam (reconstructPoint cam p).2).1 = true).
  { intros p. split; [done|]. split; [done|].
    cbn [cam Pinhole reconstructPoint projectPoint fst snd v3z].
    by change (sltb (sofZ 1) (dec 1 (-2))) with false. }
  split; [exact Hp|]. split.
  - intros src dst3 dst2. unfold reconstructPointCloud, projectPointCloud.
    set (pts := (λ p, (reconstructPoint cam p).2) <$> src).
    exists pts, ((λ X, (projectPoint cam X).2) <$> pts).
    rewrite !cloudLoop_spec. fold pts. split; [|split].
    + f_equal. f_equal. apply forallb_forall. intros p _. apply Hp.
    + f_equal. f_equal. subst pts.
      induction src as [|p src IH]; [done|].
      cbn [fmap list_fmap forallb]. destruct (Hp p) as (_ & _ & ->).
      exact IH.
    + unfold pts. by rewrite !length_fmap.
  - intros x y. cbn [cam Pinhole projectPoint v3z v3x v3y].
    cbn [sltb sdiv sadd smul Scalar_float].
    by rewrite nan_ltb_l, !nan_div_r, !nan_add_l.
Qed.

(** ** The constructor of the table *)

(** X6. The constructor of [EnhancedEpipolar] has a result exactly for a
    positive even number of steps (the camera having its six parameters):
    an odd number fails its assertion, and with no step, or a negative
    number of them, the table is empty when the constructor takes its
    first entry. *)
Theorem newEnhancedEpipolar_defined_iff {S} `{Scalar S}
    (T12 : Transformation S) (cam2 : ICamera S) (n : Z) :
  (6 ≤ length (camParams cam2))%nat →
  is_Some (newEnhancedEpipolar T12 cam2 n) ↔ 0 < n ∧ Z.rem n 2 = 0.
Proof.
  intros Hlen. split.
  - intros [E HE].
    by destruct (newEnhancedEpipolar_members T12 cam2 n E HE) as (? & ? & _).
  - intros [Hn Heven].
    destruct (newEnhancedEpipolar_Some T12 cam2 n Hn Heven Hlen) as (E & -> & _).
    done.
Qed.

Lemma newEnhancedEpipolar_defined_iff_witness :
  is_Some (newEnhancedEpipolar (@sidePose float _) sixParamCamera 8)
  ↔ 0 < 8 ∧ Z.rem 8 2 = 0.
Proof.
  apply (newEnhancedEpipolar_defined_iff sidePose sixParamCamera 8).
  cbn. lia.
Defined.

(** ** More on the sweeps *)

Lemma dpRecurrence_upper D ls lj prev cost d :
  dpRecurrence D ls lj prev cost d ≤ cost d + prev d.
Proof. unfold dpRecurrence. cbn [foldr]. lia. Qed.

Lemma dpRecurrence_lower D ls lj prev cost d m :
  2 ≤ D → 0 ≤ d < D → 0 ≤ ls → 0 ≤ lj →
  (∀ k, 0 ≤ k < D → m ≤ prev k) →
  cost d + m ≤ dpRecurrence D ls lj prev cost d.
Proof.
  intros HD Hd Hls Hlj Hp. unfold dpRecurrence, neighbours.
  destruct (minOver_spec prev D ltac:(lia)) as [_ (k & Hk & Hmin)].
  pose proof (Hp k Hk). pose proof (Hp d Hd).
  destruct (0 <? d) eqn:E1; destruct (d + 1 <? D) eqn:E2; simpl;
    try (pose proof (Hp (d - 1) ltac:(lia)));
    try (pose proof (Hp (d + 1) ltac:(lia))); lia.
Qed.

Lemma entry_byte P err v u d :
  wellFormed P err →
  0 ≤ v < dispHeight P → 0 ≤ u < dispWidth P → 0 ≤ d < dispMax P →
  0 ≤ entry P err v u d ≤ 255.
Proof.
  intros Hwf Hv Hu Hd. unfold entry. apply (wf_bytes P err Hwf).
  destruct (wf_range P err Hwf v u Hv Hu) as [H1 H2].
  unfold bufferWidth. lia.
Qed.

(** With penalties that are not negative, an entry of a swept tableau is
    at least the raw cost of its pixel and at most the cost of the straight
    path to it. *)
Lemma swept_sandwich P err t (dom : Z → Z → Prop) (first : Z → Z → Prop)
    (dv du : Z) (rank : Z → Z → Z) :
  2 ≤ dispMax P → 0 ≤ lambdaStep P → 0 ≤ lambdaJump P →
  (∀ v u, dom v u → sweptFrom P err t (first v u) v u (v - dv) (u - du)) →
  (∀ v u, dom v u → 0 ≤ rank v u ∧ (first v u ↔ rank v u = 0)) →
  (∀ v u, dom v u → ¬ first v u →
     dom (v - dv) (u - du) ∧ rank (v - dv) (u - du) = rank v u - 1) →
  (∀ v u d, dom v u → 0 ≤ d < dispMax P → 0 ≤ entry P err v u d) →
  ∀ v u d, dom v u → 0 ≤ d < dispMax P →
    entry P err v u d ≤ entry P t v u d
    ≤ costAlong P err dv du (Z.to_nat (rank v u)) v u d.
Proof.
  intros HD Hls Hlj Hs Hrank Hprev Hcost.
  assert (Hind : ∀ n : nat, ∀ v u, dom v u → rank v u = Z.of_nat n →
            ∀ d, 0 ≤ d < dispMax P →
              entry P err v u d ≤ entry P t v u d
              ≤ costAlong P err dv du n v u d).
  { induction n as [|n IH]; intros v u Hdom Hr d Hd.
    - destruct (Hrank v u Hdom) as [_ Hf].
      assert (Hfirst : first v u) by (by apply Hf).
      destruct (Hs v u Hdom d Hd) as [E1 _].
      rewrite (E1 Hfirst). cbn [costAlong]. lia.
    - destruct (Hrank v u Hdom) as [_ Hf].
      assert (Hnf : ¬ first v u) by (rewrite Hf; lia).
      destruct (Hprev v u Hdom Hnf) as [Hdom' Hr'].
      destruct (Hs v u Hdom d Hd) as [_ E1]. rewrite (E1 Hnf).
      cbn [costAlong]. split.
      + etrans; [|apply (dpRecurrence_lower _ _ _ _ _ _ 0); try done].
        * lia.
        * intros k Hk.
          destruct (IH (v - dv) (u - du) Hdom' ltac:(lia) k Hk) as [Hlo _].
          specialize (Hcost (v - dv) (u - du) k Hdom' Hk). lia.
      + etrans; [apply dpRecurrence_upper|].
        destruct (IH (v - dv) (u - du) Hdom' ltac:(lia) d Hd) as [_ Hhi].
        lia. }
  intros v u d Hdom Hd. destruct (Hrank v u Hdom) as [Hr _].
  apply (Hind (Z.to_nat (rank v u))); [done|lia|done].
Qed.

(** X10. With penalties that are not negative, on buffers that the sweeps
    accept: every entry of each of the four tableaux is at least the raw
    cost of its pixel and disparity, and at most the sum of the raw costs
    at that disparity of the pixels from the start of the scan to the
    pixel, the cost of the path that never changes the disparity. *)
Theorem tableau_between_cost_and_straight_path (P : StereoParameters)
    (B : Buffers) :
  0 ≤ lambdaStep P → 0 ≤ lambdaJump P →
  buffersReady P B →
  ∃ B', computeDynamicProgramming P B = Some B'
    ∧ ∀ v u d, 0 ≤ v < dispHeight P → 0 ≤ u < dispWidth P →
        0 ≤ d < dispMax P →
        let c := entry P (errorBuffer B) v u d in
        let straight dv du n :=
          costAlong P (errorBuffer B) dv du (Z.to_nat n) v u d in
        c ≤ entry P (tableauLeft B') v u d ≤ straight 0 1 u
        ∧ c ≤ entry P (tableauRight B') v u d
            ≤ straight 0 (-1) (dispWidth P - 1 - u)
        ∧ c ≤ entry P (tableauTop B') v u d ≤ straight 1 0 v
        ∧ c ≤ entry P (tableauBottom B') v u d
            ≤ straight (-1) 0 (dispHeight P - 1 - v).
Proof.
  intros Hls Hlj Hr.
  destruct (computeDynamicProgramming_recurrence_aux P B Hr) as (B' & E & Hs).
  exists B'. split; [done|].
  destruct Hr as (Hwf & _). pose proof Hwf as (HD & HW & HH & _).
  set (dom := λ v u, 0 ≤ v < dispHeight P ∧ 0 ≤ u < dispWidth P).
  assert (Hcost : ∀ v u d, dom v u → 0 ≤ d < dispMax P →
            0 ≤ entry P (errorBuffer B) v u d).
  { intros v u d [Hv Hu] Hd. by apply entry_byte. }
  intros v u d Hv Hu Hd. cbn zeta.
  split; [|split; [|split]].
  - apply (swept_sandwich P (errorBuffer B) _ dom (λ v u, u = 0) 0 1
             (λ v u, u)); try done.
    + intros v' u' [Hv' Hu']. replace (v' - 0) with v' by lia.
      by apply Hs.
    + intros v' u' [Hv' Hu']. lia.
    + intros v' u' [Hv' Hu'] Hnf. unfold dom. lia.
  - apply (swept_sandwich P (errorBuffer B) _ dom
             (λ v u, u = dispWidth P - 1) 0 (-1)
             (λ v u, dispWidth P - 1 - u)); try done.
    + intros v' u' [Hv' Hu']. replace (v' - 0) with v' by lia.
      replace (u' - -1) with (u' + 1) by lia. by apply Hs.
    + intros v' u' [Hv' Hu']. lia.
    + intros v' u' [Hv' Hu'] Hnf. unfold dom. lia.
  - apply (swept_sandwich P (errorBuffer B) _ dom (λ v u, v = 0) 1 0
             (λ v u, v)); try done.
    + intros v' u' [Hv' Hu']. replace (u' - 0) with u' by lia.
      by apply Hs.
    + intros v' u' [Hv' Hu']. lia.
    + intros v' u' [Hv' Hu'] Hnf. unfold dom. lia.
  - apply (swept_sandwich P (errorBuffer B) _ dom
             (λ v u, v = dispHeight P - 1) (-1) 0
             (λ v u, dispHeight P - 1 - v)); try done.
    + intros v' u' [Hv' Hu']. replace (u' - 0) with u' by lia.
      replace (v' - -1) with (v' + 1) by lia. by apply Hs.
    + intros v' u' [Hv' Hu']. lia.
    + intros v' u' [Hv' Hu'] Hnf. unfold dom. lia.
Qed.

Lemma tableau_between_cost_and_straight_path_witness :
  ∃ B', computeDynamicProgramming smallParams smallBuffers = Some B'
    ∧ ∀ v u d, 0 ≤ v < dispHeight smallParams →
        0 ≤ u < dispWidth smallParams → 0 ≤ d < dispMax smallParams →
        let c := entry smallParams (errorBuffer smallBuffers) v u d in
        let straight dv du n :=
          costAlong smallParams (errorBuffer smallBuffers) dv du
                    (Z.to_nat n) v u d in
        c ≤ entry smallParams (tableauLeft B') v u d ≤ straight 0 1 u
        ∧ c ≤ entry smallParams (tableauRight B') v u d
            ≤ straight 0 (-1) (dispWidth smallParams - 1 - u)
        ∧ c ≤ entry smallParams (tableauTop B') v u d ≤ straight 1 0 v
        ∧ c ≤ entry smallParams (tableauBottom B') v u d
            ≤ straight (-1) 0 (dispHeight smallParams - 1 - v).
Proof.
  apply (tableau_between_cost_and_straight_path smallParams smallBuffers).
  - cbn. lia.
  - cbn. lia.
  - exact smallBuffers_ready.
Defined.

(** With one disparity, a step reads [inCost[-1]]: from the start of the
    tableau it has no defined result. *)
Lemma computeDynamicStep_single P err tab e outC :
  dispMax P = 1 → computeDynamicStep P err tab 0 e outC = None.
Proof.
  intros HD. unfold computeDynamicStep. rewrite HD.
  destruct (load tab 0) as [b0|]; [|done]. cbn [mbind option_bind].
  unfold for_up. change (seqZ 1 (1 - 1)) with (@nil Z).
  change (seqZ 1 (1 - 1 - 1)) with (@nil Z).
  cbn [forM mbind option_bind].
  destruct (stepFirst P err tab 0 e outC b0) as [tab1|];
    cbn [mbind option_bind]; [|done].
  unfold stepLast. rewrite HD.
  destruct (load tab1 _) as [x|]; cbn [mbind option_bind]; [|done].
  destruct (store tab1 _ x) as [tab2|]; cbn [mbind option_bind]; [|done].
  unfold min_assign at 1.
  destruct (load tab2 (outC + (1 - 1))) as [y|];
    cbn [mbind option_bind]; [|done].
  by rewrite (load_None_neg tab2 (0 + (1 - 2))) by lia.
Qed.

(** X11. With a single disparity ([dispMax = 1]) and a working grid of at
    least two columns, [computeDynamicProgramming] has no defined result,
    whatever the buffers hold: the first step of the first scan reads
    [inCost[dispMax - 2]], the [int] before the start of the tableau. *)
Theorem computeDynamicProgramming_single_disparity (P : StereoParameters)
    (B : Buffers) :
  dispMax P = 1 → 1 ≤ dispHeight P → 2 ≤ dispWidth P →
  computeDynamicProgramming P B = None.
Proof.
  intros HD HH HW. unfold computeDynamicProgramming.
  assert (E : sweepLeft P (errorBuffer B) (tableauLeft B) = None);
    [|by rewrite E].
  unfold sweepLeft, for_up.
  rewrite (seqZ_cons 0) by lia. cbn [forM].
  destruct (copy _ _ _ _ _) as [tab|]; [|done]. cbn [mbind option_bind].
  rewrite (seqZ_cons 1) by lia. cbn [forM].
  replace (0 * bufferWidth P + (1 - 1) * dispMax P) with 0 by lia.
  by rewrite computeDynamicStep_single.
Qed.

Lemma computeDynamicProgramming_single_disparity_witness :
  computeDynamicProgramming
    {| dispWidth := 3; dispHeight := 2; dispMax := 1;
       lambdaStep := 5; lambdaJump := 32; scale := 3; maxBias := 10 |}
    {| errorBuffer := replicate 6 9;
       tableauLeft := replicate 6 0; tableauRight := replicate 6 0;
       tableauTop := replicate 6 0; tableauBottom := replicate 6 0;
       smallDisparity := replicate 6 0 |}
  = None.
Proof.
  apply computeDynamicProgramming_single_disparity.
  - reflexivity.
  - cbn. lia.
  - cbn. lia.
Defined.

(** ** The matching pipeline *)

(** An entry of a swept tableau stays within [stepBound] times the number
    of pixels the scan has passed. *)
Lemma swept_bounds P err t (dom : Z → Z → Prop) (first : Z → Z → Prop)
    (pv pu rank : Z → Z → Z) :
  2 ≤ dispMax P →
  (∀ v u, dom v u → sweptFrom P err t (first v u) v u (pv v u) (pu v u)) →
  (∀ v u, dom v u → 0 ≤ rank v u ∧ (first v u ↔ rank v u = 0)) →
  (∀ v u, dom v u → ¬ first v u →
     dom (pv v u) (pu v u) ∧ rank (pv v u) (pu v u) = rank v u - 1) →
  (∀ v u d, dom v u → 0 ≤ d < dispMax P → 0 ≤ entry P err v u d ≤ 255) →
  ∀ v u d, dom v u → 0 ≤ d < dispMax P →
    - ((rank v u + 1) * stepBound P) ≤ entry P t v u d
    ≤ (rank v u + 1) * stepBound P.
Proof.
  intros HD Hs Hrank Hprev Hcost.
  assert (HB : 255 ≤ stepBound P) by (unfold stepBound; lia).
  assert (Hind : ∀ n : nat, ∀ v u, dom v u → rank v u = Z.of_nat n →
            ∀ d, 0 ≤ d < dispMax P →
              - ((Z.of_nat n + 1) * stepBound P) ≤ entry P t v u d
              ≤ (Z.of_nat n + 1) * stepBound P).
  { induction n as [|n IH]; intros v u Hdom Hr d Hd.
    - destruct (Hrank v u Hdom) as [_ Hf].
      assert (Hfirst : first v u) by (by apply Hf).
      destruct (Hs v u Hdom d Hd) as [E1 _]. rewrite (E1 Hfirst).
      specialize (Hcost v u d Hdom Hd). lia.
    - destruct (Hrank v u Hdom) as [_ Hf].
      assert (Hnf : ¬ first v u) by (rewrite Hf; lia).
      destruct (Hprev v u Hdom Hnf) as [Hdom' Hr'].
      destruct (Hs v u Hdom d Hd) as [_ E1]. rewrite (E1 Hnf).
      pose proof (dpRecurrence_bounds (dispMax P) (lambdaStep P)
        (lambdaJump P) (entry P t (pv v u) (pu v u)) (entry P err v u) d
        ((Z.of_nat n + 1) * stepBound P) HD Hd) as Hb.
      unfold stepBound in *. rewrite Nat2Z.inj_succ.
      destruct Hb as [Hb1 Hb2].
      + intros k Hk. apply IH; [done|lia|done].
      + by apply Hcost.
      + lia. }
  intros v u d Hdom Hd. destruct (Hrank v u Hdom) as [Hr _].
  pose proof (Hind (Z.to_nat (rank v u)) v u Hdom ltac:(lia) d Hd) as Hb.
  by rewrite Z2Nat.id in Hb by lia.
Qed.

(** The sweeps keep the sizes of the tableaux and leave the cost volume
    and the disparity map as they were. *)
Lemma computeDynamicProgramming_frame (P : StereoParameters) (B B' : Buffers) :
  buffersReady P B →
  computeDynamicProgramming P B = Some B' →
  errorBuffer B' = errorBuffer B
  ∧ smallDisparity B' = smallDisparity B
  ∧ length (tableauLeft B') = length (errorBuffer B)
  ∧ length (tableauRight B') = length (errorBuffer B)
  ∧ length (tableauTop B') = length (errorBuffer B)
  ∧ length (tableauBottom B') = length (errorBuffer B).
Proof.
  intros (Hwf & Hl & Hr & Ht & Hb). unfold computeDynamicProgramming.
  destruct (sweepLeft_spec P _ Hwf _ Hl) as (tl & -> & Hll & _).
  destruct (sweepRight_spec P _ Hwf _ Hr) as (tr & -> & Hlr & _).
  destruct (sweepTop_spec P _ Hwf _ Ht) as (tt & -> & Hlt & _).
  destruct (sweepBottom_spec P _ Hwf _ Hb) as (tb & -> & Hlb & _).
  cbn [mbind option_bind]. by intros [= <-].
Qed.

(** The magnitude of the entries of the four tableaux. *)
Lemma tableaux_bounded (P : StereoParameters) (B B' : Buffers) :
  buffersReady P B →
  computeDynamicProgramming P B = Some B' →
  ∀ v u d, 0 ≤ v < dispHeight P → 0 ≤ u < dispWidth P → 0 ≤ d < dispMax P →
    let M := Z.max (dispWidth P) (dispHeight P) * stepBound P in
    - M ≤ entry P (tableauLeft B') v u d ≤ M
    ∧ - M ≤ entry P (tableauRight B') v u d ≤ M
    ∧ - M ≤ entry P (tableauTop B') v u d ≤ M
    ∧ - M ≤ entry P (tableauBottom B') v u d ≤ M.
Proof.
  intros Hr E.
  destruct (computeDynamicProgramming_recurrence_aux P B Hr) as (B1 & E1 & Hs).
  rewrite E in E1. injection E1 as <-.
  destruct Hr as (Hwf & _). pose proof Hwf as (HD & HW & HH & _).
  set (dom := λ v u, 0 ≤ v < dispHeight P ∧ 0 ≤ u < dispWidth P).
  assert (Hcost : ∀ v u d, dom v u → 0 ≤ d < dispMax P →
            0 ≤ entry P (errorBuffer B) v u d ≤ 255).
  { intros v u d [Hv Hu] Hd. by apply entry_byte. }
  assert (HB : 0 ≤ stepBound P) by (unfold stepBound; lia).
  intros v u d Hv Hu Hd M.
  assert (Hdom : dom v u) by done.
  pose proof (swept_bounds P (errorBuffer B) (tableauLeft B') dom
    (λ v u, u = 0) (λ v u, v) (λ v u, u - 1) (λ v u, u) HD) as Hleft.
  pose proof (swept_bounds P (errorBuffer B) (tableauRight B') dom
    (λ v u, u = dispWidth P - 1) (λ v u, v) (λ v u, u + 1)
    (λ v u, dispWidth P - 1 - u) HD) as Hright.
  pose proof (swept_bounds P (errorBuffer B) (tableauTop B') dom
    (λ v u, v = 0) (λ v u, v - 1) (λ v u, u) (λ v u, v) HD) as Htop.
  pose proof (swept_bounds P (errorBuffer B) (tableauBottom B') dom
    (λ v u, v = dispHeight P - 1) (λ v u, v + 1) (λ v u, u)
    (λ v u, dispHeight P - 1 - v) HD) as Hbottom.
  cbn beta in Hleft, Hright, Htop, Hbottom.
  specialize (Hleft ltac:(intros v' u' [? ?]; by apply Hs)
    ltac:(intros v' u' [? ?]; lia)
    ltac:(intros v' u' [? ?] ?; unfold dom; lia) Hcost v u d Hdom Hd).
  specialize (Hright ltac:(intros v' u' [? ?]; by apply Hs)
    ltac:(intros v' u' [? ?]; lia)
    ltac:(intros v' u' [? ?] ?; unfold dom; lia) Hcost v u d Hdom Hd).
  specialize (Htop ltac:(intros v' u' [? ?]; by apply Hs)
    ltac:(intros v' u' [? ?]; lia)
    ltac:(intros v' u' [? ?] ?; unfold dom; lia) Hcost v u d Hdom Hd).
  specialize (Hbottom ltac:(intros v' u' [? ?]; by apply Hs)
    ltac:(intros v' u' [? ?]; lia)
    ltac:(intros v' u' [? ?] ?; unfold dom; lia) Hcost v u d Hdom Hd).
  unfold M. repeat split; nia.
Qed.

(** A cost volume whose every entry is a byte. *)
Lemma bytes_of_entries P (err : list Z) :
  1 ≤ dispMax P → 0 ≤ dispWidth P → 0 ≤ dispHeight P →
  Z.of_nat (length err) = dispHeight P * bufferWidth P →
  (∀ v u d, 0 ≤ v < dispHeight P → 0 ≤ u < dispWidth P →
     0 ≤ d < dispMax P → 0 ≤ entry P err v u d ≤ 255) →
  Forall (λ c, 0 ≤ c ≤ 255) err.
Proof.
  intros HD HW HH Hl He. apply Forall_lookup. intros i x Hx.
  pose proof (lookup_lt_Some _ _ _ Hx) as Hi.
  set (D := dispMax P) in *. set (W := dispWidth P) in *.
  set (p := Z.of_nat i).
  assert (Hp : 0 ≤ p < dispHeight P * (W * D)).
  { unfold bufferWidth in Hl. fold W D in Hl. lia. }
  assert (HWD : 0 < W * D) by nia.
  pose proof (Z.div_mod p (W * D) ltac:(lia)) as E1.
  pose proof (Z.mod_pos_bound p (W * D) HWD) as B1.
  pose proof (Z.div_mod (p mod (W * D)) D ltac:(lia)) as E2.
  pose proof (Z.mod_pos_bound (p mod (W * D)) D ltac:(lia)) as B2.
  set (v := p / (W * D)) in *. set (q := p mod (W * D)) in *.
  set (u := q / D) in *. set (d := q mod D) in *.
  assert (Hv : 0 ≤ v < dispHeight P).
  { split; [apply Z.div_pos; lia|]. apply Z.div_lt_upper_bound; lia. }
  assert (Hu : 0 ≤ u < W).
  { split; [apply Z.div_pos; lia|]. apply Z.div_lt_upper_bound; lia. }
  specialize (He v u d Hv Hu B2). unfold entry, bufferWidth in He.
  fold W D in He.
  replace (v * (W * D) + u * D + d) with p in He by lia.
  unfold get, load in He. rewrite (proj2 (Z.leb_le 0 p)) in He by lia.
  unfold p in He. by rewrite Nat2Z.id, Hx in He.
Qed.

(** The fused score of an entry is computed within [int]. *)
Lemma fusedScore_Some (P : StereoParameters) (B : Buffers) (v u d M : Z) :
  0 ≤ v < dispHeight P → 0 ≤ u < dispWidth P → 0 ≤ d < dispMax P →
  Z.of_nat (length (errorBuffer B)) = dispHeight P * bufferWidth P →
  length (tableauLeft B) = length (errorBuffer B) →
  length (tableauRight B) = length (errorBuffer B) →
  length (tableauTop B) = length (errorBuffer B) →
  length (tableauBottom B) = length (errorBuffer B) →
  - M ≤ entry P (tableauLeft B) v u d ≤ M →
  - M ≤ entry P (tableauRight B) v u d ≤ M →
  - M ≤ entry P (tableauTop B) v u d ≤ M →
  - M ≤ entry P (tableauBottom B) v u d ≤ M →
  0 ≤ entry P (errorBuffer B) v u d ≤ 255 →
  4 * M + 510 ≤ INT_MAX →
  fusedScore B (v * bufferWidth P + (u * dispMax P + d))
  = Some (fused P B v u d).
Proof.
  intros Hv Hu Hd Hl Hll Hlr Hlt Hlb H1 H2 H3 H4 H5 HM.
  unfold fused, entry in *.
  replace (v * bufferWidth P + (u * dispMax P + d))
    with (v * bufferWidth P + u * dispMax P + d) by lia.
  set (p := v * bufferWidth P + u * dispMax P + d) in *.
  assert (Hp : 0 ≤ p < Z.of_nat (length (errorBuffer B))).
  { rewrite Hl. unfold p, bufferWidth.
    pose proof (pix_range (dispWidth P) (dispHeight P) (dispMax P) v u
                  ltac:(lia) Hv Hu). lia. }
  unfold fusedScore.
  rewrite (load_Some (tableauLeft B)) by (rewrite Hll; lia).
  rewrite (load_Some (tableauRight B)) by (rewrite Hlr; lia).
  rewrite (load_Some (tableauTop B)) by (rewrite Hlt; lia).
  rewrite (load_Some (tableauBottom B)) by (rewrite Hlb; lia).
  rewrite (load_Some (errorBuffer B)) by lia.
  cbn [mbind option_bind].
  rewrite iadd_Some by (unfold INT_MIN, INT_MAX in *; lia).
  cbn [mbind option_bind].
  rewrite iadd_Some by (unfold INT_MIN, INT_MAX in *; lia).
  cbn [mbind option_bind].
  rewrite iadd_Some by (unfold INT_MIN, INT_MAX in *; lia).
  cbn [mbind option_bind].
  rewrite imul_Some by (unfold INT_MIN, INT_MAX in *; lia).
  cbn [mbind option_bind].
  rewrite isub_Some by (unfold INT_MIN, INT_MAX in *; lia).
  done.
Qed.

(** X12. On buffers of the size of the working grid, with between 2 and
    256 disparities, a point and a direction for every pixel, a rasterizer
    for every pixel with a defined direction, and penalties small enough
    for the sum of four tableau entries to stay within [int],
    [comuteStereo] runs to its end: no access leaves a buffer and no [int]
    overflows in the cost kernel, the four sweeps and the fusion.  The
    disparity map it returns has the size of the grid and holds, for
    every pixel, a disparity of [0, dispMax): the first disparity of least
    fused score when a score of the pixel is below 100000, and 0
    otherwise. *)
Theorem comuteStereo_runs {R Ras : Type} `{Scalar R} `{CurveRasterizer R Ras}
    (bilinear : Mat8u → R → R → Z) (st : EnhancedStereo R)
    (img1 img2 : Mat8u) (B : Buffers) :
  stereoReady st B → imageOK img2 →
  ∃ B' disp,
    comuteStereo bilinear st img1 img2 B = Some (B', disp)
    ∧ smallDisparity B' = disp
    ∧ Z.of_nat (length disp)
      = dispHeight (params st) * dispWidth (params st)
    ∧ ∀ v u, 0 ≤ v < dispHeight (params st) →
        0 ≤ u < dispWidth (params st) →
        let d0 := get disp (v * dispWidth (params st) + u) in
        0 ≤ d0 < dispMax (params st)
        ∧ selected (fused (params st) B' v u) (dispMax (params st)) d0.
Proof.
  intros (Hcost & HD & HW & HH & Hll & Hlr & Hlt & Hlb & Hld & HM) Himg.
  set (P := params st) in *.
  destruct (computeCurveCost_spec bilinear st img1 img2 (errorBuffer B)
              Hcost Himg) as (err & Herr & Hlerr & Hdone).
  fold P in Hdone.
  pose proof Hcost as (_ & _ & _ & _ & _ & _ & Hlen & _). fold P in Hlen.
  assert (Hbytes : ∀ v u d, 0 ≤ v < dispHeight P → 0 ≤ u < dispWidth P →
            0 ≤ d < dispMax P → 0 ≤ entry P err v u d ≤ 255).
  { intros v u d Hv Hu Hd. by destruct (Hdone v u Hv Hu d Hd). }
  assert (HB : 0 ≤ Z.max (dispWidth P) (dispHeight P) * stepBound P).
  { unfold stepBound. nia. }
  assert (Hready : buffersReady P (setErrorBuffer B err)).
  { unfold buffersReady, setErrorBuffer, wellFormed.
    cbn [errorBuffer tableauLeft tableauRight tableauTop tableauBottom].
    rewrite Hlerr. repeat split; try (done || lia).
    apply (bytes_of_entries P); done || lia. }
  destruct (computeDynamicProgramming_recurrence_aux P _ Hready)
    as (B1 & EB1 & _).
  destruct (computeDynamicProgramming_frame P _ B1 Hready EB1)
    as (He1 & Hd1 & Hl1 & Hr1 & Ht1 & Hb1).
  cbn [setErrorBuffer errorBuffer smallDisparity] in He1, Hd1, Hl1, Hr1,
    Ht1, Hb1.
  pose proof (tableaux_bounded P _ B1 Hready EB1) as Hbound.
  cbn zeta in Hbound.
  destruct (reconstructDisparity_spec P B1 (fused P B1))
    as (r & Hr & Hlr' & Hsel); [lia|lia|lia|by rewrite Hd1| |].
  { intros v u d Hv Hu Hd.
    destruct (Hbound v u d Hv Hu Hd) as (H1 & H2 & H3 & H4).
    apply (fusedScore_Some P B1 v u d
             (Z.max (dispWidth P) (dispHeight P) * stepBound P));
      rewrite ?He1; try (done || lia).
    by apply Hbytes. }
  unfold comuteStereo. fold P. rewrite Herr. cbn [mbind option_bind].
  rewrite EB1. cbn [mbind option_bind]. rewrite Hr. cbn [mbind option_bind].
  eexists _, _. split; [done|]. cbn [setSmallDisparity smallDisparity].
  split; [done|]. split; [by rewrite Hlr', Hd1|].
  intros v u Hv Hu. cbn zeta.
  specialize (Hsel v u Hv Hu).
  assert (Hsame : ∀ d, fused P (setSmallDisparity B1 r.1) v u d
                       = fused P B1 v u d) by done.
  split.
  - destruct Hsel as [[_ ->]|(Hr0 & _)]; lia.
  - destruct Hsel as [[Hall ->]|(Hr0 & Hlt0 & Hmin & Hfirst)].
    + left. split; [|done]. intros d Hd. rewrite Hsame. by apply Hall.
    + right. split; [done|]. rewrite !Hsame. split; [done|]. split.
      * intros d Hd. rewrite Hsame. by apply Hmin.
      * intros d Hd. rewrite Hsame. by apply Hfirst.
Qed.

Lemma pairBuffers_ready : stereoReady pairStereo pairBuffers.
Proof.
  unfold stereoReady. cbn zeta. split; [exact pairStereo_ready|].
  cbn [params pairStereo pairParams dispMax dispWidth dispHeight].
  unfold stepBound, INT_MAX. cbn [lambdaStep lambdaJump].
  repeat split; done || lia.
Qed.

Lemma comuteStereo_runs_witness :
  ∃ B' disp,
    comuteStereo nearestSample pairStereo pairImage pairImage pairBuffers
    = Some (B', disp)
    ∧ smallDisparity B' = disp
    ∧ Z.of_nat (length disp)
      = dispHeight (params pairStereo) * dispWidth (params pairStereo)
    ∧ ∀ v u, 0 ≤ v < dispHeight (params pairStereo) →
        0 ≤ u < dispWidth (params pairStereo) →
        let d0 := get disp (v * dispWidth (params pairStereo) + u) in
        0 ≤ d0 < dispMax (params pairStereo)
        ∧ selected (fused (params pairStereo) B' v u)
                   (dispMax (params pairStereo)) d0.
Proof.
  apply (comuteStereo_runs nearestSample pairStereo pairImage pairImage
           pairBuffers).
  - exact pairBuffers_ready.
  - exact pairImage_ok.
Defined.

(** ** The fusion *)

(** X13. When every fused score can be computed within [int], with at
    most 256 disparities and a disparity map of the size of the working
    grid, [reconstructDisparity] runs to its end, keeps the size of the
    map, and stores for every pixel the first disparity of least fused
    score when a score of the pixel is below 100000, and 0 when none
    is. *)
Theorem reconstructDisparity_first_minimum (P : StereoParameters)
    (B : Buffers) (f : Z → Z → Z → Z) :
  0 ≤ dispMax P ≤ 256 → 0 ≤ dispWidth P → 0 ≤ dispHeight P →
  Z.of_nat (length (smallDisparity B)) = dispHeight P * dispWidth P →
  (∀ v u d, 0 ≤ v < dispHeight P → 0 ≤ u < dispWidth P → 0 ≤ d < dispMax P →
     fusedScore B (v * bufferWidth P + (u * dispMax P + d))
     = Some (f v u d)) →
  ∃ r, reconstructDisparity P B = Some r
    ∧ length r.1 = length (smallDisparity B)
    ∧ ∀ v u, 0 ≤ v < dispHeight P → 0 ≤ u < dispWidth P →
        selected (f v u) (dispMax P) (get r.1 (v * dispWidth P + u)).
Proof. apply reconstructDisparity_spec. Qed.

Lemma reconstructDisparity_first_minimum_witness :
  ∃ r, reconstructDisparity pairParams fusionBuffers = Some r
    ∧ length r.1 = length (smallDisparity fusionBuffers)
    ∧ ∀ v u, 0 ≤ v < dispHeight pairParams → 0 ≤ u < dispWidth pairParams →
        selected (fused pairParams fusionBuffers v u) (dispMax pairParams)
                 (get r.1 (v * dispWidth pairParams + u)).
Proof.
  apply (reconstructDisparity_first_minimum pairParams fusionBuffers
           (fused pairParams fusionBuffers)).
  - cbn. lia.
  - cbn. lia.
  - cbn. lia.
  - reflexivity.
  - intros v u d Hv Hu Hd. cbn in Hv, Hu, Hd.
    assert (v = 0) as -> by lia.
    assert (u = 0 ∨ u = 1) as [-> | ->] by lia;
      (assert (d = 0 ∨ d = 1) as [-> | ->] by lia); reflexivity.
Defined.

(** ** The value of the curve-patch cost *)

Lemma accumulate_sum l s : accumulate l = Some s → s = foldr Z.add 0 l.
Proof.
  unfold accumulate.
  assert (Hgen : ∀ l a s,
    foldl (λ acc x, a ← acc; iadd a x) (Some a) l = Some s →
    s = a + foldr Z.add 0 l).
  { clear. induction l as [|x l IH]; intros a s Hs; cbn [foldl foldr] in *.
    - injection Hs as <-. lia.
    - cbn [mbind option_bind] in Hs. unfold iadd, int_result in Hs.
      destruct (in_int (a + x)).
      + apply IH in Hs. lia.
      + exfalso. clear -Hs. induction l as [|y l IH]; [done|].
        cbn [foldl mbind option_bind] in Hs. by apply IH. }
  intros Hs. apply Hgen in Hs. lia.
Qed.

(** Numbers that are not negative are summed within [int] when their sum
    is an [int]. *)
Lemma accumulate_nonneg l :
  Forall (λ c, 0 ≤ c) l → foldr Z.add 0 l ≤ INT_MAX →
  accumulate l = Some (foldr Z.add 0 l).
Proof.
  intros Hl Hs. unfold accumulate.
  assert (Hgen : ∀ a, 0 ≤ a → a + foldr Z.add 0 l ≤ INT_MAX →
    foldl (λ acc x, a ← acc; iadd a x) (Some a) l
    = Some (a + foldr Z.add 0 l)).
  { clear Hs. induction Hl as [|x l Hx Hl IH]; intros a Ha Hb.
    - cbn [foldl foldr]. f_equal. lia.
    - cbn [foldl foldr mbind option_bind] in *.
      assert (0 ≤ foldr Z.add 0 l).
      { clear -Hl. induction Hl; cbn [foldr]; lia. }
      rewrite iadd_Some by (unfold INT_MIN; lia).
      rewrite IH by lia. f_equal. lia. }
  rewrite Hgen by lia. done.
Qed.

Lemma get_of_lookup (l : list Z) (i : nat) x :
  l !! i = Some x → get l (Z.of_nat i) = x.
Proof.
  intros Hx. unfold get, load.
  rewrite (proj2 (Z.leb_le 0 (Z.of_nat i))) by lia.
  by rewrite Nat2Z.id, Hx.
Qed.

Lemma weights_triangle L w :
  1 ≤ L → Z.of_nat (length w) = L * 2 + 1 →
  (∀ k, 0 ≤ k < L * 2 + 1 → get w k = L + 1 - Z.abs (k - L)) →
  w = triangle L.
Proof.
  intros HL Hl Hk. unfold triangle. apply list_eq. intros i.
  rewrite list_lookup_fmap.
  destruct (decide (Z.of_nat i < L * 2 + 1)) as [Hi|Hi].
  - rewrite (lookup_seqZ_lt 0 (L * 2 + 1) i) by lia.
    cbn [fmap option_fmap option_map].
    destruct (lookup_lt_is_Some_2 w i) as [x Hx]; [lia|].
    rewrite Hx. f_equal. rewrite <- (get_of_lookup _ _ _ Hx), Hk by lia.
    f_equal; lia.
  - rewrite lookup_ge_None_2 by lia.
    rewrite lookup_seqZ_ge by lia. done.
Qed.

(** Twice the sum of the first [m] weights. *)
Lemma triangle_prefix L (m : nat) :
  1 ≤ L → Z.of_nat m ≤ L * 2 + 1 →
  2 * foldr Z.add 0 ((λ k, L + 1 - Z.abs (k - L)) <$> seqZ 0 (Z.of_nat m))
  = if decide (Z.of_nat m ≤ L + 1) then Z.of_nat m * (Z.of_nat m + 1)
    else (L + 1) * (L + 2)
         + (Z.of_nat m - L - 1) * (3 * L + 2 - Z.of_nat m).
Proof.
  intros HL. induction m as [|m IH]; intros Hm.
  - change (Z.of_nat 0) with 0. change (seqZ 0 0) with (@nil Z).
    cbn [fmap list_fmap foldr]. destruct (decide (0 ≤ L + 1)); lia.
  - rewrite Nat2Z.inj_succ, <- Z.add_1_r.
    rewrite seqZ_app by lia. rewrite fmap_app, foldr_app.
    cbn [seqZ fmap list_fmap foldr]. 
    assert (Hsnoc : ∀ (l : list Z) x,
              foldr Z.add (x + 0) l = foldr Z.add 0 l + x).
    { clear. induction l as [|y l IH]; intros x; cbn [foldr]; [lia|].
      rewrite IH. lia. }
    change (seqZ (0 + Z.of_nat m) 1) with [0 + Z.of_nat m].
    cbn [fmap list_fmap foldr]. rewrite Hsnoc.
    specialize (IH ltac:(lia)).
    destruct (decide (Z.of_nat m ≤ L + 1)) as [H1|H1];
      destruct (decide (Z.of_nat m + 1 ≤ L + 1)) as [H2|H2]; nia.
Qed.

Lemma triangle_length L : 1 ≤ L → Z.of_nat (length (triangle L)) = L * 2 + 1.
Proof. intros HL. unfold triangle. rewrite length_fmap, length_seqZ. lia. Qed.

Lemma triangle_get L k :
  1 ≤ L → 0 ≤ k < L * 2 + 1 → get (triangle L) k = L + 1 - Z.abs (k - L).
Proof.
  intros HL Hk. unfold triangle, get, load.
  rewrite (proj2 (Z.leb_le 0 k)) by lia.
  rewrite list_lookup_fmap, (lookup_seqZ_lt 0 (L * 2 + 1)) by lia.
  cbn [fmap option_fmap option_map default].
  replace (0 + Z.of_nat (Z.to_nat k)) with k by lia. done.
Qed.

Lemma triangle_range L :
  1 ≤ L → Forall (λ c, 1 ≤ c ≤ L + 1) (triangle L).
Proof.
  intros HL. apply get_elem_of. intros k Hk.
  rewrite triangle_length in Hk by done.
  rewrite triangle_get by lia. lia.
Qed.

Lemma triangle_sum L : 1 ≤ L → foldr Z.add 0 (triangle L) = (L + 1) * (L + 1).
Proof.
  intros HL.
  pose proof (triangle_prefix L (Z.to_nat (L * 2 + 1)) ltac:(lia) ltac:(lia))
    as Hs.
  rewrite Z2Nat.id in Hs by lia. fold (triangle L) in Hs.
  destruct (decide (L * 2 + 1 ≤ L + 1)); nia.
Qed.

(** X14. For a half-length [L] of [1, 46339], the weights that
    [computeCurveCost] builds are [L + 1 - |k - L|] at offset [k] of the
    window, rising by one from 1 at either end to [L + 1] at the centre,
    and their sum, the normalizer, is [(L + 1)^2]. *)
Theorem weights_and_normalizer (L : Z) :
  1 ≤ L ≤ 46339 →
  weights L (L * 2 + 1) = Some (triangle L)
  ∧ accumulate (triangle L) = Some ((L + 1) * (L + 1)).
Proof.
  intros HL.
  destruct (weights_spec L ltac:(lia)) as (w & Hw & Hwl & Hwk).
  pose proof (weights_triangle L w ltac:(lia) Hwl Hwk) as ->.
  split; [done|].
  rewrite <- triangle_sum by lia. apply accumulate_nonneg.
  - eapply Forall_impl; [apply triangle_range; lia|].
    intros c Hc. cbn beta in Hc. lia.
  - rewrite triangle_sum by lia. unfold INT_MAX. nia.
Qed.

Lemma weights_and_normalizer_witness :
  weights 2 (2 * 2 + 1) = Some (triangle 2)
  ∧ accumulate (triangle 2) = Some ((2 + 1) * (2 + 1)).
Proof. apply (weights_and_normalizer 2). lia. Defined.

(** A loop that stores one value per disparity into the slots of a pixel,
    with the values it stores. *)
Lemma store_loop_values (err : list Z) (out D : Z) (val : Z → option Z)
    (g c : Z → Z) :
  0 ≤ out → out + D ≤ Z.of_nat (length err) → 0 ≤ D →
  (∀ d, 0 ≤ d < D → val d = Some (c d)) →
  ∃ err', for_up 0 D (λ d e, x ← val d; store e (out + d) (g x)) err
          = Some err'
    ∧ length err' = length err
    ∧ (∀ p, ¬ (out ≤ p < out + D) → get err' p = get err p)
    ∧ (∀ d, 0 ≤ d < D → get err' (out + d) = g (c d)).
Proof.
  intros Hout Hlen HD Hval.
  apply (for_up_inv (λ i e,
    length e = length err
    ∧ (∀ p, ¬ (out ≤ p < out + i) → get e p = get err p)
    ∧ (∀ d, 0 ≤ d < i → get e (out + d) = g (c d)))); [done| |].
  - split; [done|]. split; [done|]. intros d Hd. lia.
  - intros i e Hi (Hl & Hfr & Hq).
    rewrite (Hval i Hi). cbn [mbind option_bind].
    rewrite store_Some by lia. eexists. split; [done|].
    split; [by rewrite length_insert|]. split.
    + intros p Hp. rewrite get_insert_ne by lia. apply Hfr. lia.
    + intros d Hd. destruct (decide (d = i)) as [->|Hne].
      * rewrite get_insert_eq by lia. done.
      * rewrite get_insert_ne by lia. apply Hq. lia.
Qed.

(** The samples that [sampleAlong] collects. *)
Lemma sampleAlong_value {R Ras : Type} `{CurveRasterizer R Ras}
    (img2 : Mat8u) (n : Z) (raster : Ras) :
  imageOK img2 → 0 ≤ n →
  ∃ s, sampleAlong img2 n raster = Some s
    ∧ s.2 = samplesFrom img2 (Z.to_nat n) raster.
Proof.
  intros (Hr & Hc & Hl & Hb) Hn. unfold sampleAlong.
  destruct (for_up_inv (λ (i : Z) (s : Ras * list Z),
      Z.of_nat (length s.2) = n
      ∧ s.1 = Nat.iter (Z.to_nat i) rasterStep raster
      ∧ take (Z.to_nat i) s.2 = samplesFrom img2 (Z.to_nat i) raster)
    0 n
    (λ i (s : Ras * list Z),
       let (raster, sampleVec) := s in
       px ← (if (rasterY raster <? 0) || (rows img2 <=? rasterY raster)
                || (rasterX raster <? 0) || (cols img2 <=? rasterX raster)
             then Some 0
             else load (data img2)
                       (rasterY raster * cols img2 + rasterX raster));
       sampleVec ← store sampleVec i px;
       Some (rasterStep raster, sampleVec))
    (raster, replicate (Z.to_nat n) 0))
    as (s & Hs & Hlen & _ & Htake); [lia| | |].
  - cbn [fst snd]. split; [rewrite length_replicate; lia|]. done.
  - intros i [ras sv] Hi (Hlen & Hras & Htake). cbn [fst snd] in *.
    assert (Hpx :
      (if (rasterY ras <? 0) || (rows img2 <=? rasterY ras)
          || (rasterX ras <? 0) || (cols img2 <=? rasterX ras)
       then Some 0
       else load (data img2) (rasterY ras * cols img2 + rasterX ras))
      = Some (sampleAt img2 ras)).
    { unfold sampleAt. destruct (_ || _) eqn:Eout; [done|].
      apply orb_false_elim in Eout as [Eout E4].
      apply orb_false_elim in Eout as [Eout E3].
      apply orb_false_elim in Eout as [E1 E2].
      apply load_Some. rewrite Hl. nia. }
    rewrite Hpx. cbn [mbind option_bind].
    rewrite store_Some by lia. cbn [mbind option_bind].
    eexists. split; [done|]. cbn [fst snd].
    split; [by rewrite length_insert|].
    replace (Z.to_nat (i + 1)) with (Datatypes.S (Z.to_nat i)) by lia.
    split; [by rewrite Hras|].
    rewrite (take_S_r _ _ (sampleAt img2 ras))
      by (apply list_lookup_insert_eq; lia).
    rewrite take_insert_ge by lia. rewrite Htake.
    unfold samplesFrom. rewrite seq_S, fmap_app. cbn [fmap list_fmap].
    by rewrite Hras.
  - exists s. split; [done|].
    rewrite take_ge in Htake by lia. done.
Qed.

Lemma samplesFrom_bytes {R Ras : Type} `{CurveRasterizer R Ras}
    (img2 : Mat8u) (n : nat) (raster : Ras) :
  imageOK img2 →
  length (samplesFrom img2 n raster) = n
  ∧ Forall (λ c, 0 ≤ c ≤ 255) (samplesFrom img2 n raster).
Proof.
  intros (Hr & Hc & Hl & Hb). unfold samplesFrom. split.
  - by rewrite length_fmap, length_seq.
  - apply Forall_fmap, Forall_forall. intros i _. cbn. unfold sampleAt.
    destruct (_ || _) eqn:Eout; [lia|].
    apply orb_false_elim in Eout as [Eout E4].
    apply orb_false_elim in Eout as [Eout E3].
    apply orb_false_elim in Eout as [E1 E2].
    apply (get_Forall _ (λ c, 0 ≤ c ≤ 255)); [done|]. rewrite Hl. nia.
Qed.

(** The weighted mean of differences of at most [T], with weights that
    are not negative, is at most [T]. *)
Lemma weighted_sum_bound (ts ws : list Z) T :
  0 ≤ T → Forall (λ t, 0 ≤ t ≤ T) ts → Forall (λ w, 0 ≤ w) ws →
  0 ≤ foldr Z.add 0 (zip_with Z.mul ts ws) ≤ T * foldr Z.add 0 ws.
Proof.
  intros HT Hts. revert ws.
  induction Hts as [|t ts Ht Hts IH]; intros ws Hws.
  - assert (0 ≤ foldr Z.add 0 ws).
    { clear -Hws. induction Hws; cbn [foldr]; lia. }
    cbn [zip_with foldr]. nia.
  - destruct Hws as [|w ws Hw Hws]; cbn [zip_with foldr].
    + lia.
    + specialize (IH ws Hws). nia.
Qed.

Lemma get_elem_range (l : list Z) (Q : Z → Prop) :
  Forall Q l → ∀ k, 0 ≤ k < Z.of_nat (length l) → Q (get l k).
Proof. intros Hl k Hk. by apply get_Forall. Qed.

Section CurveCostValue.
Context {R Ras : Type} `{Scalar R} `{CurveRasterizer R Ras}.
Context (bilinear : Mat8u → R → R → Z).
Context (st : EnhancedStereo R) (img1 img2 : Mat8u) (err0 : list Z).

Let P := params st.
Let D := dispMax P.
Let W := dispWidth P.
Let Ht := dispHeight P.
Let L := Z.max (scale P - 1) 1.

Hypothesis Hready : costReady st err0.
Hypothesis Himg : imageOK img2.

(** What the kernel leaves at a pixel whose direction is defined. *)
Let valued (e : list Z) (v u : Z) : Prop :=
  ∀ pt dir raster,
    at_ (pointVec1 st) (getLinearIndex P u v) = Some pt →
    at_ (epipolarDirectionVec st) (getLinearIndex P u v) = Some dir →
    ne2 dir dir = false →
    getCurveRasteriser st (getLinearIndex P u v) = Some raster →
    ∀ d, 0 ≤ d < D →
      entry P e v u d
      = to_uint8 (pixelCost bilinear P img1 img2 pt dir raster d).

Lemma pixelCost_range pt dir (raster : Ras) d :
  0 ≤ d < D →
  0 ≤ pixelCost bilinear P img1 img2 pt dir raster d ≤ 255 + maxBias P.
Proof.
  intros Hd. pose proof (halfLength_range st err0 Hready) as HL. fold P L in HL.
  pose proof Hready as (_ & Hmb & _). fold P in Hmb.
  unfold pixelCost. fold L D. cbn zeta.
  destruct (descriptor_bytes bilinear st img1 err0 Hready pt dir)
    as [Hdl Hdb]. fold P L in Hdl, Hdb.
  set (descriptor := descriptorAt bilinear img1 L (L * 2 + 1) pt dir) in *.
  destruct (samplesFrom_bytes img2 (Z.to_nat (D + (L * 2 + 1) - 1))
              (rasterSteps raster (- L)) Himg) as [Hsl Hsb].
  set (samples := samplesFrom img2 _ _) in *.
  set (window := take (Z.to_nat (L * 2 + 1)) (drop (Z.to_nat d) samples)).
  assert (Hwb : Forall (λ c, 0 ≤ c ≤ 255) window).
  { unfold window. by apply Forall_take, Forall_drop. }
  set (bias := clampedBias (maxBias P) (L * 2 + 1) descriptor window).
  assert (Hbias : - maxBias P ≤ bias ≤ maxBias P).
  { unfold bias, clampedBias. lia. }
  unfold weightedSAD. rewrite triangle_sum by lia.
  assert (Hts : Forall (λ t, 0 ≤ t ≤ 255 + maxBias P)
            (zip_with (λ a b, Z.abs (a - b + bias)) descriptor window)).
  { apply Forall_lookup. intros i x Hx.
    apply lookup_zip_with_Some in Hx as (a & b & -> & Ha & Hb).
    rewrite Forall_lookup in Hdb, Hwb.
    specialize (Hdb i a Ha). specialize (Hwb i b Hb). cbn beta in *. lia. }
  pose proof (weighted_sum_bound _ (triangle L) (255 + maxBias P)
    ltac:(lia) Hts) as Hsum.
  rewrite triangle_sum in Hsum by lia.
  destruct Hsum as [Hs0 Hs1].
  { eapply Forall_impl; [apply triangle_range; lia|].
    intros c Hc. cbn beta in Hc. lia. }
  split.
  - apply Z.quot_pos; nia.
  - apply Z.quot_le_upper_bound; nia.
Qed.

Lemma curveCostPixel_value v u err normalizer :
  length err = length err0 →
  0 ≤ v < Ht → 0 ≤ u < W →
  accumulate (triangle L) = Some normalizer →
  let out := v * bufferWidth P + u * D in
  ∃ err',
    curveCostPixel bilinear st img1 img2 L (L * 2 + 1) normalizer
                   (triangle L) v u err = Some err'
    ∧ length err' = length err
    ∧ (∀ p, ¬ (out ≤ p < out + D) → get err' p = get err p)
    ∧ valued err' v u.
Proof.
  intros Hlen Hv Hu Hnz out.
  pose proof (halfLength_range st err0 Hready) as HL. fold P L in HL.
  pose proof (pixel_slots st err0 Hready v u Hv Hu) as [Ho1 Ho2].
  fold P D in Ho1, Ho2. fold out in Ho1, Ho2.
  pose proof (pixel_index st v u Hv Hu) as Hidx. fold P Ht W in Hidx.
  pose proof Hready as (Hs & Hmb & HD & HD' & HW & HH & Hl & Hpv & Hdv & Hras).
  fold P in Hs, Hmb, HD, HD', HW, HH, Hl, Hpv, Hdv, Hras.
  fold D in HD, HD'. fold W Ht in Hpv, Hdv, Hras.
  assert (Hnorm : normalizer = (L + 1) * (L + 1)).
  { apply accumulate_sum in Hnz. rewrite Hnz. apply triangle_sum. lia. }
  unfold curveCostPixel. fold P. fold D. fold out.
  destruct (at_Some (pointVec1 st) (getLinearIndex P u v)) as (pt & Hpt & _);
    [lia|].
  destruct (at_Some (epipolarDirectionVec st) (getLinearIndex P u v))
    as (dir & Hdir & _); [lia|].
  rewrite Hpt, Hdir. cbn [mbind option_bind].
  destruct (ne2 dir dir) eqn:Enan.
  - destruct (store_loop err out D (λ _, Some 0) (λ c, c) (λ c, c = 0))
      as (err' & Herr' & Hl' & Hfr & Hz); [lia|lia|lia| |].
    { intros d Hd. by exists 0. }
    exists err'. split; [exact Herr'|]. split; [done|]. split; [done|].
    intros pt' dir' raster' Hpt' Hdir' Hn'. congruence.
  - destruct (Hras u v dir Hv Hu Hdir Enan) as [raster Hraster].
    rewrite Hraster. cbn [mbind option_bind].
    rewrite iadd_Some by (unfold INT_MIN, INT_MAX in *; lia).
    cbn [mbind option_bind].
    rewrite isub_Some by (unfold INT_MIN, INT_MAX in *; lia).
    cbn [mbind option_bind].
    destruct (sampleAlong_value img2 (D + (L * 2 + 1) - 1)
                (rasterSteps raster (- L)) Himg ltac:(lia))
      as (s & -> & Hsv).
    cbn [mbind option_bind]. rewrite Hsv.
    destruct (samplesFrom_bytes img2 (Z.to_nat (D + (L * 2 + 1) - 1))
                (rasterSteps raster (- L)) Himg) as [Hsl Hsb].
    set (samples := samplesFrom img2 _ _) in *.
    destruct (descriptor_bytes bilinear st img1 err0 Hready pt dir)
      as [Hdl Hdb]. fold P L in Hdl, Hdb.
    set (descriptor := descriptorAt bilinear img1 L (L * 2 + 1) pt dir) in *.
    destruct (accumulate_Some _ 0 255 Hdb ltac:(lia)) as (sum1 & Hsum1 & Hr1).
    { rewrite Hdl. unfold INT_MAX. lia. }
    rewrite Hsum1. rewrite Hdl in Hr1. cbn [mbind option_bind].
    assert (Hval : ∀ d, 0 ≤ d < D →
      patchCost (maxBias P) (L * 2 + 1) normalizer sum1 descriptor samples
                (triangle L) d
      = Some (pixelCost bilinear P img1 img2 pt dir raster d)).
    { intros d Hd.
      assert (Hn1 : 1 ≤ normalizer) by nia.
      assert (Hsl' : Z.of_nat (length samples) = D + (L * 2 + 1) - 1)
        by (rewrite Hsl; lia).
      assert (Hwr : Forall (λ c, 0 ≤ c ≤ L + 1) (triangle L)).
      { eapply Forall_impl; [apply triangle_range; lia|].
        intros c Hc. cbn beta in Hc. lia. }
      destruct (patchCost_value (maxBias P) L normalizer sum1 D d
                  descriptor samples (triangle L) HL Hmb Hn1 Hr1 Hd Hdl Hdb
                  Hsl' Hsb (triangle_length L ltac:(lia)) Hwr Hnz)
        as (sum2 & Hsum2 & ->).
      f_equal. unfold pixelCost. fold L D. cbn zeta.
      fold descriptor samples. unfold clampedBias.
      apply accumulate_sum in Hsum1, Hsum2. by rewrite Hsum1, Hsum2. }
    destruct (store_loop_values err out D
      (patchCost (maxBias P) (L * 2 + 1) normalizer sum1 descriptor samples
                 (triangle L))
      to_uint8 (pixelCost bilinear P img1 img2 pt dir raster))
      as (err' & Herr' & Hl' & Hfr & Hz); [lia|lia|lia|done|].
    exists err'. split; [exact Herr'|]. split; [done|]. split; [done|].
    intros pt' dir' raster' Hpt' Hdir' _ Hraster' d Hd.
    assert (pt' = pt) as -> by congruence.
    assert (dir' = dir) as -> by congruence.
    assert (raster' = raster) as -> by congruence.
    unfold entry. fold P D out. by apply Hz.
Qed.

Lemma valued_frame err err' v u :
  (∀ d, 0 ≤ d < D →
     get err' (v * bufferWidth P + u * D + d)
     = get err (v * bufferWidth P + u * D + d)) →
  valued err v u → valued err' v u.
Proof.
  intros Hsame Hdone pt dir raster Hpt Hdir Hn Hr d Hd.
  unfold entry. fold P D. rewrite Hsame by done.
  by apply (Hdone pt dir raster).
Qed.

Lemma computeCurveCost_value :
  ∃ err', computeCurveCost bilinear st img1 img2 err0 = Some err'
    ∧ ∀ v u, 0 ≤ v < Ht → 0 ≤ u < W → valued err' v u.
Proof.
  pose proof (halfLength_range st err0 Hready) as HL. fold P L in HL.
  pose proof Hready as (Hs & Hmb & HD & HD' & HW & HH & _).
  fold P in Hs, HW, HH. fold W in HW. fold Ht in HH.
  unfold computeCurveCost. fold P.
  rewrite isub_Some by (unfold INT_MIN, INT_MAX; lia).
  cbn [mbind option_bind]. fold L.
  rewrite imul_Some by (unfold INT_MIN, INT_MAX; lia).
  cbn [mbind option_bind].
  rewrite iadd_Some by (unfold INT_MIN, INT_MAX; lia).
  cbn [mbind option_bind].
  destruct (weights_spec L ltac:(lia)) as (w & -> & Hwl & Hwk).
  pose proof (weights_triangle L w ltac:(lia) Hwl Hwk) as ->.
  cbn [mbind option_bind].
  assert (Hnz : accumulate (triangle L) = Some ((L + 1) * (L + 1))).
  { rewrite <- triangle_sum by lia. apply accumulate_nonneg.
    - eapply Forall_impl; [apply triangle_range; lia|].
      intros c Hc. cbn beta in Hc. lia.
    - rewrite triangle_sum by lia. unfold INT_MAX. nia. }
  rewrite Hnz. cbn [mbind option_bind]. fold Ht W.
  destruct (for_up_inv (λ v e,
    length e = length err0
    ∧ ∀ v' u, 0 ≤ v' < v → 0 ≤ u < W → valued e v' u) 0 Ht
    (λ v e, for_up 0 W (λ u e',
       curveCostPixel bilinear st img1 img2 L (L * 2 + 1)
         ((L + 1) * (L + 1)) (triangle L) v u e') e) err0)
    as (err' & -> & _ & Hall); [done| | |].
  - split; [done|]. intros v' u Hv'. lia.
  - intros v e Hv (Hl & Hrows).
    destruct (for_up_inv (λ u e',
      length e' = length err0
      ∧ (∀ v' u', 0 ≤ v' < v → 0 ≤ u' < W → valued e' v' u')
      ∧ (∀ u', 0 ≤ u' < u → valued e' v u')) 0 W
      (λ u e', curveCostPixel bilinear st img1 img2 L (L * 2 + 1)
                 ((L + 1) * (L + 1)) (triangle L) v u e')
      e) as (e2 & -> & Hl2 & Hrows2 & Hrow); [done| | |].
    + split; [done|]. split; [done|]. intros u' Hu'. lia.
    + intros u e1 Hu (Hl1 & Hrows1 & Hrow1).
      destruct (curveCostPixel_value v u e1 _ Hl1 Hv Hu Hnz)
        as (e' & -> & Hl' & Hfr & Hval).
      exists e'. split; [done|]. split; [congruence|].
      assert (Hkeep : ∀ v' u', 0 ≤ v' < Ht → 0 ≤ u' < W → (v', u') ≠ (v, u) →
                valued e1 v' u' → valued e' v' u').
      { intros v' u' Hv' Hu' Hne. apply valued_frame.
        intros d Hd. apply Hfr. by apply (pixels_disjoint st). }
      split; [|intros u' Hu'; destruct (decide (u' = u)) as [->|Hne]].
      * intros v' u' Hv' Hu'. apply Hkeep; [lia|done| |by apply Hrows1].
        intros [=]. lia.
      * done.
      * apply Hkeep; [lia|lia| |apply Hrow1; lia]. intros [=]. lia.
    + exists e2. split; [done|]. split; [done|].
      intros v' u' Hv' Hu'. destruct (decide (v' = v)) as [->|Hne].
      * by apply Hrow.
      * apply Hrows2; [lia|done].
  - exists err'. split; [done|]. intros v u Hv Hu. by apply Hall.
Qed.
End CurveCostValue.

(** X15. On a cost volume of the size of the working grid, with a point
    and a direction for every pixel and a rasterizer for every pixel with
    a defined direction, [computeCurveCost] runs to its end and, for every
    pixel with a defined direction and every disparity [d], the byte it
    leaves is [c mod 256], where [c] is the weighted mean of absolute
    differences, corrected by the clamped bias, between the descriptor of
    the pixel and the window of samples at [d]; [c] lies in
    [0, 255 + maxBias], so the byte is [c] itself whenever [c <= 255], as
    it always is when [maxBias] is 0. *)
Theorem computeCurveCost_stores_patch_cost {R Ras : Type} `{Scalar R}
    `{CurveRasterizer R Ras} (bilinear : Mat8u → R → R → Z)
    (st : EnhancedStereo R) (img1 img2 : Mat8u) (err : list Z) :
  costReady st err → imageOK img2 →
  ∃ err', computeCurveCost bilinear st img1 img2 err = Some err'
    ∧ ∀ v u d pt dir raster,
        0 ≤ v < dispHeight (params st) → 0 ≤ u < dispWidth (params st) →
        0 ≤ d < dispMax (params st) →
        at_ (pointVec1 st) (getLinearIndex (params st) u v) = Some pt →
        at_ (epipolarDirectionVec st) (getLinearIndex (params st) u v)
        = Some dir →
        ne2 dir dir = false →
        getCurveRasteriser st (getLinearIndex (params st) u v) = Some raster →
        let c := pixelCost bilinear (params st) img1 img2 pt dir raster d in
        0 ≤ c ≤ 255 + maxBias (params st)
        ∧ entry (params st) err' v u d = c mod 256
        ∧ (c ≤ 255 → entry (params st) err' v u d = c).
Proof.
  intros Hready Himg.
  destruct (computeCurveCost_value bilinear st img1 img2 err Hready Himg)
    as (err' & Herr' & Hval).
  exists err'. split; [done|].
  intros v u d pt dir raster Hv Hu Hd Hpt Hdir Hn Hr c.
  pose proof (pixelCost_range bilinear st img1 img2 err Hready Himg
                pt dir raster d Hd) as Hc. fold c in Hc.
  pose proof (Hval v u Hv Hu pt dir raster Hpt Hdir Hn Hr d Hd) as He.
  fold c in He. unfold to_uint8 in He.
  split; [done|]. split; [done|].
  intros Hle. rewrite He. apply Z.mod_small. lia.
Qed.

Lemma computeCurveCost_stores_patch_cost_witness :
  ∃ err',
    computeCurveCost nearestSample pairStereo pairImage pairImage
      (replicate 4 7) = Some err'
    ∧ ∀ v u d pt dir (raster : Raster float),
        0 ≤ v < dispHeight (params pairStereo) →
        0 ≤ u < dispWidth (params pairStereo) →
        0 ≤ d < dispMax (params pairStereo) →
        at_ (pointVec1 pairStereo) (getLinearIndex (params pairStereo) u v)
        = Some pt →
        at_ (epipolarDirectionVec pairStereo)
            (getLinearIndex (params pairStereo) u v) = Some dir →
        ne2 dir dir = false →
        getCurveRasteriser pairStereo (getLinearIndex (params pairStereo) u v)
        = Some raster →
        let c := pixelCost nearestSample (params pairStereo) pairImage
                   pairImage pt dir raster d in
        0 ≤ c ≤ 255 + maxBias (params pairStereo)
        ∧ entry (params pairStereo) err' v u d = c mod 256
        ∧ (c ≤ 255 → entry (params pairStereo) err' v u d = c).
Proof.
  apply (computeCurveCost_stores_patch_cost nearestSample pairStereo
           pairImage pairImage (replicate 4 7)).
  - exact pairStereo_ready.
  - exact pairImage_ok.
Defined.

Lemma sum_offset (l : list Z) k :
  foldr Z.add 0 ((λ a, a + k) <$> l)
  = foldr Z.add 0 l + k * Z.of_nat (length l).
Proof.
  induction l as [|a l IH]; [cbn; lia|].
  cbn [fmap list_fmap foldr length]. rewrite Nat2Z.inj_succ.
  change (list_fmap Z Z (λ a, a + k) l) with ((λ a, a + k) <$> l).
  rewrite IH. lia.
Qed.

Lemma zero_terms (l ws : list Z) k :
  foldr Z.add 0
    (zip_with Z.mul
       (zip_with (λ a b, Z.abs (a - b + k)) l ((λ a, a + k) <$> l)) ws) = 0.
Proof.
  revert ws. induction l as [|a l IH]; intros ws; [done|].
  destruct ws as [|w ws]; [done|].
  cbn [fmap list_fmap zip_with foldr].
  change (list_fmap Z Z (λ a, a + k) l) with ((λ a, a + k) <$> l).
  rewrite IH. lia.
Qed.

(** X16. On a cost volume of the size of the working grid, with a point
    and a direction for every pixel and a rasterizer for every pixel with
    a defined direction: when the window of samples at disparity [d] of a
    pixel with a defined direction is the descriptor of the pixel with a
    constant [k] added to every sample, and [k] is at most [maxBias] in
    magnitude, the cost that [computeCurveCost] leaves for the pixel at
    [d] is 0: a uniform change of brightness within the clamp does not
    count. *)
Theorem computeCurveCost_offset_invariant {R Ras : Type} `{Scalar R}
    `{CurveRasterizer R Ras} (bilinear : Mat8u → R → R → Z)
    (st : EnhancedStereo R) (img1 img2 : Mat8u) (err : list Z) :
  costReady st err → imageOK img2 →
  ∃ err', computeCurveCost bilinear st img1 img2 err = Some err'
    ∧ ∀ v u d pt dir raster k,
        0 ≤ v < dispHeight (params st) → 0 ≤ u < dispWidth (params st) →
        0 ≤ d < dispMax (params st) →
        at_ (pointVec1 st) (getLinearIndex (params st) u v) = Some pt →
        at_ (epipolarDirectionVec st) (getLinearIndex (params st) u v)
        = Some dir →
        ne2 dir dir = false →
        getCurveRasteriser st (getLinearIndex (params st) u v) = Some raster →
        let L := Z.max (scale (params st) - 1) 1 in
        let descriptor := descriptorAt bilinear img1 L (L * 2 + 1) pt dir in
        let samples :=
          samplesFrom img2 (Z.to_nat (dispMax (params st) + (L * 2 + 1) - 1))
                      (rasterSteps raster (- L)) in
        take (Z.to_nat (L * 2 + 1)) (drop (Z.to_nat d) samples)
        = (λ a, a + k) <$> descriptor →
        - maxBias (params st) ≤ k ≤ maxBias (params st) →
        entry (params st) err' v u d = 0.
Proof.
  intros Hready Himg.
  destruct (computeCurveCost_value bilinear st img1 img2 err Hready Himg)
    as (err' & Herr' & Hval).
  exists err'. split; [done|].
  intros v u d pt dir raster k Hv Hu Hd Hpt Hdir Hn Hr L descriptor samples
    Hwin Hk.
  rewrite (Hval v u Hv Hu pt dir raster Hpt Hdir Hn Hr d Hd).
  pose proof (halfLength_range st err Hready) as HL. fold L in HL.
  destruct (descriptor_bytes bilinear st img1 err Hready pt dir) as [Hdl _].
  fold L in Hdl. fold descriptor in Hdl.
  unfold pixelCost. cbn zeta. fold L. fold descriptor. fold samples.
  rewrite Hwin.
  assert (Hbias : clampedBias (maxBias (params st)) (L * 2 + 1) descriptor
                    ((λ a, a + k) <$> descriptor) = k).
  { unfold clampedBias. rewrite sum_offset, Hdl.
    replace (foldr Z.add 0 descriptor + k * (L * 2 + 1)
             - foldr Z.add 0 descriptor) with (k * (L * 2 + 1)) by lia.
    rewrite Z.quot_mul by lia. lia. }
  rewrite Hbias. unfold weightedSAD. rewrite zero_terms.
  rewrite Z.quot_0_l; [done|]. rewrite triangle_sum by lia. nia.
Qed.

Lemma shiftStereo_ready : costReady shiftStereo [9; 9].
Proof.
  unfold costReady. cbn [params shiftStereo shiftParams scale maxBias dispMax
    dispWidth dispHeight pointVec1 epipolarDirectionVec length].
  unfold INT_MAX, bufferWidth. cbn [dispWidth dispMax].
  repeat (split; [done || lia|]).
  intros u v dir Hv Hu Hdir Hne.
  assert (v = 0) as -> by lia. assert (u = 0) as -> by lia.
  vm_compute. by eexists.
Qed.

Lemma rampImage7_ok : imageOK rampImage7.
Proof.
  repeat split; try done. repeat constructor; cbn; lia.
Qed.

Lemma computeCurveCost_offset_invariant_witness :
  descriptorAt nearestSample rampImage 2 5 (V2 3 1)%float (V2 (-1) 0)%float
  = [50; 40; 30; 20; 10]
  ∧ ∃ err' (raster : Raster float),
      computeCurveCost nearestSample shiftStereo rampImage rampImage7 [9; 9]
      = Some err'
      ∧ getCurveRasteriser shiftStereo 0 = Some raster
      ∧ take 5 (samplesFrom rampImage7 6 (rasterSteps raster (- 2)))
        = [57; 47; 37; 27; 17]
      ∧ entry (params shiftStereo) err' 0 0 0 = 0.
Proof.
  split; [by vm_compute|].
  destruct (computeCurveCost_offset_invariant nearestSample shiftStereo
              rampImage rampImage7 [9; 9] shiftStereo_ready rampImage7_ok)
    as (err' & Herr & Hall).
  destruct (@getCurveRasteriser float (Raster float) _ _ shiftStereo 0)
    as [raster|] eqn:Hr; [|by vm_compute in Hr].
  exists err', raster. split; [done|]. split; [done|].
  assert (Hw : take 5 (samplesFrom rampImage7 6 (rasterSteps raster (- 2)))
               = [57; 47; 37; 27; 17]).
  { vm_compute in Hr. injection Hr as <-. by vm_compute. }
  split; [done|].
  apply (Hall 0 0 0 (V2 3 1)%float (V2 (-1) 0)%float raster 7).
  - cbn. lia.
  - cbn. lia.
  - cbn. lia.
  - reflexivity.
  - reflexivity.
  - by vm_compute.
  - exact Hr.
  - vm_compute in Hr. injection Hr as <-. by vm_compute.
  - cbn. lia.
Defined.

(** ** createBuffer *)

Lemma refit_sized alloc m w h :
  allocOK alloc → matOK m → 0 ≤ w → 0 ≤ h →
  cols (refit alloc m w h) = w ∧ rows (refit alloc m w h) = h
  ∧ matOK (refit alloc m w h)
  ∧ Z.of_nat (length (data (refit alloc m w h))) = h * w.
Proof.
  intros Ha Hm Hw Hh. unfold refit.
  destruct (cols m =? w) eqn:Ec; destruct (rows m =? h) eqn:Er;
    cbn [negb orb].
  - apply Z.eqb_eq in Ec, Er. unfold matOK in *. rewrite Hm. by subst.
  - destruct (Ha w h Hw Hh) as (H1 & H2 & H3). unfold matOK in *.
    rewrite H3, H1, H2. done.
  - destruct (Ha w h Hw Hh) as (H1 & H2 & H3). unfold matOK in *.
    rewrite H3, H1, H2. done.
  - destruct (Ha w h Hw Hh) as (H1 & H2 & H3). unfold matOK in *.
    rewrite H3, H1, H2. done.
Qed.

Lemma refit_keeps alloc m w h :
  cols m = w → rows m = h → refit alloc m w h = m.
Proof.
  intros Hc Hr. unfold refit.
  by rewrite (proj2 (Z.eqb_eq _ _) Hc), (proj2 (Z.eqb_eq _ _) Hr).
Qed.

(** X17. With a constructor of matrices that returns the size it is
    asked for, matrices whose buffers have the size of their headers, and a
    buffer width [dispWidth * dispMax] that is an [int]: [createBuffer]
    leaves the cost volume and the four tableaux with [dispHeight] rows of
    [dispWidth * dispMax] entries and the disparity map with [dispHeight]
    rows of [dispWidth] entries; a matrix that already has its size is
    kept with its content; and a second call, with any constructor,
    changes nothing. *)
Theorem createBuffer_sizes (alloc alloc' : Z → Z → Mat8u)
    (P : StereoParameters) (M : StereoMats) :
  allocOK alloc →
  matOK (errorMat M) → matOK (leftMat M) → matOK (rightMat M) →
  matOK (topMat M) → matOK (bottomMat M) → matOK (disparityMat M) →
  0 ≤ dispWidth P → 0 ≤ dispMax P → 0 ≤ dispHeight P →
  bufferWidth P ≤ INT_MAX →
  ∃ M', createBuffer alloc P M = Some M'
    ∧ (let B := buffersOf M' in
       Z.of_nat (length (errorBuffer B)) = dispHeight P * bufferWidth P
       ∧ length (tableauLeft B) = length (errorBuffer B)
       ∧ length (tableauRight B) = length (errorBuffer B)
       ∧ length (tableauTop B) = length (errorBuffer B)
       ∧ length (tableauBottom B) = length (errorBuffer B)
       ∧ Z.of_nat (length (smallDisparity B)) = dispHeight P * dispWidth P)
    ∧ (cols (errorMat M) = bufferWidth P → rows (errorMat M) = dispHeight P →
       errorMat M' = errorMat M)
    ∧ (cols (disparityMat M) = dispWidth P →
       rows (disparityMat M) = dispHeight P →
       disparityMat M' = disparityMat M)
    ∧ createBuffer alloc' P M' = Some M'.
Proof.
  intros Ha He Hl Hr Ht Hb Hd HW HD HH Hbw.
  unfold createBuffer. unfold bufferWidth in *.
  assert (Hbw0 : 0 ≤ dispWidth P * dispMax P) by nia.
  rewrite imul_Some by (unfold INT_MIN; lia). cbn [mbind option_bind].
  eexists. split; [done|].
  set (bw := dispWidth P * dispMax P) in *.
  destruct (refit_sized alloc (errorMat M) bw (dispHeight P) Ha He Hbw0 HH)
    as (Ec & Er & _ & Hle).
  destruct (refit_sized alloc (leftMat M) bw (dispHeight P) Ha Hl Hbw0 HH)
    as (Lc & Lr & _ & Hll).
  destruct (refit_sized alloc (rightMat M) bw (dispHeight P) Ha Hr Hbw0 HH)
    as (Rc & Rr & _ & Hlr).
  destruct (refit_sized alloc (topMat M) bw (dispHeight P) Ha Ht Hbw0 HH)
    as (Tc & Tr & _ & Hlt).
  destruct (refit_sized alloc (bottomMat M) bw (dispHeight P) Ha Hb Hbw0 HH)
    as (Bc & Br & _ & Hlb).
  destruct (refit_sized alloc (disparityMat M) (dispWidth P) (dispHeight P)
              Ha Hd HW HH) as (Dc & Dr & _ & Hld).
  cbn [buffersOf errorBuffer tableauLeft tableauRight tableauTop
       tableauBottom smallDisparity errorMat leftMat rightMat topMat
       bottomMat disparityMat].
  split; [|split; [|split]].
  - repeat split; try done; apply Nat2Z.inj; congruence.
  - intros Hc' Hr'. by apply refit_keeps.
  - intros Hc' Hr'. by apply refit_keeps.
  - rewrite (refit_keeps alloc' (refit alloc (errorMat M) _ _)) by done.
    rewrite (refit_keeps alloc' (refit alloc (leftMat M) _ _)) by done.
    rewrite (refit_keeps alloc' (refit alloc (rightMat M) _ _)) by done.
    rewrite (refit_keeps alloc' (refit alloc (topMat M) _ _)) by done.
    rewrite (refit_keeps alloc' (refit alloc (bottomMat M) _ _)) by done.
    rewrite (refit_keeps alloc' (refit alloc (disparityMat M) _ _)) by done.
    done.
Qed.

Lemma filledWith_ok c : allocOK (filledWith c).
Proof.
  intros w h Hw Hh. unfold matOK, filledWith. cbn [rows cols data].
  rewrite length_replicate. repeat split. nia.
Qed.

Lemma createBuffer_sizes_witness :
  ∃ M', createBuffer (filledWith 0) smallParams noMats = Some M'
    ∧ (let B := buffersOf M' in
       Z.of_nat (length (errorBuffer B))
       = dispHeight smallParams * bufferWidth smallParams
       ∧ length (tableauLeft B) = length (errorBuffer B)
       ∧ length (tableauRight B) = length (errorBuffer B)
       ∧ length (tableauTop B) = length (errorBuffer B)
       ∧ length (tableauBottom B) = length (errorBuffer B)
       ∧ Z.of_nat (length (smallDisparity B))
         = dispHeight smallParams * dispWidth smallParams)
    ∧ (cols (errorMat noMats) = bufferWidth smallParams →
       rows (errorMat noMats) = dispHeight smallParams →
       errorMat M' = errorMat noMats)
    ∧ (cols (disparityMat noMats) = dispWidth smallParams →
       rows (disparityMat noMats) = dispHeight smallParams →
       disparityMat M' = disparityMat noMats)
    ∧ createBuffer (filledWith 9) smallParams M' = Some M'.
Proof.
  apply (createBuffer_sizes (filledWith 0) (filledWith 9) smallParams noMats).
  - apply filledWith_ok.
  - reflexivity.
  - reflexivity.
  - reflexivity.
  - reflexivity.
  - reflexivity.
  - reflexivity.
  - cbn. lia.
  - cbn. lia.
  - cbn. lia.
  - by vm_compute.
Defined.

(** ** What the buffers held before a call *)

(** Two buffers of the size of the cost volume with the same entries are
    the same buffer. *)
Lemma buffers_equal P (l1 l2 : list Z) :
  0 ≤ dispMax P → 0 ≤ dispWidth P → 0 ≤ dispHeight P →
  Z.of_nat (length l1) = dispHeight P * bufferWidth P →
  length l2 = length l1 →
  (∀ v u d, 0 ≤ v < dispHeight P → 0 ≤ u < dispWidth P →
     0 ≤ d < dispMax P → entry P l1 v u d = entry P l2 v u d) →
  l1 = l2.
Proof.
  intros HD HW HH Hl1 Hl2 He. apply list_eq. intros i.
  destruct (decide (i < length l1)%nat) as [Hi|Hi].
  2:{ rewrite !lookup_ge_None_2 by lia. done. }
  set (D := dispMax P) in *. set (W := dispWidth P) in *.
  set (p := Z.of_nat i).
  unfold bufferWidth in Hl1. fold W D in Hl1.
  assert (Hp : 0 ≤ p < dispHeight P * (W * D)) by lia.
  assert (HWD : 0 < W * D) by nia.
  assert (HD' : 0 < D) by nia.
  pose proof (Z.div_mod p (W * D) ltac:(lia)) as E1.
  pose proof (Z.mod_pos_bound p (W * D) HWD) as B1.
  pose proof (Z.div_mod (p mod (W * D)) D ltac:(lia)) as E2.
  pose proof (Z.mod_pos_bound (p mod (W * D)) D ltac:(lia)) as B2.
  set (v := p / (W * D)) in *. set (q := p mod (W * D)) in *.
  set (u := q / D) in *. set (d := q mod D) in *.
  assert (Hv : 0 ≤ v < dispHeight P).
  { split; [apply Z.div_pos; lia|]. apply Z.div_lt_upper_bound; lia. }
  assert (Hu : 0 ≤ u < W).
  { split; [apply Z.div_pos; lia|]. apply Z.div_lt_upper_bound; lia. }
  specialize (He v u d Hv Hu B2). unfold entry, bufferWidth in He.
  fold W D in He.
  replace (v * (W * D) + u * D + d) with p in He by lia.
  destruct (lookup_lt_is_Some_2 l1 i Hi) as [x Hx].
  destruct (lookup_lt_is_Some_2 l2 i ltac:(lia)) as [y Hy].
  unfold p in He.
  rewrite (get_of_lookup l1 i x Hx), (get_of_lookup l2 i y Hy) in He.
  rewrite Hx, Hy. by f_equal.
Qed.

(** Two tableaux swept over the same costs in the same order hold the
    same entries. *)
Lemma swept_unique P err t1 t2 (dom : Z → Z → Prop) (first : Z → Z → Prop)
    (pv pu rank : Z → Z → Z) :
  2 ≤ dispMax P →
  (∀ v u, dom v u → sweptFrom P err t1 (first v u) v u (pv v u) (pu v u)) →
  (∀ v u, dom v u → sweptFrom P err t2 (first v u) v u (pv v u) (pu v u)) →
  (∀ v u, dom v u → 0 ≤ rank v u ∧ (first v u ↔ rank v u = 0)) →
  (∀ v u, dom v u → ¬ first v u →
     dom (pv v u) (pu v u) ∧ rank (pv v u) (pu v u) = rank v u - 1) →
  ∀ v u d, dom v u → 0 ≤ d < dispMax P →
    entry P t1 v u d = entry P t2 v u d.
Proof.
  intros HD H1 H2 Hrank Hprev.
  assert (Hind : ∀ n : nat, ∀ v u, dom v u → rank v u = Z.of_nat n →
            ∀ d, 0 ≤ d < dispMax P → entry P t1 v u d = entry P t2 v u d).
  { induction n as [|n IH]; intros v u Hdom Hr d Hd.
    - destruct (Hrank v u Hdom) as [_ Hf].
      assert (Hfirst : first v u) by (by apply Hf).
      destruct (H1 v u Hdom d Hd) as [E1 _].
      destruct (H2 v u Hdom d Hd) as [E2 _].
      by rewrite E1, E2.
    - destruct (Hrank v u Hdom) as [_ Hf].
      assert (Hnf : ¬ first v u) by (rewrite Hf; lia).
      destruct (Hprev v u Hdom Hnf) as [Hdom' Hr'].
      destruct (H1 v u Hdom d Hd) as [_ E1]. rewrite (E1 Hnf).
      destruct (H2 v u Hdom d Hd) as [_ E2]. rewrite (E2 Hnf).
      apply dpRecurrence_ext; [done|done| |done].
      intros k Hk. apply IH; [done|lia|done]. }
  intros v u d Hdom Hd. destruct (Hrank v u Hdom) as [Hr _].
  apply (Hind (Z.to_nat (rank v u))); [done|lia|done].
Qed.

(** The tableaux that the sweeps leave depend on the cost volume only. *)
Lemma tableaux_fresh (P : StereoParameters) (B1 B2 B1' B2' : Buffers) :
  buffersReady P B1 → buffersReady P B2 →
  errorBuffer B1 = errorBuffer B2 →
  computeDynamicProgramming P B1 = Some B1' →
  computeDynamicProgramming P B2 = Some B2' →
  tableauLeft B1' = tableauLeft B2'
  ∧ tableauRight B1' = tableauRight B2'
  ∧ tableauTop B1' = tableauTop B2'
  ∧ tableauBottom B1' = tableauBottom B2'.
Proof.
  intros Hr1 Hr2 Herr E1 E2.
  destruct (computeDynamicProgramming_recurrence_aux P B1 Hr1)
    as (X1 & EX1 & Hs1).
  destruct (computeDynamicProgramming_recurrence_aux P B2 Hr2)
    as (X2 & EX2 & Hs2).
  rewrite E1 in EX1. injection EX1 as <-.
  rewrite E2 in EX2. injection EX2 as <-.
  destruct (computeDynamicProgramming_frame P B1 B1' Hr1 E1)
    as (_ & _ & Hl1 & Hr1' & Ht1 & Hb1).
  destruct (computeDynamicProgramming_frame P B2 B2' Hr2 E2)
    as (_ & _ & Hl2 & Hr2' & Ht2 & Hb2).
  rewrite <- Herr in Hs2, Hl2, Hr2', Ht2, Hb2.
  destruct Hr1 as (Hwf & _).
  pose proof Hwf as (HD & HW & HH & Hlen & _).
  set (dom := λ v u, 0 ≤ v < dispHeight P ∧ 0 ≤ u < dispWidth P).
  assert (Heq : ∀ t1 t2 : list Z,
    length t1 = length (errorBuffer B1) →
    length t2 = length (errorBuffer B1) →
    (∀ v u d, dom v u → 0 ≤ d < dispMax P →
       entry P t1 v u d = entry P t2 v u d) → t1 = t2).
  { intros t1 t2 L1 L2 He.
    apply (buffers_equal P); try lia.
    intros v u d Hv Hu Hd. by apply He. }
  split; [|split; [|split]]; apply Heq; try done.
  - apply (swept_unique P (errorBuffer B1) _ _ dom (λ v u, u = 0)
             (λ v u, v) (λ v u, u - 1) (λ v u, u)); try done.
    + intros v u [Hv Hu]. by apply Hs1.
    + intros v u [Hv Hu]. by apply Hs2.
    + intros v u [Hv Hu]. lia.
    + intros v u [Hv Hu] Hnf. unfold dom. lia.
  - apply (swept_unique P (errorBuffer B1) _ _ dom
             (λ v u, u = dispWidth P - 1)
             (λ v u, v) (λ v u, u + 1) (λ v u, dispWidth P - 1 - u));
      try done.
    + intros v u [Hv Hu]. by apply Hs1.
    + intros v u [Hv Hu]. by apply Hs2.
    + intros v u [Hv Hu]. lia.
    + intros v u [Hv Hu] Hnf. unfold dom. lia.
  - apply (swept_unique P (errorBuffer B1) _ _ dom (λ v u, v = 0)
             (λ v u, v - 1) (λ v u, u) (λ v u, v)); try done.
    + intros v u [Hv Hu]. by apply Hs1.
    + intros v u [Hv Hu]. by apply Hs2.
    + intros v u [Hv Hu]. lia.
    + intros v u [Hv Hu] Hnf. unfold dom. lia.
  - apply (swept_unique P (errorBuffer B1) _ _ dom
             (λ v u, v = dispHeight P - 1)
             (λ v u, v + 1) (λ v u, u) (λ v u, dispHeight P - 1 - v));
      try done.
    + intros v u [Hv Hu]. by apply Hs1.
    + intros v u [Hv Hu]. by apply Hs2.
    + intros v u [Hv Hu]. lia.
    + intros v u [Hv Hu] Hnf. unfold dom. lia.
Qed.

(** X19. The tableaux that [computeDynamicProgramming] leaves do not
    depend on what they held before the call: on two sets of buffers that
    the sweeps accept, with the same cost volume, the sweeps leave the same
    four tableaux. *)
Theorem computeDynamicProgramming_ignores_old_tableaux
    (P : StereoParameters) (B1 B2 : Buffers) :
  buffersReady P B1 → buffersReady P B2 →
  errorBuffer B1 = errorBuffer B2 →
  ∃ B1' B2',
    computeDynamicProgramming P B1 = Some B1'
    ∧ computeDynamicProgramming P B2 = Some B2'
    ∧ tableauLeft B1' = tableauLeft B2'
    ∧ tableauRight B1' = tableauRight B2'
    ∧ tableauTop B1' = tableauTop B2'
    ∧ tableauBottom B1' = tableauBottom B2'.
Proof.
  intros Hr1 Hr2 Herr.
  destruct (computeDynamicProgramming_recurrence_aux P B1 Hr1)
    as (B1' & E1 & _).
  destruct (computeDynamicProgramming_recurrence_aux P B2 Hr2)
    as (B2' & E2 & _).
  exists B1', B2'. split; [done|]. split; [done|].
  by apply (tableaux_fresh P B1 B2).
Qed.

Lemma smallBuffers_stale_ready :
  buffersReady smallParams
    {| errorBuffer := errorBuffer smallBuffers;
       tableauLeft := replicate 18 123; tableauRight := replicate 18 (-5);
       tableauTop := replicate 18 99; tableauBottom := replicate 18 1;
       smallDisparity := [] |}.
Proof.
  split; [|by repeat split]. apply smallBuffers_ready.
Qed.

Lemma computeDynamicProgramming_ignores_old_tableaux_witness :
  ∃ B1' B2',
    computeDynamicProgramming smallParams smallBuffers = Some B1'
    ∧ computeDynamicProgramming smallParams
        {| errorBuffer := errorBuffer smallBuffers;
           tableauLeft := replicate 18 123; tableauRight := replicate 18 (-5);
           tableauTop := replicate 18 99; tableauBottom := replicate 18 1;
           smallDisparity := [] |} = Some B2'
    ∧ tableauLeft B1' = tableauLeft B2'
    ∧ tableauRight B1' = tableauRight B2'
    ∧ tableauTop B1' = tableauTop B2'
    ∧ tableauBottom B1' = tableauBottom B2'.
Proof.
  apply (computeDynamicProgramming_ignores_old_tableaux smallParams
           smallBuffers).
  - exact smallBuffers_ready.
  - exact smallBuffers_stale_ready.
  - reflexivity.
Defined.

(** The cost volume that the kernel leaves does not depend on what it held
    before. *)
Lemma costs_fresh {R Ras : Type} `{Scalar R} `{CurveRasterizer R Ras}
    (bilinear : Mat8u → R → R → Z) (st : EnhancedStereo R)
    (img1 img2 : Mat8u) (e1 e2 e1' e2' : list Z) :
  costReady st e1 → costReady st e2 → imageOK img2 →
  computeCurveCost bilinear st img1 img2 e1 = Some e1' →
  computeCurveCost bilinear st img1 img2 e2 = Some e2' →
  e1' = e2'.
Proof.
  intros Hr1 Hr2 Himg E1 E2.
  destruct (computeCurveCost_spec bilinear st img1 img2 e1 Hr1 Himg)
    as (x1 & Ex1 & Hl1 & Hd1).
  destruct (computeCurveCost_spec bilinear st img1 img2 e2 Hr2 Himg)
    as (x2 & Ex2 & Hl2 & Hd2).
  destruct (computeCurveCost_value bilinear st img1 img2 e1 Hr1 Himg)
    as (y1 & Ey1 & Hv1).
  destruct (computeCurveCost_value bilinear st img1 img2 e2 Hr2 Himg)
    as (y2 & Ey2 & Hv2).
  rewrite E1 in Ex1, Ey1. injection Ex1 as <-. injection Ey1 as <-.
  rewrite E2 in Ex2, Ey2. injection Ex2 as <-. injection Ey2 as <-.
  pose proof Hr1 as (_ & _ & HD & _ & HW & HH & Hlen1 & Hpv & Hdv & Hras).
  pose proof Hr2 as (_ & _ & _ & _ & _ & _ & Hlen2 & _).
  apply (buffers_equal (params st)); try lia.
  intros v u d Hv Hu Hd.
  pose proof (pixel_index st v u Hv Hu) as Hidx.
  destruct (at_Some (pointVec1 st) (getLinearIndex (params st) u v))
    as (pt & Hpt & _); [lia|].
  destruct (at_Some (epipolarDirectionVec st)
              (getLinearIndex (params st) u v)) as (dir & Hdir & _); [lia|].
  destruct (ne2 dir dir) eqn:Enan.
  - destruct (Hd1 v u Hv Hu d Hd) as [_ Hz1].
    destruct (Hd2 v u Hv Hu d Hd) as [_ Hz2].
    by rewrite (Hz1 dir Hdir Enan), (Hz2 dir Hdir Enan).
  - destruct (Hras u v dir Hv Hu Hdir Enan) as [raster Hraster].
    rewrite (Hv1 v u Hv Hu pt dir raster Hpt Hdir Enan Hraster d Hd).
    by rewrite (Hv2 v u Hv Hu pt dir raster Hpt Hdir Enan Hraster d Hd).
Qed.

Lemma selected_unique (f : Z → Z) D a b :
  selected f D a → selected f D b → a = b.
Proof.
  intros [[Ha ->]|(Ha & Hla & Hma & Hfa)] [[Hb ->]|(Hb & Hlb & Hmb & Hfb)].
  - done.
  - specialize (Ha b Hb). lia.
  - specialize (Hb a Ha). lia.
  - destruct (Z.lt_trichotomy a b) as [Hlt|[->|Hgt]]; [|done|].
    + specialize (Hfb a ltac:(lia)). specialize (Hma b Hb). lia.
    + specialize (Hfa b ltac:(lia)). specialize (Hmb a Ha). lia.
Qed.

(** X20. The result of [comuteStereo] does not depend on what the
    buffers held before the call: on two sets of buffers that it accepts,
    whatever their cost volumes, tableaux and disparity maps hold, it runs
    to its end and leaves the same six buffers and returns the same
    disparity map. *)
Theorem comuteStereo_ignores_old_buffers {R Ras : Type} `{Scalar R}
    `{CurveRasterizer R Ras} (bilinear : Mat8u → R → R → Z)
    (st : EnhancedStereo R) (img1 img2 : Mat8u) (B1 B2 : Buffers) :
  stereoReady st B1 → stereoReady st B2 → imageOK img2 →
  ∃ B' disp,
    comuteStereo bilinear st img1 img2 B1 = Some (B', disp)
    ∧ comuteStereo bilinear st img1 img2 B2 = Some (B', disp).
Proof.
  intros HS1 HS2 Himg.
  pose proof HS1 as (Hc1 & HD & HW & HH & Hll1 & Hlr1 & Hlt1 & Hlb1 & Hld1 & HM).
  pose proof HS2 as (Hc2 & _ & _ & _ & Hll2 & Hlr2 & Hlt2 & Hlb2 & Hld2 & _).
  set (P := params st) in *.
  destruct (computeCurveCost_spec bilinear st img1 img2 (errorBuffer B1)
              Hc1 Himg) as (err & Herr1 & Hlerr1 & Hdone).
  destruct (computeCurveCost_spec bilinear st img1 img2 (errorBuffer B2)
              Hc2 Himg) as (err2 & Herr2 & Hlerr2 & _).
  pose proof (costs_fresh bilinear st img1 img2 _ _ _ _ Hc1 Hc2 Himg
                Herr1 Herr2) as <-.
  fold P in Hdone.
  pose proof Hc1 as (_ & _ & _ & _ & _ & _ & Hlen & _). fold P in Hlen.
  assert (Hbytes : ∀ v u d, 0 ≤ v < dispHeight P → 0 ≤ u < dispWidth P →
            0 ≤ d < dispMax P → 0 ≤ entry P err v u d ≤ 255).
  { intros v u d Hv Hu Hd. by destruct (Hdone v u Hv Hu d Hd). }
  assert (HB : 0 ≤ Z.max (dispWidth P) (dispHeight P) * stepBound P).
  { unfold stepBound. nia. }
  assert (Hwf : wellFormed P err).
  { unfold wellFormed. rewrite Hlerr1. repeat split; try (done || lia).
    apply (bytes_of_entries P); done || lia. }
  assert (Hready1 : buffersReady P (setErrorBuffer B1 err)).
  { unfold buffersReady, setErrorBuffer.
    cbn [errorBuffer tableauLeft tableauRight tableauTop tableauBottom].
    rewrite Hlerr1. done. }
  assert (Hready2 : buffersReady P (setErrorBuffer B2 err)).
  { unfold buffersReady, setErrorBuffer.
    cbn [errorBuffer tableauLeft tableauRight tableauTop tableauBottom].
    rewrite Hlerr2. done. }
  destruct (computeDynamicProgramming_recurrence_aux P _ Hready1)
    as (X1 & EX1 & _).
  destruct (computeDynamicProgramming_recurrence_aux P _ Hready2)
    as (X2 & EX2 & _).
  destruct (tableaux_fresh P _ _ X1 X2 Hready1 Hready2 eq_refl EX1 EX2)
    as (Tl & Tr & Tt & Tb).
  destruct (computeDynamicProgramming_frame P _ X1 Hready1 EX1)
    as (He1 & Hd1 & Hl1 & Hr1 & Ht1 & Hb1).
  destruct (computeDynamicProgramming_frame P _ X2 Hready2 EX2)
    as (He2 & Hd2 & _).
  cbn [setErrorBuffer errorBuffer smallDisparity] in He1, Hd1, Hl1, Hr1,
    Ht1, Hb1, He2, Hd2.
  pose proof (tableaux_bounded P _ X1 Hready1 EX1) as Hbound.
  cbn zeta in Hbound.
  assert (Hfused : ∀ v u d, fused P X2 v u d = fused P X1 v u d).
  { intros v u d. unfold fused. by rewrite <- Tl, <- Tr, <- Tt, <- Tb, He1, He2. }
  assert (Hscore1 : ∀ v u d, 0 ≤ v < dispHeight P → 0 ≤ u < dispWidth P →
            0 ≤ d < dispMax P →
            fusedScore X1 (v * bufferWidth P + (u * dispMax P + d))
            = Some (fused P X1 v u d)).
  { intros v u d Hv Hu Hd.
    destruct (Hbound v u d Hv Hu Hd) as (H1' & H2' & H3' & H4').
    apply (fusedScore_Some P X1 v u d
             (Z.max (dispWidth P) (dispHeight P) * stepBound P));
      rewrite ?He1; try (done || lia).
    by apply Hbytes. }
  assert (Hscore2 : ∀ v u d, 0 ≤ v < dispHeight P → 0 ≤ u < dispWidth P →
            0 ≤ d < dispMax P →
            fusedScore X2 (v * bufferWidth P + (u * dispMax P + d))
            = Some (fused P X1 v u d)).
  { intros v u d Hv Hu Hd. rewrite <- (Hscore1 v u d Hv Hu Hd).
    unfold fusedScore. by rewrite <- Tl, <- Tr, <- Tt, <- Tb, He1, He2. }
  destruct (reconstructDisparity_spec P X1 (fused P X1))
    as (r1 & Hrec1 & Hlr1' & Hsel1); [lia|lia|lia|by rewrite Hd1|done|].
  destruct (reconstructDisparity_spec P X2 (fused P X1))
    as (r2 & Hrec2 & Hlr2' & Hsel2); [lia|lia|lia|by rewrite Hd2|done|].
  assert (Hdisp : r1.1 = r2.1).
  { apply list_eq. intros i.
    destruct (decide (i < length r1.1)%nat) as [Hi|Hi].
    2:{ rewrite !lookup_ge_None_2; [done| |lia].
        apply Nat2Z.inj_le. rewrite Hlr2', Hd2, Hld2.
        rewrite Hlr1', Hd1 in Hi. lia. }
    assert (HiZ : 0 ≤ Z.of_nat i < dispHeight P * dispWidth P).
    { rewrite Hlr1', Hd1 in Hi. lia. }
    pose proof (Z.div_mod (Z.of_nat i) (dispWidth P) ltac:(lia)) as Ediv.
    pose proof (Z.mod_pos_bound (Z.of_nat i) (dispWidth P) ltac:(lia)) as Bm.
    set (v := Z.of_nat i / dispWidth P) in *.
    set (u := Z.of_nat i mod dispWidth P) in *.
    assert (Hv : 0 ≤ v < dispHeight P).
    { split; [apply Z.div_pos; lia|]. apply Z.div_lt_upper_bound; lia. }
    pose proof (selected_unique _ _ _ _ (Hsel1 v u Hv Bm) (Hsel2 v u Hv Bm))
      as Hget.
    replace (v * dispWidth P + u) with (Z.of_nat i) in Hget by lia.
    destruct (lookup_lt_is_Some_2 r1.1 i Hi) as [x Hx].
    destruct (lookup_lt_is_Some_2 r2.1 i) as [y Hy].
    { apply Nat2Z.inj_lt. rewrite Hlr2', Hd2, Hld2. lia. }
    rewrite (get_of_lookup _ i x Hx), (get_of_lookup _ i y Hy) in Hget.
    rewrite Hx, Hy. by f_equal. }
  unfold comuteStereo. fold P. rewrite Herr1, Herr2. cbn [mbind option_bind].
  rewrite EX1, EX2. cbn [mbind option_bind]. rewrite Hrec1, Hrec2.
  cbn [mbind option_bind]. eexists _, _. split; [done|].
  unfold setSmallDisparity. cbn [smallDisparity].
  by rewrite <- Tl, <- Tr, <- Tt, <- Tb, He1, He2, Hdisp.
Qed.

Lemma staleBuffers_ready :
  stereoReady pairStereo
    {| errorBuffer := replicate 4 200;
       tableauLeft := replicate 4 (-3); tableauRight := replicate 4 50;
       tableauTop := replicate 4 7; tableauBottom := replicate 4 1000;
       smallDisparity := [1; 1] |}.
Proof.
  unfold stereoReady. cbn zeta. split.
  - pose proof pairStereo_ready as Hr. unfold costReady in *.
    cbn [errorBuffer]. by rewrite length_replicate in *.
  - cbn [params pairStereo pairParams dispMax dispWidth dispHeight].
    unfold stepBound, INT_MAX. cbn [lambdaStep lambdaJump].
    repeat split; done || lia.
Qed.

Lemma comuteStereo_ignores_old_buffers_witness :
  ∃ B' disp,
    comuteStereo nearestSample pairStereo pairImage pairImage pairBuffers
    = Some (B', disp)
    ∧ comuteStereo nearestSample pairStereo pairImage pairImage
        {| errorBuffer := replicate 4 200;
           tableauLeft := replicate 4 (-3); tableauRight := replicate 4 50;
           tableauTop := replicate 4 7; tableauBottom := replicate 4 1000;
           smallDisparity := [1; 1] |}
      = Some (B', disp).
Proof.
  apply (comuteStereo_ignores_old_buffers nearestSample pairStereo pairImage
           pairImage pairBuffers).
  - exact pairBuffers_ready.
  - exact staleBuffers_ready.
  - exact pairImage_ok.
Defined.

(** ** The step penalty *)

Lemma dpRecurrence_mono_step D ls ls' lj prev prev' cost d :
  2 ≤ D → 0 ≤ d < D → ls ≤ ls' →
  (∀ k, 0 ≤ k < D → prev k ≤ prev' k) →
  dpRecurrence D ls lj prev cost d ≤ dpRecurrence D ls' lj prev' cost d.
Proof.
  intros HD Hd Hl Hp. unfold dpRecurrence, neighbours.
  pose proof (minOver_mono prev prev' D Hp ltac:(lia)) as Hb.
  pose proof (Hp d Hd).
  destruct (0 <? d) eqn:E1; destruct (d + 1 <? D) eqn:E2; simpl;
    try (pose proof (Hp (d - 1) ltac:(lia)));
    try (pose proof (Hp (d + 1) ltac:(lia))); lia.
Qed.

Lemma swept_mono_step P s err t1 t2 (dom : Z → Z → Prop)
    (first : Z → Z → Prop) (pv pu rank : Z → Z → Z) :
  2 ≤ dispMax P → lambdaStep P ≤ s →
  (∀ v u, dom v u → sweptFrom P err t1 (first v u) v u (pv v u) (pu v u)) →
  (∀ v u, dom v u →
     sweptFrom (setLambdaStep P s) err t2 (first v u) v u (pv v u) (pu v u)) →
  (∀ v u, dom v u → 0 ≤ rank v u ∧ (first v u ↔ rank v u = 0)) →
  (∀ v u, dom v u → ¬ first v u →
     dom (pv v u) (pu v u) ∧ rank (pv v u) (pu v u) = rank v u - 1) →
  ∀ v u d, dom v u → 0 ≤ d < dispMax P →
    entry P t1 v u d ≤ entry P t2 v u d.
Proof.
  intros HD Hj H1 H2 Hrank Hprev.
  assert (Hind : ∀ n : nat, ∀ v u, dom v u → rank v u = Z.of_nat n →
            ∀ d, 0 ≤ d < dispMax P → entry P t1 v u d ≤ entry P t2 v u d).
  { induction n as [|n IH]; intros v u Hdom Hr d Hd.
    - destruct (Hrank v u Hdom) as [_ Hf].
      assert (Hfirst : first v u) by (by apply Hf).
      destruct (H1 v u Hdom d Hd) as [E1 _].
      destruct (H2 v u Hdom d Hd) as [E2 _].
      change (entry (setLambdaStep P s)) with (entry P) in E2.
      rewrite E1, E2 by done. done.
    - destruct (Hrank v u Hdom) as [_ Hf].
      assert (Hnf : ¬ first v u) by (rewrite Hf; lia).
      destruct (Hprev v u Hdom Hnf) as [Hdom' Hr'].
      destruct (H1 v u Hdom d Hd) as [_ E1]. rewrite (E1 Hnf).
      destruct (H2 v u Hdom d Hd) as [_ E]. specialize (E Hnf).
      change (entry P t2 v u d
              = dpRecurrence (dispMax P) s (lambdaJump P)
                  (entry P t2 (pv v u) (pu v u)) (entry P err v u) d) in E.
      rewrite E. apply dpRecurrence_mono_step; [done|done|done|].
      intros k Hk. apply IH; [done|lia|done]. }
  intros v u d Hdom Hd. destruct (Hrank v u Hdom) as [Hr _].
  apply (Hind (Z.to_nat (rank v u))); [done|lia|done].
Qed.

(** X21. For a fixed cost volume and two step penalties [s1 <= s2], both
    accepted by the buffers, the sweeps run to their end with either
    penalty and every entry of each of the four tableaux computed with
    [s2] is greater than or equal to the entry computed with [s1]. *)
Theorem lambdaStep_monotone (P : StereoParameters) (B : Buffers) (s1 s2 : Z) :
  s1 ≤ s2 →
  buffersReady (setLambdaStep P s1) B →
  buffersReady (setLambdaStep P s2) B →
  ∃ B1 B2,
    computeDynamicProgramming (setLambdaStep P s1) B = Some B1
    ∧ computeDynamicProgramming (setLambdaStep P s2) B = Some B2
    ∧ ∀ v u d, 0 ≤ v < dispHeight P → 0 ≤ u < dispWidth P →
        0 ≤ d < dispMax P →
        entry P (tableauLeft B1) v u d ≤ entry P (tableauLeft B2) v u d
        ∧ entry P (tableauRight B1) v u d ≤ entry P (tableauRight B2) v u d
        ∧ entry P (tableauTop B1) v u d ≤ entry P (tableauTop B2) v u d
        ∧ entry P (tableauBottom B1) v u d ≤ entry P (tableauBottom B2) v u d.
Proof.
  intros Hj Hr1 Hr2.
  destruct (computeDynamicProgramming_recurrence_aux _ _ Hr1) as (B1 & E1 & H1).
  destruct (computeDynamicProgramming_recurrence_aux _ _ Hr2) as (B2 & E2 & H2).
  exists B1, B2. split; [done|]. split; [done|].
  destruct Hr1 as ((HD & HW & HH & _) & _). cbn in HD, HW, HH.
  set (P1 := setLambdaStep P s1) in *.
  set (dom := λ v u, 0 ≤ v < dispHeight P ∧ 0 ≤ u < dispWidth P).
  assert (HP2 : setLambdaStep P s2 = setLambdaStep P1 s2) by done.
  rewrite HP2 in H2.
  intros v u d Hv Hu Hd.
  change (entry P) with (entry P1).
  split; [|split; [|split]].
  - apply (swept_mono_step P1 s2 (errorBuffer B) _ _ dom (λ v u, u = 0)
             (λ v u, v) (λ v u, u - 1) (λ v u, u)); try done.
    + intros v' u' [Hv' Hu']. by apply H1.
    + intros v' u' [Hv' Hu']. by apply H2.
    + intros v' u' [Hv' Hu']. lia.
    + intros v' u' [Hv' Hu'] Hnf. unfold dom. lia.
  - apply (swept_mono_step P1 s2 (errorBuffer B) _ _ dom
             (λ v u, u = dispWidth P - 1)
             (λ v u, v) (λ v u, u + 1) (λ v u, dispWidth P - 1 - u));
      try done.
    + intros v' u' [Hv' Hu']. by apply H1.
    + intros v' u' [Hv' Hu']. by apply H2.
    + intros v' u' [Hv' Hu']. lia.
    + intros v' u' [Hv' Hu'] Hnf. unfold dom. lia.
  - apply (swept_mono_step P1 s2 (errorBuffer B) _ _ dom (λ v u, v = 0)
             (λ v u, v - 1) (λ v u, u) (λ v u, v)); try done.
    + intros v' u' [Hv' Hu']. by apply H1.
    + intros v' u' [Hv' Hu']. by apply H2.
    + intros v' u' [Hv' Hu']. lia.
    + intros v' u' [Hv' Hu'] Hnf. unfold dom. lia.
  - apply (swept_mono_step P1 s2 (errorBuffer B) _ _ dom
             (λ v u, v = dispHeight P - 1)
             (λ v u, v + 1) (λ v u, u) (λ v u, dispHeight P - 1 - v));
      try done.
    + intros v' u' [Hv' Hu']. by apply H1.
    + intros v' u' [Hv' Hu']. by apply H2.
    + intros v' u' [Hv' Hu']. lia.
    + intros v' u' [Hv' Hu'] Hnf. unfold dom. lia.
Qed.

Lemma smallBuffers_ready_step s :
  0 ≤ s ≤ 1000 → buffersReady (setLambdaStep smallParams s) smallBuffers.
Proof.
  intros Hs. split; [|by repeat split].
  split; [cbn; lia|]. split; [cbn; lia|]. split; [cbn; lia|].
  split; [done|]. split.
  - repeat constructor; cbn; lia.
  - unfold stepBound, INT_MAX. cbn [setLambdaStep smallParams dispWidth
      dispHeight lambdaStep lambdaJump]. lia.
Qed.

Lemma lambdaStep_monotone_witness :
  ∃ B1 B2,
    computeDynamicProgramming (setLambdaStep smallParams 2) smallBuffers
      = Some B1
    ∧ computeDynamicProgramming (setLambdaStep smallParams 20) smallBuffers
      = Some B2
    ∧ ∀ v u d, 0 ≤ v < dispHeight smallParams →
        0 ≤ u < dispWidth smallParams → 0 ≤ d < dispMax smallParams →
        entry smallParams (tableauLeft B1) v u d
          ≤ entry smallParams (tableauLeft B2) v u d
        ∧ entry smallParams (tableauRight B1) v u d
          ≤ entry smallParams (tableauRight B2) v u d
        ∧ entry smallParams (tableauTop B1) v u d
          ≤ entry smallParams (tableauTop B2) v u d
        ∧ entry smallParams (tableauBottom B1) v u d
          ≤ entry smallParams (tableauBottom B2) v u d.
Proof.
  apply (lambdaStep_monotone smallParams smallBuffers 2 20).
  - lia.
  - apply smallBuffers_ready_step. lia.
  - apply smallBuffers_ready_step. lia.
Defined.

(** ** Epipolar directions *)

Lemma computeEpipolarDirections_spec {S} `{Scalar S} (st : EnhancedStereo S) :
  (length (pointVec1 st) ≤ length (reconstVec st))%nat →
  ∃ dirs, computeEpipolarDirections st = Some dirs
    ∧ length dirs = length (pointVec1 st)
    ∧ ∀ i pt X, pointVec1 st !! i = Some pt → reconstVec st !! i = Some X →
        dirs !! i = Some (epipolarDirection st pt X).
Proof.
  intros Hlen. unfold computeEpipolarDirections.
  destruct (for_up_inv (λ i (dirs : list (Vector2d S)),
    Z.of_nat (length dirs) = i
    ∧ ∀ k pt X, pointVec1 st !! k = Some pt → reconstVec st !! k = Some X →
        (k < length dirs)%nat →
        dirs !! k = Some (epipolarDirection st pt X)) 0
    (Z.of_nat (length (pointVec1 st)))
    (λ i dirs,
       X ← at_ (reconstVec st) i;
       pt ← at_ (pointVec1 st) i;
       Some (dirs ++ [epipolarDirection st pt X])) [])
    as (dirs & -> & Hl & Hk); [lia| | |].
  - split; [done|]. intros k pt X _ _ Hk. cbn in Hk. lia.
  - intros i dirs Hi (Hl & Hk).
    destruct (lookup_lt_is_Some_2 (reconstVec st) (Z.to_nat i)) as [X HX];
      [lia|].
    destruct (lookup_lt_is_Some_2 (pointVec1 st) (Z.to_nat i)) as [pt Hpt];
      [lia|].
    unfold at_. rewrite (proj2 (Z.leb_le 0 i)) by lia.
    rewrite HX, Hpt. cbn [mbind option_bind].
    eexists. split; [done|]. rewrite length_app. cbn [length].
    split; [lia|]. intros k pt' X' Hpt' HX' Hlt.
    destruct (decide (k < length dirs)%nat) as [Hk'|Hk'].
    + rewrite lookup_app_l by done. by apply Hk.
    + assert (k = Z.to_nat i) as -> by lia.
      rewrite lookup_app_r by lia.
      replace (Z.to_nat i - length dirs)%nat with 0%nat by lia.
      cbn. congruence.
  - exists dirs. split; [done|].
    split; [lia|]. intros i pt X Hpt HX. apply (Hk i pt X Hpt HX).
    pose proof (lookup_lt_Some _ _ _ Hpt). lia.
Qed.

Lemma computeEpipolarDirections_short {S} `{Scalar S} (st : EnhancedStereo S) :
  (length (reconstVec st) < length (pointVec1 st))%nat →
  computeEpipolarDirections st = None.
Proof.
  intros Hlen. unfold computeEpipolarDirections, for_up.
  set (m := Z.of_nat (length (reconstVec st))).
  replace (Z.of_nat (length (pointVec1 st)) - 0)
    with (m + (Z.of_nat (length (pointVec1 st)) - m)) by lia.
  rewrite seqZ_app by lia. rewrite forM_app.
  destruct (forM _ (seqZ 0 m) []) as [dirs|]; [|done].
  cbn [mbind option_bind].
  rewrite seqZ_cons by lia. cbn [forM].
  unfold at_. rewrite (proj2 (Z.leb_le 0 (0 + m))) by lia.
  rewrite (lookup_ge_None_2 (reconstVec st)) by (unfold m; lia). done.
Qed.

(** X22. [computeEpipolarDirections] has no defined result when there are
    fewer reconstructed rays than points of the first image (it reads past
    the end of [reconstVec]).  Otherwise it runs to its end and leaves one
    direction per point, whatever [epipolarDirectionVec] held before: for
    the point [pt] with the ray [X], the normalized difference between the
    projection by the first camera of [X] moved by a thousandth of the
    unit baseline, as that camera leaves it whether or not it succeeds,
    and [pt]. *)
Theorem epipolar_directions_stored {S} `{Scalar S} (st : EnhancedStereo S) :
  ((length (reconstVec st) < length (pointVec1 st))%nat →
     computeEpipolarDirections st = None)
  ∧ ((length (pointVec1 st) ≤ length (reconstVec st))%nat →
     ∃ dirs, computeEpipolarDirections st = Some dirs
       ∧ length dirs = length (pointVec1 st)
       ∧ ∀ i pt X,
           pointVec1 st !! i = Some pt → reconstVec st !! i = Some X →
           let t := scale3 (normalized (trans (Transform12 st)))
                           (dec 1 (-3)) in
           let pt' := (projectPoint (cam1 st) (sub3 X t)).2 in
           dirs !! i = Some (normalized2 (sub2 pt' pt))).
Proof.
  split; [apply computeEpipolarDirections_short|].
  intros Hlen.
  destruct (computeEpipolarDirections_spec st Hlen) as (dirs & Hd & Hl & Hk).
  exists dirs. split; [done|]. split; [done|].
  intros i pt X Hpt HX t pt'. exact (Hk i pt X Hpt HX).
Qed.

Lemma epipolar_directions_stored_witness :
  computeEpipolarDirections shiftStereo = Some [V2 (-1) 0]%float.
Proof.
  destruct (proj2 (epipolar_directions_stored shiftStereo))
    as (dirs & Hd & Hl & Hk); [cbn; lia|].
  rewrite Hd. f_equal.
  pose proof (Hk 0%nat (V2 3 1)%float (V3 0 0 1)%float eq_refl eq_refl)
    as Hdir.
  destruct dirs as [|d [|d' dirs]]; [discriminate Hl| |discriminate Hl].
  f_equal. cbn [lookup list_lookup] in Hdir. vm_compute in Hdir.
  by injection Hdir.
Defined.

(** ** Vectors that [index] cannot place *)

(** X24. In IEEE binary64: for a vector whose component along [xBase]
    is not a number, [index] has no defined result, whatever the other
    members hold: both tests of [index] fail on a NaN, and the conversion
    of a NaN to [int] is undefined. *)
Theorem index_of_nan (E : EnhancedEpipolar float) (X : Vector3d float) :
  dot X (xBase E) = nan → index E X = None.
Proof.
  intros Hc. unfold index. rewrite Hc.
  cbn [sadd ssub smul sdiv sabs sltb sround strunc sofZ Scalar_float].
  change (PrimFloat.abs nan) with nan.
  rewrite nan_add_l, nan_ltb_l, nan_ltb_r, nan_div_l, nan_sub_r, nan_div_l.
  change (float_round nan) with nan. rewrite nan_add_l. reflexivity.
Qed.

Lemma index_of_nan_witness :
  index sideEpipolar (V3 nan 0 0)%float = None.
Proof.
  apply (index_of_nan sideEpipolar (V3 nan 0 0)%float).
  vm_compute. reflexivity.
Defined.

(** X26. On IEEE binary64, for a table that the constructor has built with
    a number of steps that is an [int]: [index] of a vector has a defined
    result exactly when the products of the vector with [xBase] and
    [yBase] are numbers (not NaN) and not both infinite.  Otherwise both
    tests of [index] fail, the quotient of the two products is a NaN, and
    its conversion to [int] is undefined. *)
Theorem index_defined_iff (T12 : Transformation float)
    (cam2 : ICamera float) (n : Z) (E : EnhancedEpipolar float)
    (X : Vector3d float) :
  newEnhancedEpipolar T12 cam2 n = Some E → n ≤ INT_MAX →
  is_Some (index E X)
  ↔ number (dot X (xBase E)) = true ∧ number (dot X (yBase E)) = true
    ∧ finite (dot X (xBase E)) || finite (dot X (yBase E)) = true.
Proof.
  intros HE Hmax.
  destruct (newEnhancedEpipolar_members T12 cam2 n E HE)
    as (Hn & Heven & HnE & Hst & _).
  split.
  - intros [i Hi].
    destruct (number (dot X (xBase E)) && number (dot X (yBase E))
              && (finite (dot X (xBase E)) || finite (dot X (yBase E))))
      eqn:Hb.
    + by apply andb_true_iff in Hb as [[Hc Hs]%andb_true_iff Hf].
    + by rewrite (index_undefined E X Hb) in Hi.
  - intros (Hc & Hs & Hf).
    destruct (index_range E X n HnE Hst ltac:(lia) Heven Hc Hs Hf)
      as (i & Hi & _).
    by exists i.
Qed.

Lemma index_defined_iff_witness :
  is_Some (index slantEpipolar (V3 1 2 3)%float)
  ↔ number (dot (V3 1 2 3)%float (xBase slantEpipolar)) = true
    ∧ number (dot (V3 1 2 3)%float (yBase slantEpipolar)) = true
    ∧ finite (dot (V3 1 2 3)%float (xBase slantEpipolar))
      || finite (dot (V3 1 2 3)%float (yBase slantEpipolar)) = true.
Proof.
  apply (index_defined_iff slantPose sixParamCamera 8 slantEpipolar
           (V3 1 2 3)%float).
  - exact slantEpipolar_built.
  - unfold INT_MAX. lia.
Defined.

(** ** The grid of points *)

(** X25. For a working grid whose size is an [int]:
    [computeReconstructed] runs to its end and appends to [pointVec1] the
    points of the grid row by row, so that the point of column [u] and row
    [v] is at [getLinearIndex(u, v)] after the points that the vector held
    before (it does not clear the vector: a second call appends the grid
    again); [reconstVec] then holds the ray of every point of
    [pointVec1], in the same order. *)
Theorem computeReconstructed_layout {R : Type} `{Scalar R}
    (uImg vImg : Z → R) (st : EnhancedStereo R) :
  0 ≤ dispHeight (params st) → 0 ≤ dispWidth (params st) →
  dispHeight (params st) * dispWidth (params st) ≤ INT_MAX →
  ∃ pts rays,
    computeReconstructed uImg vImg st = Some (pts, rays)
    ∧ take (length (pointVec1 st)) pts = pointVec1 st
    ∧ Z.of_nat (length pts)
      = Z.of_nat (length (pointVec1 st))
        + dispHeight (params st) * dispWidth (params st)
    ∧ (∀ v u, 0 ≤ v < dispHeight (params st) →
         0 ≤ u < dispWidth (params st) →
         at_ pts (Z.of_nat (length (pointVec1 st))
                  + getLinearIndex (params st) u v)
         = Some (V2 (uImg u) (vImg v)))
    ∧ rays = (λ p, (reconstructPoint (cam1 st) p).2) <$> pts.
Proof.
  intros HH HW Hmax. unfold computeReconstructed.
  set (P := params st) in *. set (old := pointVec1 st).
  set (W := dispWidth P) in *. set (Ht := dispHeight P) in *.
  rewrite imul_Some by (unfold INT_MIN; nia). cbn [mbind option_bind].
  destruct (Ht * W <? 0) eqn:E; [apply Z.ltb_lt in E; nia|].
  set (Inv := λ (n : Z) (pts : list (Vector2d R)),
    take (length old) pts = old
    ∧ Z.of_nat (length pts) = Z.of_nat (length old) + n
    ∧ ∀ v u, 0 ≤ v → 0 ≤ u < W → v * W + u < n →
        pts !! Z.to_nat (Z.of_nat (length old) + (u + v * W))
        = Some (V2 (uImg u) (vImg v))).
  destruct (for_up_inv (λ v pts, Inv (v * W) pts) 0 Ht
    (λ v pts, for_up 0 W (λ u pts,
       Some (pts ++ [V2 (uImg u) (vImg v)])) pts) old)
    as (pts & -> & Htake & Hlen & Hall); [done| | |].
  - split; [by rewrite take_ge|]. split; [lia|]. intros v u Hv Hu Hlt. nia.
  - intros v pts Hv Hinv.
    destruct (for_up_inv (λ u pts, Inv (v * W + u) pts) 0 W
      (λ u pts, Some (pts ++ [V2 (uImg u) (vImg v)])) pts)
      as (pts' & -> & Hinv'); [done| | |].
    + by rewrite Z.add_0_r.
    + intros u t Hu (Htake & Hlen & Hall).
      eexists. split; [done|]. split; [|split].
      * rewrite take_app_le by lia. done.
      * rewrite length_app. cbn [length]. lia.
      * intros v' u' Hv' Hu' Hlt.
        assert (0 ≤ v' * W) by nia. assert (0 ≤ v * W) by nia.
        destruct (decide (v' * W + u' < v * W + u)) as [Hold|Hnew].
        -- rewrite lookup_app_l by lia. by apply Hall.
        -- assert (v' = v) as ->.
           { destruct (Z.lt_trichotomy v' v) as [Hc|[Hc|Hc]]; [|done|].
             - assert (v' * W + W ≤ v * W) by nia. lia.
             - assert (v * W + W ≤ v' * W) by nia. lia. }
           assert (u' = u) as -> by lia.
           rewrite lookup_app_r by lia.
           replace (Z.to_nat (Z.of_nat (length old) + (u + v * W))
                    - length t)%nat with 0%nat by lia.
           done.
    + exists pts'. split; [done|].
      replace ((v + 1) * W) with (v * W + W) by lia. done.
  - cbn [mbind option_bind]. unfold reconstructPointCloud.
    rewrite cloudLoop_spec. cbn [mbind option_bind snd].
    eexists _, _. split; [done|]. split; [done|]. split; [lia|].
    split; [|done].
    intros v u Hv Hu. unfold at_, getLinearIndex. fold P W.
    rewrite (proj2 (Z.leb_le 0 _)) by nia.
    apply Hall; [lia|lia|nia].
Qed.

Lemma computeReconstructed_layout_witness :
  ∃ pts rays,
    computeReconstructed (λ u, sofZ (3 * u + 1)) (λ v, sofZ (3 * v + 1))
      pairStereo = Some (pts, rays)
    ∧ take (length (pointVec1 pairStereo)) pts = pointVec1 pairStereo
    ∧ Z.of_nat (length pts)
      = Z.of_nat (length (pointVec1 pairStereo))
        + dispHeight (params pairStereo) * dispWidth (params pairStereo)
    ∧ (∀ v u, 0 ≤ v < dispHeight (params pairStereo) →
         0 ≤ u < dispWidth (params pairStereo) →
         at_ pts (Z.of_nat (length (pointVec1 pairStereo))
                  + getLinearIndex (params pairStereo) u v)
         = Some (V2 (sofZ (3 * u + 1)) (sofZ (3 * v + 1))))
    ∧ rays = (λ p, (reconstructPoint (cam1 pairStereo) p).2) <$> pts.
Proof.
  apply (computeReconstructed_layout (λ u, sofZ (3 * u + 1))
           (λ v, sofZ (3 * v + 1)) pairStereo).
  - cbn. lia.
  - cbn. lia.
  - by vm_compute.
Defined.
